(** * pt-client-js: the correction-state engine of [perfecttense.js]

    A shallow embedding of the result-manipulation half of the Perfect Tense
    client (token streams, transformation grouping, availability tracking,
    accept / reject / undo, offsets and the interactive editor), followed by
    the properties established about it.

    Conventions of the embedding.
    - A JavaScript object that is mutated in place and shared by reference
      lives in a store: the array [data.rulesApplied] is a list of sentence
      records, a transformation object is addressed by its position
      (sentence position, position in [sentence.transformations]), and
      [sentence.groups] holds positions in that sentence's own
      [transformations] array, exactly the objects the source pushes there.
    - A thrown [TypeError] (a property read on [undefined]) is [None] in the
      [option] monad.
    - Array indices returned by [findIndex] are integers with the sentinel
      [-1], as in the source.
    - The HTTP side ([saveTransformStatus], [submitToPT]) is outside the
      embedding; only what the callers compute before calling it is kept. *)

From Stdlib Require Import ZArith String Lia.
From stdpp Require Import base option list strings gmap.

Local Open Scope Z_scope.
Local Open Scope nat_scope.

(** ** Data model *)

(** [{id, value, after}] *)
Record Token := mkToken {
  token_id : nat;
  token_value : string;
  token_after : string
}.

(** [pt.TRANSFORM_STATUS_ACCEPTED = "accept"], [..._REJECTED = "reject"],
    [..._CLEAN = "clean"]. *)
Inductive Status :=
| TRANSFORM_STATUS_ACCEPTED
| TRANSFORM_STATUS_REJECTED
| TRANSFORM_STATUS_CLEAN.

Definition Status_eqb (a b : Status) : bool :=
  match a, b with
  | TRANSFORM_STATUS_ACCEPTED, TRANSFORM_STATUS_ACCEPTED
  | TRANSFORM_STATUS_REJECTED, TRANSFORM_STATUS_REJECTED
  | TRANSFORM_STATUS_CLEAN, TRANSFORM_STATUS_CLEAN => true
  | _, _ => false
  end.

(** A transformation object.  [status] and [groupId] are tested for being
    defined by [setMetaData], so an absent property is [None]; the index
    fields and [isAvailable] are only ever overwritten before they are read
    ([undefined] being falsy for [isAvailable]). *)
Record Transform := mkTransform {
  tokensAffected : list Token;
  tokensAdded : list Token;
  hasReplacement : bool;
  isSuggestion : bool;
  status : option Status;
  isAvailable : bool;
  groupId : option nat;
  sentenceIndex : nat;
  indexInSentence : nat;
  transformIndex : nat
}.

(** A sentence object.  [groups] maps a group id to the members of the
    group, as positions in [transformations]. *)
Record Sentence := mkSentence {
  originalSentence : list Token;
  activeTokens : list Token;
  transformations : list Transform;
  groups : gmap nat (list nat);
  sentence_sentenceIndex : nat
}.

(** The job result.  [rulesApplied] may be missing from a response. *)
Record Data := mkData {
  rulesApplied : option (list Sentence);
  hasMeta : bool
}.

(** A reference to a transformation object of a result. *)
Definition TRef : Type := nat * nat.

(** *** Field updates (assignments to one property) *)

Definition set_status (v : option Status) (t : Transform) : Transform :=
  mkTransform (tokensAffected t) (tokensAdded t) (hasReplacement t)
    (isSuggestion t) v (isAvailable t) (groupId t) (sentenceIndex t)
    (indexInSentence t) (transformIndex t).

Definition set_isAvailable (v : bool) (t : Transform) : Transform :=
  mkTransform (tokensAffected t) (tokensAdded t) (hasReplacement t)
    (isSuggestion t) (status t) v (groupId t) (sentenceIndex t)
    (indexInSentence t) (transformIndex t).

Definition set_groupId (v : option nat) (t : Transform) : Transform :=
  mkTransform (tokensAffected t) (tokensAdded t) (hasReplacement t)
    (isSuggestion t) (status t) (isAvailable t) v (sentenceIndex t)
    (indexInSentence t) (transformIndex t).

Definition set_sentenceIndex (v : nat) (t : Transform) : Transform :=
  mkTransform (tokensAffected t) (tokensAdded t) (hasReplacement t)
    (isSuggestion t) (status t) (isAvailable t) (groupId t) v
    (indexInSentence t) (transformIndex t).

Definition set_indexInSentence (v : nat) (t : Transform) : Transform :=
  mkTransform (tokensAffected t) (tokensAdded t) (hasReplacement t)
    (isSuggestion t) (status t) (isAvailable t) (groupId t) (sentenceIndex t)
    v (transformIndex t).

Definition set_transformIndex (v : nat) (t : Transform) : Transform :=
  mkTransform (tokensAffected t) (tokensAdded t) (hasReplacement t)
    (isSuggestion t) (status t) (isAvailable t) (groupId t) (sentenceIndex t)
    (indexInSentence t) v.

Definition set_activeTokens (v : list Token) (s : Sentence) : Sentence :=
  mkSentence (originalSentence s) v (transformations s) (groups s)
    (sentence_sentenceIndex s).

Definition set_transformations (v : list Transform) (s : Sentence) : Sentence :=
  mkSentence (originalSentence s) (activeTokens s) v (groups s)
    (sentence_sentenceIndex s).

Definition set_groups (v : gmap nat (list nat)) (s : Sentence) : Sentence :=
  mkSentence (originalSentence s) (activeTokens s) (transformations s) v
    (sentence_sentenceIndex s).

Definition set_sentence_sentenceIndex (v : nat) (s : Sentence) : Sentence :=
  mkSentence (originalSentence s) (activeTokens s) (transformations s)
    (groups s) v.

Definition set_rulesApplied (v : list Sentence) (d : Data) : Data :=
  mkData (Some v) (hasMeta d).

Definition set_hasMeta (v : bool) (d : Data) : Data :=
  mkData (rulesApplied d) v.

(** [f] applied to the transformation object at position [i] of a sentence. *)
Definition updTransform (f : Transform → Transform) (i : nat) (s : Sentence)
  : Sentence :=
  set_transformations (alter f i (transformations s)) s.

(** The transformation object behind a reference. *)
Definition deref (ss : list Sentence) (r : TRef) : option Transform :=
  s ← ss !! r.1; transformations s !! r.2.

(** ** Token stream utilities *)

(** [Array.prototype.findIndex]: first position satisfying [p], else [-1]. *)
Fixpoint findIndex {A} (p : A → bool) (l : list A) : Z :=
  match l with
  | [] => (-1)%Z
  | x :: l' =>
      if p x then 0%Z
      else let r := findIndex p l' in
           if (r =? -1)%Z then (-1)%Z else (r + 1)%Z
  end.

(** [compareTokens] *)
Definition compareTokens (t1 t2 : Token) : bool :=
  token_id t1 =? token_id t2.

(** The [every] callback of [tokensArePresent], threading [lastIndex]. *)
Fixpoint everyPresent (lastIndex : Z) (tokens allTokens : list Token) : bool :=
  match tokens with
  | [] => true
  | token :: rest =>
      let indexOfId :=
        findIndex (λ activeToken, token_id token =? token_id activeToken)
                  allTokens in
      if negb (indexOfId =? -1)%Z
         && ((lastIndex =? -1)%Z || (indexOfId =? lastIndex + 1)%Z)
      then everyPresent indexOfId rest allTokens
      else false
  end.

(** [tokensArePresent(tokens, allTokens)] *)
Definition tokensArePresent (tokens allTokens : list Token) : bool :=
  everyPresent (-1)%Z tokens allTokens.

(** [arraysOverlap(a1, a2, comparator)] *)
Definition arraysOverlap {A} (a1 a2 : list A) (comparator : A → A → bool)
  : bool :=
  existsb (λ e1, existsb (λ e2, comparator e1 e2) a2) a1.

(** [transformsOverlap(t1, t2, inOrder)] *)
Definition transformsOverlap (t1 t2 : Transform) (inOrder : bool) : bool :=
  arraysOverlap (tokensAffected t1) (tokensAffected t2) compareTokens
  || arraysOverlap (tokensAdded t1) (tokensAffected t2) compareTokens
  || (negb inOrder
      && arraysOverlap (tokensAdded t2) (tokensAffected t1) compareTokens).

(** [replaceTokens(tokens, affected, added)].  [affected[0].id] throws when
    [affected] is empty (an empty run always passes [tokensArePresent]). *)
Definition replaceTokens (tokens affected added : list Token)
  : option (list Token) :=
  if negb (tokensArePresent affected tokens) then Some tokens
  else
    first ← head affected;
    final ← last affected;
    let startInd :=
      findIndex (λ token, token_id token =? token_id first) tokens in
    let endInd :=
      findIndex (λ token, token_id token =? token_id final) tokens in
    if negb (startInd =? -1)%Z && negb (endInd =? -1)%Z
       && (startInd <=? endInd)%Z
    then Some (take (Z.to_nat startInd) tokens ++ added
               ++ drop (Z.to_nat (endInd + 1)) tokens)
    else Some tokens.

(** [pt.tokensToString] *)
Definition tokensToString (tokens : list Token) : string :=
  String.concat ""
    (map (λ token, String.append (token_value token) (token_after token))
         tokens).

(** ** Status predicates and the availability tracker *)

(** [pt.isClean], [pt.isAccepted], [pt.isRejected] *)
Definition isClean (transform : Transform) : bool :=
  match status transform with
  | Some st => Status_eqb st TRANSFORM_STATUS_CLEAN
  | None => false
  end.

Definition isAccepted (transform : Transform) : bool :=
  match status transform with
  | Some st => Status_eqb st TRANSFORM_STATUS_ACCEPTED
  | None => false
  end.

Definition isRejected (transform : Transform) : bool :=
  match status transform with
  | Some st => Status_eqb st TRANSFORM_STATUS_REJECTED
  | None => false
  end.

(** [pt.canMakeTransform(sentence, transform)] *)
Definition canMakeTransform (sentence : Sentence) (transform : Transform)
  : bool :=
  tokensArePresent (tokensAffected transform) (activeTokens sentence).

(** [pt.canUndoTransform(sentence, transform)].  The sentence is only read
    behind the short-circuits, so it may be [undefined] without a throw. *)
Definition canUndoTransform (sentence : option Sentence)
    (transform : Transform) : option bool :=
  if negb (hasReplacement transform) then Some true
  else if isAccepted transform then
    s ← sentence;
    if tokensArePresent (tokensAdded transform) (activeTokens s)
    then Some true
    else if isRejected transform then
      Some (tokensArePresent (tokensAffected transform) (activeTokens s))
    else Some false
  else if isRejected transform then
    s ← sentence;
    Some (tokensArePresent (tokensAffected transform) (activeTokens s))
  else Some false.

(** The inner [setAvailable] of [setIsAvailable], on the object at
    position [i] of the sentence. *)
Definition setAvailable (sentence : Sentence) (i : nat) : Sentence :=
  updTransform
    (λ transform,
       set_isAvailable (canMakeTransform sentence transform) transform)
    i sentence.

(** [setIsAvailable(transforms, sentence)]: [transforms.forEach(setAvailable)] *)
Definition setIsAvailable (transforms : list nat) (sentence : Sentence)
  : Sentence :=
  foldl setAvailable sentence transforms.

(** [updateTokenGroup(sentence, transform)].  A missing group makes
    [transforms.forEach] throw. *)
Definition updateTokenGroup (si : nat) (transform : Transform)
    (ss : list Sentence) : option (list Sentence) :=
  sentence ← ss !! si;
  g ← groupId transform;
  tokenGroup ← groups sentence !! g;
  Some (<[si := setIsAvailable tokenGroup sentence]> ss).

(** ** The transform applier *)

(** [makeTransform(sentence, transform)], the sentence object being at
    position [si] of the store and the transformation object at [r]. *)
Definition makeTransform (si : nat) (r : TRef) (ss : list Sentence)
  : option (list Sentence) :=
  transform ← deref ss r;
  ss1 ← (if hasReplacement transform then
           sentence ← ss !! si;
           toks ← replaceTokens (activeTokens sentence)
                    (tokensAffected transform) (tokensAdded transform);
           updateTokenGroup si transform
             (<[si := set_activeTokens toks sentence]> ss)
         else Some ss);
  Some (alter (updTransform (set_isAvailable false) r.2) r.1 ss1).

(** [undoTransform(sentence, transform)] *)
Definition undoTransform (si : nat) (r : TRef) (ss : list Sentence)
  : option (list Sentence) :=
  transform ← deref ss r;
  ss1 ← (if hasReplacement transform then
           sentence ← ss !! si;
           toks ← replaceTokens (activeTokens sentence)
                    (tokensAdded transform) (tokensAffected transform);
           updateTokenGroup si transform
             (<[si := set_activeTokens toks sentence]> ss)
         else Some ss);
  Some (alter (updTransform (set_isAvailable true) r.2) r.1 ss1).

(** [updateActiveTokens(sentence, transform)] *)
Definition updateActiveTokens (sentence : Sentence) (transform : Transform)
  : option Sentence :=
  if hasReplacement transform && isAccepted transform then
    toks ← replaceTokens (activeTokens sentence)
             (tokensAffected transform) (tokensAdded transform);
    Some (set_activeTokens toks sentence)
  else Some sentence.

(** ** Offsets *)

(** The [find] callback of [getTransformOffsetHelper]: the length of the
    text before the first token carrying [firstId], else [-1]. *)
Fixpoint offsetScan (firstId : nat) (activeTokens : list Token)
    (sentString : string) : Z :=
  match activeTokens with
  | [] => (-1)%Z
  | token :: rest =>
      if token_id token =? firstId then Z.of_nat (String.length sentString)
      else offsetScan firstId rest
             (String.append sentString
                (String.append (token_value token) (token_after token)))
  end.

(** [getTransformOffsetHelper(transform, activeTokens)].  With no affected
    token, [firstAffected.id] throws at the first token visited. *)
Definition getTransformOffsetHelper (transform : Transform)
    (activeTokens : list Token) : option Z :=
  match head (tokensAffected transform), activeTokens with
  | None, [] => Some (-1)%Z
  | None, _ :: _ => None
  | Some firstAffected, _ =>
      Some (offsetScan (token_id firstAffected) activeTokens "")
  end.

(** [pt.getTransformOffset(data, transform)] *)
Definition getTransformOffset (ss : list Sentence) (transform : Transform)
  : option Z :=
  sentence ← ss !! sentenceIndex transform;
  if canMakeTransform sentence transform
  then getTransformOffsetHelper transform (activeTokens sentence)
  else Some (-1)%Z.

(** [pt.getCurrentSentenceText] *)
Definition getCurrentSentenceText (sentence : Sentence) : string :=
  tokensToString (activeTokens sentence).

(** What a JavaScript call may hand back where a number is documented. *)
Inductive JSValue :=
| JSNumber (n : Z)
| JSSentence (s : Sentence)
| JSUndefined.

(** The [find] callback of [getSentenceOffset] with its two captured
    variables: the element found, and the final [fullText] and [offset]. *)
Fixpoint findSentence (target : nat) (ss : list Sentence) (sentIndex : nat)
    (fullText : string) (offset : Z) : option Sentence * string * Z :=
  match ss with
  | [] => (None, fullText, offset)
  | s :: rest =>
      if sentIndex =? target
      then (Some s, fullText, Z.of_nat (String.length fullText))
      else findSentence target rest (S sentIndex)
             (String.append fullText (getCurrentSentenceText s)) offset
  end.

(** [pt.getSentenceOffset(data, sentence)]: the function returns the value
    of [data.rulesApplied.find(...)]; the [return offset] that follows is
    never reached. *)
Definition getSentenceOffset (data : Data) (sentence : Sentence)
  : option JSValue :=
  ss ← rulesApplied data;
  match findSentence (sentence_sentenceIndex sentence) ss 0 "" (-1)%Z with
  | (Some s, _, _) => Some (JSSentence s)
  | (None, _, _) => Some JSUndefined
  end.

(** The prefix sum the documentation of [getSentenceOffset] describes. *)
Definition sentenceOffsetSum (ss : list Sentence) (target : nat) : Z :=
  Z.of_nat
    (sum_list (map (λ s, String.length (getCurrentSentenceText s))
                   (take target ss))).

(** ** The metadata initializer *)

(** [forEach] with a callback that may throw. *)
Fixpoint forEachM {A S} (f : S → A → option S) (l : list A) (s : S)
  : option S :=
  match l with
  | [] => Some s
  | x :: l' => s' ← f s x; forEachM f l' s'
  end.

(** One turn of the [for (i = nextInGroup.indexInSentence + 1; ...)] scan. *)
Definition scanStep (nextInGroup : Transform) (st : Sentence * list nat)
    (i : nat) : option (Sentence * list nat) :=
  let '(sentence, groupQueue) := st in
  nextTrans0 ← transformations sentence !! i;
  let nextTrans := set_indexInSentence i nextTrans0 in
  let sentence' := updTransform (set_indexInSentence i) i sentence in
  if bool_decide (groupId nextTrans = None)
     && transformsOverlap nextInGroup nextTrans true
  then Some (sentence', groupQueue ++ [i])
  else Some (sentence', groupQueue).

(** The [while (groupQueue.length > 0)] loop: breadth-first search for the
    members of group [gid].  [fuel] bounds the number of [shift]s. *)
Fixpoint groupSearch (fuel : nat) (gid : nat) (numTransformsInSent : nat)
    (groupQueue : list nat) (sentence : Sentence) : option Sentence :=
  match groupQueue with
  | [] => Some sentence
  | next :: queue =>
      match fuel with
      | 0 => None
      | S fuel' =>
          nextInGroup ← transformations sentence !! next;
          match groupId nextInGroup with
          | Some _ =>
              groupSearch fuel' gid numTransformsInSent queue sentence
          | None =>
              let sentence1 :=
                set_groups (alter (λ members, members ++ [next]) gid
                                  (groups sentence))
                  (updTransform (set_groupId (Some gid)) next sentence) in
              let start := indexInSentence nextInGroup + 1 in
              '(sentence2, queue2) ←
                forEachM (scanStep (set_groupId (Some gid) nextInGroup))
                  (seq start (numTransformsInSent - start))
                  (sentence1, queue);
              groupSearch fuel' gid numTransformsInSent queue2 sentence2
          end
      end
  end.

(** The callback of [sentence.transformations.forEach] in [setMetaData];
    the state is the sentence with [groupIdCounter] and [transformCounter]. *)
Definition initTransform (sentIndex numTransformsInSent : nat)
    (st : Sentence * nat * nat) (transIndex : nat)
  : option (Sentence * nat * nat) :=
  let '(sentence, groupIdCounter, transformCounter) := st in
  let sentence1 :=
    updTransform
      (λ t, let t1 := set_sentenceIndex sentIndex
                        (set_indexInSentence transIndex
                           (set_transformIndex transformCounter t)) in
            match status t1 with
            | None => set_status (Some TRANSFORM_STATUS_CLEAN) t1
            | Some _ => t1
            end)
      transIndex sentence in
  transform ← transformations sentence1 !! transIndex;
  sentence2 ← updateActiveTokens sentence1 transform;
  match groupId transform with
  | Some _ => Some (sentence2, groupIdCounter, S transformCounter)
  | None =>
      let sentence3 :=
        set_groups (<[groupIdCounter := []]> (groups sentence2)) sentence2 in
      sentence4 ←
        groupSearch (S (numTransformsInSent * numTransformsInSent))
          groupIdCounter numTransformsInSent [transIndex] sentence3;
      Some (sentence4, S groupIdCounter, S transformCounter)
  end.

(** The callback of [data.rulesApplied.forEach] in [setMetaData]. *)
Definition initSentence (sentIndex transformCounter : nat)
    (sentence : Sentence) : option (Sentence * nat) :=
  let sentence0 :=
    set_groups ∅
      (set_sentence_sentenceIndex sentIndex
         (set_activeTokens (originalSentence sentence) sentence)) in
  let numTransformsInSent := length (transformations sentence0) in
  '(sentence1, _, transformCounter') ←
    forEachM (initTransform sentIndex numTransformsInSent)
      (seq 0 numTransformsInSent) (sentence0, 0, transformCounter);
  Some (setIsAvailable (seq 0 numTransformsInSent) sentence1,
        transformCounter').

Fixpoint initSentences (sentIndex transformCounter : nat)
    (ss : list Sentence) : option (list Sentence) :=
  match ss with
  | [] => Some []
  | sentence :: rest =>
      '(sentence', transformCounter') ←
        initSentence sentIndex transformCounter sentence;
      rest' ← initSentences (S sentIndex) transformCounter' rest;
      Some (sentence' :: rest')
  end.

(** [pt.setMetaData(data)] *)
Definition setMetaData (data : Data) : option Data :=
  match rulesApplied data with
  | None => Some data
  | Some ss =>
      ss' ← initSentences 0 0 ss;
      Some (set_hasMeta true (set_rulesApplied ss' data))
  end.

(** ** Accept, reject, reset *)

(** [pt.acceptCorrection(data, transform, apiKey)] *)
Definition acceptCorrection (data : Data) (transform : TRef)
  : option (bool * Data) :=
  ss ← rulesApplied data;
  t ← deref ss transform;
  if isAvailable t then
    sentence ← ss !! sentenceIndex t;
    _ ← getTransformOffset ss t;
    ss1 ← makeTransform (sentenceIndex t) transform ss;
    Some (true,
          set_rulesApplied
            (alter (updTransform
                      (set_status (Some TRANSFORM_STATUS_ACCEPTED))
                      transform.2)
                   transform.1 ss1)
            data)
  else Some (false, data).

(** [pt.rejectCorrection(data, transform, apiKey)] *)
Definition rejectCorrection (data : Data) (transform : TRef)
  : option (bool * Data) :=
  ss ← rulesApplied data;
  t ← deref ss transform;
  if isAvailable t then
    sentence ← ss !! sentenceIndex t;
    _ ← getTransformOffset ss t;
    Some (true,
          set_rulesApplied
            (alter (updTransform
                      (λ t, set_isAvailable false
                              (set_status (Some TRANSFORM_STATUS_REJECTED) t))
                      transform.2)
                   transform.1 ss)
            data)
  else Some (false, data).

(** [pt.resetCorrection(data, transform, apiKey)]; [persist] is
    [canPersist()], under which the text and offset to save are computed. *)
Definition resetCorrection (persist : bool) (data : Data) (transform : TRef)
  : option (bool * Data) :=
  ss ← rulesApplied data;
  t ← deref ss transform;
  canUndoTransform (ss !! sentenceIndex t) t ≫= λ ok : bool,
  if ok then
    ss1 ← undoTransform (sentenceIndex t) transform ss;
    let ss2 :=
      alter (updTransform (set_status (Some TRANSFORM_STATUS_CLEAN))
                          transform.2)
            transform.1 ss1 in
    _ ← (if persist then
           t' ← deref ss2 transform;
           sentence ← ss2 !! sentenceIndex t';
           getTransformOffset ss2 t'
         else Some 0%Z);
    Some (true, set_rulesApplied ss2 data)
  else Some (false, data).

(** ** The interactive editor *)

(** The closure state of the object returned by [pt.interactiveEditor]. *)
Record Editor := mkEditor {
  data : Data;
  ignoreNoReplacement : bool;
  flattenedTransforms : list TRef;
  transformStack : list TRef;
  transStackSize : nat;
  allAvailableTransforms : list TRef
}.

(** How a loop of the editor ends. *)
Inductive outcome (A : Type) :=
| Returned (a : A)
| Thrown
| OutOfFuel.
Arguments Returned {A} a.
Arguments Thrown {A}.
Arguments OutOfFuel {A}.

(** [[].concat.apply([], data.rulesApplied.map(s => s.transformations))] *)
Definition flatten (ss : list Sentence) : list TRef :=
  concat (imap (λ si s, (λ ti, (si, ti)) <$> seq 0 (length (transformations s)))
               ss).

(** A predicate of transformation objects, read through a reference. *)
Definition onRef (ss : option (list Sentence)) (p : Transform → bool)
    (r : TRef) : bool :=
  match ss ≫= (λ ss, deref ss r) with
  | Some t => p t
  | None => false
  end.

(** [updateAvailableCache()] *)
Definition updateAvailableCache (e : Editor) : Editor :=
  mkEditor (data e) (ignoreNoReplacement e) (flattenedTransforms e)
    (transformStack e) (transStackSize e)
    (List.filter
       (onRef (rulesApplied (data e))
          (λ transform,
             isAvailable transform
             && (negb (ignoreNoReplacement e) || hasReplacement transform)))
       (flattenedTransforms e)).

(** The guard that opens [pt.interactiveEditor]:
    [if (!data.hasMeta) { pt.setMetaData(data) }] *)
Definition ensureMetaData (data : Data) : option Data :=
  if negb (hasMeta data) then setMetaData data else Some data.

(** [pt.interactiveEditor(config)] *)
Definition interactiveEditor (config_data : Data)
    (config_ignoreNoReplacement : bool) : option Editor :=
  d ← ensureMetaData config_data;
  ss ← rulesApplied d;
  let flattened := flatten ss in
  let stack :=
    List.filter (onRef (Some ss) (λ transform, negb (isClean transform)))
                flattened in
  Some (updateAvailableCache
          (mkEditor d config_ignoreNoReplacement flattened stack
                    (length stack) [])).

(** [getNextNonSuggestion()] *)
Definition getNextNonSuggestion (e : Editor) : option TRef :=
  List.find
    (onRef (rulesApplied (data e))
       (λ transform, negb (isSuggestion transform)))
    (allAvailableTransforms e).

(** [editor.hasNextTransform(ignoreSuggestions)] *)
Definition hasNextTransform (ignoreSuggestions : bool) (e : Editor) : bool :=
  if ignoreSuggestions
  then bool_decide (getNextNonSuggestion e ≠ None)
  else bool_decide (0 < length (allAvailableTransforms e)).

(** [editor.getNextTransform(ignoreSuggestions)] *)
Definition getNextTransform (ignoreSuggestions : bool) (e : Editor)
  : option TRef :=
  if ignoreSuggestions then getNextNonSuggestion e
  else allAvailableTransforms e !! 0.

(** [editor.acceptCorrection(transform)] *)
Definition editor_acceptCorrection (e : Editor) (transform : TRef)
  : option (bool * Editor) :=
  '(ok, d) ← acceptCorrection (data e) transform;
  if (ok : bool) then
    let e1 :=
      updateAvailableCache
        (mkEditor d (ignoreNoReplacement e) (flattenedTransforms e)
           (transformStack e) (transStackSize e)
           (allAvailableTransforms e)) in
    Some (true,
          mkEditor (data e1) (ignoreNoReplacement e1)
            (flattenedTransforms e1) (transformStack e1 ++ [transform])
            (transStackSize e1 + 1) (allAvailableTransforms e1))
  else Some (false, e).

(** [editor.rejectCorrection(transform)] *)
Definition editor_rejectCorrection (e : Editor) (transform : TRef)
  : option (bool * Editor) :=
  '(ok, d) ← rejectCorrection (data e) transform;
  if (ok : bool) then
    let e1 :=
      updateAvailableCache
        (mkEditor d (ignoreNoReplacement e) (flattenedTransforms e)
           (transformStack e) (transStackSize e)
           (allAvailableTransforms e)) in
    Some (true,
          mkEditor (data e1) (ignoreNoReplacement e1)
            (flattenedTransforms e1) (transformStack e1 ++ [transform])
            (transStackSize e1 + 1) (allAvailableTransforms e1))
  else Some (false, e).

(** [editor.undoLastTransform()] *)
Definition undoLastTransform (persist : bool) (e : Editor)
  : option (bool * Editor) :=
  if bool_decide (0 < transStackSize e) then
    lastTransform ← transformStack e !! (transStackSize e - 1);
    '(ok, d) ← resetCorrection persist (data e) lastTransform;
    if (ok : bool) then
      let e1 :=
        updateAvailableCache
          (mkEditor d (ignoreNoReplacement e) (flattenedTransforms e)
             (transformStack e) (transStackSize e)
             (allAvailableTransforms e)) in
      Some (true,
            mkEditor (data e1) (ignoreNoReplacement e1)
              (flattenedTransforms e1) (removelast (transformStack e1))
              (transStackSize e1 - 1) (allAvailableTransforms e1))
    else Some (false, e)
  else Some (false, e).

(** [editor.applyAll(ignoreSuggestions)], with the arguments of the calls
    to [editor.acceptCorrection] it makes, in order. *)
Fixpoint applyAll (fuel : nat) (ignoreSuggestions : bool) (e : Editor)
  : outcome Editor * list TRef :=
  match fuel with
  | 0 => (OutOfFuel, [])
  | S fuel' =>
      if hasNextTransform ignoreSuggestions e then
        match getNextTransform ignoreSuggestions e with
        | None => (Thrown, [])
        | Some transform =>
            match editor_acceptCorrection e transform with
            | None => (Thrown, [transform])
            | Some (_, e') =>
                let '(o, calls) := applyAll fuel' ignoreSuggestions e' in
                (o, transform :: calls)
            end
        end
      else (Returned e, [])
  end.

(** The property names of the editor object: the keys of the object
    literal, then [applyAll], [undoAll] and [getTransformDocumentOffset]
    assigned after it. *)
Definition editor_properties : list string :=
  ["getGrammarScore"; "getData"; "getUsage"; "getTransform"; "getSentence";
   "getSentenceFromTransform"; "getAllAvailableTransforms";
   "hasNextTransform"; "getNextTransform"; "getOverlappingTransforms";
   "getCurrentText"; "getCurrentSentenceText"; "acceptCorrection";
   "rejectCorrection"; "undoLastTransform"; "canMakeTransform";
   "canUndoLastTransform"; "getLastTransform"; "getTransformOffset";
   "getSentenceOffset"; "getAffectedText"; "getAddedText";
   "getOriginalText"; "getAllClean"; "getNumSentences";
   "getNumTransformations"; "applyAll"; "undoAll";
   "getTransformDocumentOffset"]%string.

(** What an object literal inherits from [Object.prototype]. *)
Definition Object_prototype_properties : list string :=
  ["constructor"; "hasOwnProperty"; "isPrototypeOf"; "propertyIsEnumerable";
   "toLocaleString"; "toString"; "valueOf"; "__proto__";
   "__defineGetter__"; "__defineSetter__"; "__lookupGetter__";
   "__lookupSetter__"]%string.

(** Truthiness of the property read [editor.<name>]: every property above
    holds a function, anything else reads as [undefined]. *)
Definition editor_property_truthy (name : string) : bool :=
  bool_decide (name ∈ editor_properties ++ Object_prototype_properties).

(** [editor.undoAll()]: [while (editor.canUndoTransform)
    { editor.undoLastTransform() }] *)
Fixpoint undoAll (fuel : nat) (persist : bool) (e : Editor)
  : outcome Editor :=
  match fuel with
  | 0 => OutOfFuel
  | S fuel' =>
      if editor_property_truthy "canUndoTransform" then
        match undoLastTransform persist e with
        | None => Thrown
        | Some (_, e') => undoAll fuel' persist e'
        end
      else Returned e
  end.

(** ** Sessions: sequences of the public operations *)

Inductive Action :=
| Accept (transform : TRef)
| Reject (transform : TRef)
| Reset (transform : TRef).

Definition perform (persist : bool) (d : Data) (a : Action)
  : option (bool * Data) :=
  match a with
  | Accept r => acceptCorrection d r
  | Reject r => rejectCorrection d r
  | Reset r => resetCorrection persist d r
  end.

(** A sequence of operations each of which reports success. *)
Fixpoint session (persist : bool) (d : Data) (l : list Action)
  : option Data :=
  match l with
  | [] => Some d
  | a :: l' =>
      match perform persist d a with
      | Some (true, d') => session persist d' l'
      | _ => None
      end
  end.

(** The transformation an operation acts on, and the value the operation
    leaves in its [isAvailable]. *)
Definition target (a : Action) : TRef :=
  match a with Accept r | Reject r | Reset r => r end.

Definition flagAfter (a : Action) : bool :=
  match a with Reset _ => true | Accept _ | Reject _ => false end.

(** The operation refreshes the group of a transformation it splices. *)
Definition refreshesGroup (a : Action) (t : Transform) : bool :=
  match a with
  | Reject _ => false
  | Accept _ | Reset _ => hasReplacement t
  end.

Inductive EditorAction :=
| EAccept (transform : TRef)
| EReject (transform : TRef)
| EUndoLast.

Definition editor_perform (persist : bool) (e : Editor) (a : EditorAction)
  : option (bool * Editor) :=
  match a with
  | EAccept r => editor_acceptCorrection e r
  | EReject r => editor_rejectCorrection e r
  | EUndoLast => undoLastTransform persist e
  end.

(** Any sequence of calls to the editor, successful or refused. *)
Fixpoint editor_session (persist : bool) (e : Editor)
    (l : list EditorAction) : option Editor :=
  match l with
  | [] => Some e
  | a :: l' =>
      match editor_perform persist e a with
      | Some (_, e') => editor_session persist e' l'
      | None => None
      end
  end.

(** ** Notions used in the statements *)

(** The replay of [setMetaData]: starting from [originalSentence], every
    transformation in order through [updateActiveTokens], which splices the
    accepted ones that have a replacement. *)
Definition replayAccepted (sentence : Sentence) : option (list Token) :=
  activeTokens <$>
    forEachM updateActiveTokens (transformations sentence)
      (set_activeTokens (originalSentence sentence) sentence).

(** The cached flag of every transformation of the sentence agrees with
    [canMakeTransform]. *)
Definition flagsExact (sentence : Sentence) : bool :=
  forallb (λ t, Bool.eqb (isAvailable t) (canMakeTransform sentence t))
          (transformations sentence).

(** The two transformations have an affected token id in common. *)
Definition shareAffected (t1 t2 : Transform) : bool :=
  arraysOverlap (tokensAffected t1) (tokensAffected t2) compareTokens.

(** The test of [updateAvailableCache]. *)
Definition offered (ignoreNoReplacement : bool) (transform : Transform)
  : bool :=
  isAvailable transform
  && (negb ignoreNoReplacement || hasReplacement transform).

(** No call was made on a suggestion of the store. *)
Definition noSuggestion (ss : list Sentence) (calls : list TRef) : Prop :=
  Forall (λ r, ∃ t, deref ss r = Some t ∧ isSuggestion t = false) calls.

(** Number of elements of a list satisfying a test. *)
Definition count {A} (p : A → bool) (l : list A) : nat :=
  length (List.filter p l).

(** ** Results as received, and what the operations preserve *)

(** A transformation as the service delivers it: no status, no metadata. *)
Definition received (affected added : list Token)
    (replacement suggestion : bool) : Transform :=
  mkTransform affected added replacement suggestion None false None 0 0 0.

(** The inserted token ids of a replacing transformation are fresh: ranked
    strictly above every id the transformation removes. *)
Definition freshIdsb (ρ : nat → nat) (t : Transform) : bool :=
  negb (hasReplacement t)
  || forallb (λ a, forallb (λ b, ρ (token_id a) <? ρ (token_id b))
                           (tokensAdded t))
             (tokensAffected t).

(** A transformation as the service sends it: not grouped yet, affecting at
    least one token, inserting fresh ids. *)
Definition receivedOk (ρ : nat → nat) (t : Transform) : bool :=
  bool_decide (groupId t = None)
  && negb (bool_decide (tokensAffected t = []))
  && freshIdsb ρ t.

Definition wellReceived (ρ : nat → nat) (ss : list Sentence) : bool :=
  forallb (λ s, forallb (receivedOk ρ) (transformations s)) ss.

(** What the editor relies on once the metadata is set. *)
Definition wfTransform (K M : nat) (ρ : nat → nat) (si : nat) (s : Sentence)
    (t : Transform) : Prop :=
  sentenceIndex t = si
  ∧ (∃ g members, groupId t = Some g ∧ groups s !! g = Some members)
  ∧ tokensAffected t ≠ []
  ∧ (hasReplacement t = true →
     length (tokensAdded t) < K
     ∧ ∀ b, b ∈ tokensAdded t →
         ρ (token_id b) ≤ M
         ∧ ∀ a, a ∈ tokensAffected t → ρ (token_id a) < ρ (token_id b)).

Definition wfStore (K M : nat) (ρ : nat → nat) (ss : list Sentence) : Prop :=
  ∀ si s ti t,
    ss !! si = Some s → transformations s !! ti = Some t →
    wfTransform K M ρ si s t.

(** The editor's cache is up to date with a well-formed store. *)
Definition editorReady (K M : nat) (ρ : nat → nat) (e : Editor)
    (ss : list Sentence) : Prop :=
  rulesApplied (data e) = Some ss
  ∧ wfStore K M ρ ss
  ∧ allAvailableTransforms e
    = List.filter (onRef (Some ss) (offered (ignoreNoReplacement e)))
                  (flattenedTransforms e).

(** The properties of a transformation object that accept, reject and
    reset never write. *)
Definition sameStatic (x y : Transform) : Prop :=
  tokensAffected y = tokensAffected x
  ∧ tokensAdded y = tokensAdded x
  ∧ hasReplacement y = hasReplacement x
  ∧ isSuggestion y = isSuggestion x
  ∧ groupId y = groupId x
  ∧ sentenceIndex y = sentenceIndex x.

(** How the flag of a transformation may move when its group is refreshed
    against the stream [active] and the acted-on one is switched off. *)
Definition flagStep (active : list Token) (x y : Transform) : Prop :=
  sameStatic x y
  ∧ (isAvailable y = isAvailable x
     ∨ isAvailable y = tokensArePresent (tokensAffected x) active
     ∨ isAvailable y = false).

(** The content of a transformation, which [setMetaData] never writes. *)
Definition sameContent (x y : Transform) : Prop :=
  tokensAffected y = tokensAffected x
  ∧ tokensAdded y = tokensAdded x
  ∧ hasReplacement y = hasReplacement x
  ∧ isSuggestion y = isSuggestion x.

(** What [setMetaData] may do to a transformation object while group [gid]
    is being collected: the content and [sentenceIndex] stay, and [groupId]
    stays or goes from undefined to [gid]. *)
Definition groupStep (gid : nat) (x y : Transform) : Prop :=
  tokensAffected y = tokensAffected x
  ∧ tokensAdded y = tokensAdded x
  ∧ hasReplacement y = hasReplacement x
  ∧ isSuggestion y = isSuggestion x
  ∧ sentenceIndex y = sentenceIndex x
  ∧ (groupId y = groupId x ∨ (groupId x = None ∧ groupId y = Some gid)).

(** Transformations of a sentence without a group yet. *)
Definition ungrouped (s : Sentence) : nat :=
  count (λ t, bool_decide (groupId t = None)) (transformations s).

(** The state of the [forEach] over the transformations of a sentence once
    the positions below [k] are done. *)
Definition initDone (sentIndex : nat) (l0 : list Transform) (k : nat)
    (st : Sentence * nat * nat) : Prop :=
  Forall2 sameContent l0 (transformations st.1.1)
  ∧ (∀ j t, transformations st.1.1 !! j = Some t → j < k →
       sentenceIndex t = sentIndex ∧ groupId t ≠ None)
  ∧ (∀ j t g, transformations st.1.1 !! j = Some t → groupId t = Some g →
       is_Some (groups st.1.1 !! g)).

(** The two stores hold the same transformation objects as far as
    [isSuggestion] goes. *)
Definition sameSuggestions (ss ss' : list Sentence) : Prop :=
  Forall2 (λ s s', Forall2 (λ x y, isSuggestion y = isSuggestion x)
                           (transformations s) (transformations s'))
          ss ss'.

(** Every call was on a transformation of the result that is not a
    suggestion. *)
Definition calledNoSuggestion (d : Data) (calls : list TRef) : Prop :=
  Forall (λ r, onRef (rulesApplied d)
                 (λ transform, negb (isSuggestion transform)) r = true)
         calls.

(** ** A measure for [applyAll] *)

(** The weight of a token stream under a ranking [ρ] of token ids: a token
    of rank [r] weighs [K ^ (M - r)]. *)
Definition streamWeight (K M : nat) (ρ : nat → nat) (tokens : list Token)
  : nat :=
  sum_list_with (λ tok, K ^ (M - ρ (token_id tok))) tokens.

Definition totalWeight (K M : nat) (ρ : nat → nat) (ss : list Sentence)
  : nat :=
  sum_list_with (λ s, streamWeight K M ρ (activeTokens s)) ss.

(** Replacing transformations of a sentence that are flagged available or
    whose affected tokens are present. *)
Definition pendingReplacing (s : Sentence) : nat :=
  count (λ t, hasReplacement t && (isAvailable t || canMakeTransform s t))
        (transformations s).

(** Comment-only transformations of a sentence flagged available. *)
Definition pendingRemarks (s : Sentence) : nat :=
  count (λ t, negb (hasReplacement t) && isAvailable t) (transformations s).

Definition totalReplacing (ss : list Sentence) : nat :=
  sum_list_with pendingReplacing ss.

Definition totalRemarks (ss : list Sentence) : nat :=
  sum_list_with pendingRemarks ss.

(** The sentence got strictly smaller in the order that makes [applyAll]
    stop: lighter stream, or same stream and fewer pending replacing
    transformations, or, these not growing, fewer pending remarks. *)
Definition sentenceDecreases (K M : nat) (ρ : nat → nat) (s' s : Sentence)
  : Prop :=
  streamWeight K M ρ (activeTokens s') < streamWeight K M ρ (activeTokens s)
  ∨ (activeTokens s' = activeTokens s
     ∧ (pendingReplacing s' < pendingReplacing s
        ∨ (pendingReplacing s' ≤ pendingReplacing s
           ∧ pendingRemarks s' < pendingRemarks s))).

(** ** Sample results *)

(** "A B C." with three corrections: [A -> a], [C -> c] and
    [A B C -> X]; the third shares a token with each of the other two. *)
Definition tokA := mkToken 1 "A" " ".
Definition tokB := mkToken 2 "B" " ".
Definition tokC := mkToken 3 "C" ".".
Definition tokA' := mkToken 4 "a" " ".
Definition tokC' := mkToken 5 "c" ".".
Definition tokX := mkToken 6 "X" ".".

Definition bridged_sentence : Sentence :=
  mkSentence [tokA; tokB; tokC] []
    [received [tokA] [tokA'] true false;
     received [tokC] [tokC'] true false;
     received [tokA; tokB; tokC] [tokX] true false]
    ∅ 0.

Definition bridged_raw : Data := mkData (Some [bridged_sentence]) false.

(** The scenario of the documentation: "hzve be befor". *)
Definition hzve := mkToken 1 "hzve" " ".
Definition be := mkToken 2 "be" " ".
Definition befor := mkToken 3 "befor" "".
Definition have := mkToken 4 "have" " ".
Definition has := mkToken 5 "has" " ".
Definition been := mkToken 6 "been" " ".
Definition before := mkToken 7 "before" "".

Definition hzve_sentence : Sentence :=
  mkSentence [hzve; be; befor] []
    [received [hzve] [have] true false;
     received [have; be] [has; been] true false;
     received [befor] [before] true false]
    ∅ 0.

(** A second sentence with a comment-only remark and a suggestion. *)
Definition so := mkToken 1 "So" " ".
Definition it := mkToken 2 "it" " ".
Definition goes := mkToken 3 "goes" ".".
Definition thus := mkToken 4 "Thus" " ".

Definition remark_sentence : Sentence :=
  mkSentence [so; it; goes] []
    [received [so; it; goes] [] false false;
     received [so] [thus] true true]
    ∅ 0.

Definition sample_raw : Data :=
  mkData (Some [hzve_sentence; remark_sentence]) false.

(** The documentation sample once initialized, and after accepting its
    first correction. *)
Definition sample_d0 : Data :=
  Eval vm_compute in default sample_raw (setMetaData sample_raw).
Definition sample_d1 : Data :=
  Eval vm_compute in
    default sample_raw (session true sample_d0 [Accept (0, 0)]).

(** Two corrections that both replace token 1 by a token that keeps the
    id 1: ids of inserted tokens collide with existing ones. *)
Definition colliding_sentence : Sentence :=
  mkSentence [mkToken 1 "teh" " "] []
    [received [mkToken 1 "teh" " "] [mkToken 1 "the" " "] true false;
     received [mkToken 1 "teh" " "] [mkToken 1 "Teh" " "] true false]
    ∅ 0.

Definition colliding_raw : Data := mkData (Some [colliding_sentence]) false.

(** The states the colliding sample runs through under [applyAll]: after
    the initializer, then after one, two and three accepts. *)
Definition colliding_d0 : Data :=
  Eval vm_compute in default colliding_raw (setMetaData colliding_raw).
Definition colliding_d1 : Data :=
  Eval vm_compute in
    default colliding_raw (session true colliding_d0 [Accept (0, 0)]).
Definition colliding_d2 : Data :=
  Eval vm_compute in
    default colliding_raw (session true colliding_d1 [Accept (0, 1)]).
Definition colliding_d3 : Data :=
  Eval vm_compute in
    default colliding_raw (session true colliding_d2 [Accept (0, 0)]).

(** The editor around one of these states. *)
Definition colliding_editor (d : Data) (stack : list TRef) (size : nat)
    (cache : list TRef) : Editor :=
  mkEditor d false [(0, 0); (0, 1)] stack size cache.

(** ** Further accessors of the result *)

(** [pt.getOriginalSentenceText] *)
Definition getOriginalSentenceText (sentence : Sentence) : string :=
  tokensToString (originalSentence sentence).

(** [pt.getCurrentText(data)]:
    [data.rulesApplied.map(pt.getCurrentSentenceText).join("")] *)
Definition getCurrentText (data : Data) : option string :=
  ss ← rulesApplied data;
  Some (String.concat "" (map getCurrentSentenceText ss)).

(** [pt.getOriginalText(data)] *)
Definition getOriginalText (data : Data) : option string :=
  ss ← rulesApplied data;
  Some (String.concat "" (map getOriginalSentenceText ss)).

(** [pt.getOverlappingGroup(sentence, transform)]:
    [sentence.groups[transform.groupId]], [None] being [undefined]. *)
Definition getOverlappingGroup (sentence : Sentence) (transform : Transform)
  : option (list nat) :=
  g ← groupId transform; groups sentence !! g.

(** The [every] callback of [pt.affectsSameTokens]:
    [token.id == transform2.tokensAffected[index].id], which throws when
    the second array is shorter. *)
Fixpoint everySameId (tokens1 : list Token) (index : nat)
    (tokens2 : list Token) : option bool :=
  match tokens1 with
  | [] => Some true
  | token :: rest =>
      token2 ← tokens2 !! index;
      if token_id token =? token_id token2
      then everySameId rest (S index) tokens2
      else Some false
  end.

(** [pt.affectsSameTokens(transform1, transform2)] *)
Definition affectsSameTokens (transform1 transform2 : Transform)
  : option bool :=
  if (sentenceIndex transform1 =? sentenceIndex transform2)
     && (length (tokensAffected transform1)
         =? length (tokensAffected transform2))
  then everySameId (tokensAffected transform1) 0 (tokensAffected transform2)
  else Some false.

(** [filter] with a callback that may throw. *)
Fixpoint filterM {A} (p : A → option bool) (l : list A) : option (list A) :=
  match l with
  | [] => Some []
  | x :: l' =>
      p x ≫= λ b : bool,
      rest ← filterM p l';
      Some (if b then x :: rest else rest)
  end.

(** [editor.getOverlappingTransforms(transform)], as positions in the
    sentence of the transformation. *)
Definition getOverlappingTransforms (e : Editor) (transform : TRef)
  : option (list nat) :=
  ss ← rulesApplied (data e);
  t ← deref ss transform;
  sentence ← ss !! sentenceIndex t;
  overlappingTransforms ← getOverlappingGroup sentence t;
  filterM (λ i, u ← transformations sentence !! i; affectsSameTokens u t)
          overlappingTransforms.

(** [editor.canUndoLastTransform()] *)
Definition canUndoLastTransform (e : Editor) : option bool :=
  if bool_decide (0 < transStackSize e) then
    ss ← rulesApplied (data e);
    lastTransform ← transformStack e !! (transStackSize e - 1);
    t ← deref ss lastTransform;
    canUndoTransform (ss !! sentenceIndex t) t
  else Some false.


(** ** What an operation writes *)

(** The status an operation leaves in its transformation. *)
Definition statusAfter (a : Action) : Status :=
  match a with
  | Accept _ => TRANSFORM_STATUS_ACCEPTED
  | Reject _ => TRANSFORM_STATUS_REJECTED
  | Reset _ => TRANSFORM_STATUS_CLEAN
  end.

(** The run an operation cuts out of the stream of the sentence and the
    run it puts in: [makeTransform] swaps the affected tokens for the added
    ones, [undoTransform] the added tokens for the affected ones. *)
Definition spliceOut (a : Action) (t : Transform) : list Token :=
  match a with
  | Reset _ => tokensAdded t
  | Accept _ | Reject _ => tokensAffected t
  end.

Definition spliceIn (a : Action) (t : Transform) : list Token :=
  match a with
  | Reset _ => tokensAffected t
  | Accept _ | Reject _ => tokensAdded t
  end.

(** ** Sample editor states *)

(** The editor on the documentation sample, and after an accept, a
    refused reject and an undo. *)
Definition sample_e0 : Editor :=
  Eval vm_compute in
    default (mkEditor sample_d0 false [] [] 0 [])
            (interactiveEditor sample_raw false).

Definition sample_e1 : Editor :=
  Eval vm_compute in
    default sample_e0
      (editor_session true sample_e0
         [EAccept (0, 0); EReject (0, 0); EUndoLast]).

(** The sample editor after [applyAll(true)]. *)
Definition sample_e2 : Editor :=
  Eval vm_compute in
    match (applyAll 5 true sample_e0).1 with
    | Returned e => e
    | Thrown | OutOfFuel => sample_e0
    end.

(** ** What [setMetaData] writes *)

(** One turn of the replay of [setMetaData] on the token stream alone. *)
Definition replayStep (toks : list Token) (t : Transform)
  : option (list Token) :=
  if hasReplacement t && isAccepted t
  then replaceTokens toks (tokensAffected t) (tokensAdded t)
  else Some toks.

Definition replayTokens (l : list Transform) (toks : list Token)
  : option (list Token) :=
  forEachM replayStep l toks.

(** A transformation not yet visited by [setMetaData]: content and status
    as received. *)
Definition pendingAs (x y : Transform) : Prop :=
  tokensAffected y = tokensAffected x
  ∧ tokensAdded y = tokensAdded x
  ∧ hasReplacement y = hasReplacement x
  ∧ isSuggestion y = isSuggestion x
  ∧ status y = status x.

(** The transformation [setMetaData] makes of [x] at position [j] of
    sentence [k], with [c] transformations before it in the document: the
    content stays, a missing status becomes clean, the three indices are
    set. *)
Definition indexedAs (k j c : nat) (x y : Transform) : Prop :=
  tokensAffected y = tokensAffected x
  ∧ tokensAdded y = tokensAdded x
  ∧ hasReplacement y = hasReplacement x
  ∧ isSuggestion y = isSuggestion x
  ∧ status y = Some (default TRANSFORM_STATUS_CLEAN (status x))
  ∧ sentenceIndex y = k
  ∧ indexInSentence y = j
  ∧ transformIndex y = c.

(** The state of a sentence while [setMetaData] has visited its positions
    below [k]; [c0] transformations precede the sentence and [A] is its
    stream. *)
Definition visitedAs (sentIndex c0 k j : nat) (x y : Transform) : Prop :=
  if bool_decide (j < k) then indexedAs sentIndex j (c0 + j) x y
  else pendingAs x y.

Definition sentenceState (sentIndex c0 : nat) (l0 : list Transform)
    (o : list Token) (k : nat) (A : list Token) (s : Sentence) : Prop :=
  originalSentence s = o
  ∧ sentence_sentenceIndex s = sentIndex
  ∧ activeTokens s = A
  ∧ length (transformations s) = length l0
  ∧ ∀ j x, l0 !! j = Some x →
      ∃ y, transformations s !! j = Some y ∧ visitedAs sentIndex c0 k j x y.

(** A sentence once [setMetaData] is through with it. *)
Definition initializedAs (sentIndex c0 : nat) (s s' : Sentence) : Prop :=
  originalSentence s' = originalSentence s
  ∧ sentence_sentenceIndex s' = sentIndex
  ∧ replayTokens (transformations s) (originalSentence s)
    = Some (activeTokens s')
  ∧ length (transformations s') = length (transformations s)
  ∧ ∀ j x, transformations s !! j = Some x →
      ∃ y, transformations s' !! j = Some y
           ∧ indexedAs sentIndex j (c0 + j) x y.

(** Number of transformations in the sentences before index [k]. *)
Definition transformsBefore (ss : list Sentence) (k : nat) : nat :=
  sum_list_with (λ s, length (transformations s)) (take k ss).

(** The groups of a sentence list exactly the positions of the
    transformations that carry their id, each position once, and every
    group id in use has its group; group ids are below [bound]. *)
Definition groupsOk (bound : nat) (s : Sentence) : Prop :=
  (∀ g ms, groups s !! g = Some ms →
     g < bound ∧ NoDup ms
     ∧ ∀ j, j ∈ ms ↔ ∃ t, transformations s !! j = Some t
                          ∧ groupId t = Some g)
  ∧ (∀ j t g, transformations s !! j = Some t → groupId t = Some g →
       is_Some (groups s !! g)).

(** The positions below [k] have a group. *)
Definition groupedBelow (k : nat) (s : Sentence) : Prop :=
  ∀ j t, transformations s !! j = Some t → j < k → groupId t ≠ None.

(** ** Chains of overlaps *)

(** Position [j] is reached from position [start] through transformations
    of [l] each of which overlaps, by the ordered test of the grouping, a
    later one. *)
Inductive linked (l : list Transform) (start : nat) : nat → Prop :=
| linked_start : linked l start start
| linked_step (m j : nat) (tm tj : Transform) :
    linked l start m →
    l !! m = Some tm → l !! j = Some tj → m < j →
    transformsOverlap tm tj true = true →
    linked l start j.

(** The transformations of the sentence affect and add the tokens of the
    received ones. *)
Definition sameRuns (l0 : list Transform) (s : Sentence) : Prop :=
  ∀ j y, transformations s !! j = Some y →
    ∃ x, l0 !! j = Some x
         ∧ tokensAffected y = tokensAffected x
         ∧ tokensAdded y = tokensAdded x.

(** The transformations carrying the group id [gid] are reached from
    [start]. *)
Definition groupLinked (l0 : list Transform) (gid start : nat)
    (s : Sentence) : Prop :=
  ∀ j t, transformations s !! j = Some t → groupId t = Some gid →
    linked l0 start j.

(** What waits in the queue of the group search is reached from [start]
    and knows its own position. *)
Definition queueLinked (l0 : list Transform) (start : nat) (s : Sentence)
    (queue : list nat) : Prop :=
  ∀ q, q ∈ queue →
    linked l0 start q
    ∧ ∃ t, transformations s !! q = Some t ∧ indexInSentence t = q.

(** Every group has a member from which all its members are reached. *)
Definition groupsLinked (l0 : list Transform) (s : Sentence) : Prop :=
  ∀ g ms, groups s !! g = Some ms →
    ∃ start,
      (∃ t, transformations s !! start = Some t ∧ groupId t = Some g)
      ∧ groupLinked l0 g start s.

(** ** What no operation writes *)

(** Of a transformation, accept, reject and reset write the status and
    the flag only. *)
Definition statusAndFlagOnly (x y : Transform) : Prop :=
  y = set_status (status y) (set_isAvailable (isAvailable y) x).

(** Of a sentence they write the stream, and status and flag of its
    transformations. *)
Definition keepsStatic (s s' : Sentence) : Prop :=
  originalSentence s' = originalSentence s
  ∧ groups s' = groups s
  ∧ sentence_sentenceIndex s' = sentence_sentenceIndex s
  ∧ Forall2 statusAndFlagOnly (transformations s) (transformations s').

(** ** Results with fresh ids *)

(** Calls of [acceptCorrection], [rejectCorrection] and [resetCorrection]
    one after the other, successful or refused. *)
Fixpoint operations (persist : bool) (d : Data) (l : list Action)
  : option Data :=
  match l with
  | [] => Some d
  | a :: l' =>
      match perform persist d a with
      | Some (_, d') => operations persist d' l'
      | None => None
      end
  end.

(** The data-model invariant on ids, sentence by sentence: in the
    sentence at index [i] the ids a replacing transformation inserts are
    fresh, ranked by [ρ i] strictly above the ids it removes. *)
Fixpoint freshFrom (ρ : nat → nat → nat) (i : nat) (ss : list Sentence)
  : bool :=
  match ss with
  | [] => true
  | s :: rest =>
      forallb (freshIdsb (ρ i)) (transformations s)
      && freshFrom ρ (S i) rest
  end.

Definition freshInput (ρ : nat → nat → nat) (ss : list Sentence) : bool :=
  freshFrom ρ 0 ss.

(** What is left of it once the metadata is set: every transformation
    knows its sentence, and the inserted tokens of a replacing one are
    bounded in number and rank. *)
Definition rankedStore (K M : nat) (ρ : nat → nat → nat)
    (ss : list Sentence) : Prop :=
  ∀ si s ti t,
    ss !! si = Some s → transformations s !! ti = Some t →
    sentenceIndex t = si
    ∧ (hasReplacement t = true →
       length (tokensAdded t) < K
       ∧ ∀ b, b ∈ tokensAdded t →
           ρ si (token_id b) ≤ M
           ∧ ∀ a, a ∈ tokensAffected t →
               ρ si (token_id a) < ρ si (token_id b)).

(** The weight of the streams, each under the ranking of its sentence. *)
Fixpoint weightFrom (K M : nat) (ρ : nat → nat → nat) (i : nat)
    (ss : list Sentence) : nat :=
  match ss with
  | [] => 0
  | s :: rest =>
      streamWeight K M (ρ i) (activeTokens s) + weightFrom K M ρ (S i) rest
  end.

(** * Properties *)

(** ** Loops and counting *)

Lemma forEachM_seq_total {St} (P : nat → St → Prop)
    (f : St → nat → option St) (n a : nat) (s : St) :
  P a s →
  (∀ k s, a ≤ k < a + n → P k s → ∃ s', f s k = Some s' ∧ P (S k) s') →
  ∃ s', forEachM f (seq a n) s = Some s' ∧ P (a + n) s'.
Proof.
  revert a s. induction n as [|n IH]; intros a s HP Hstep; simpl.
  - exists s. by rewrite Nat.add_0_r.
  - destruct (Hstep a s) as (s1 & Hf & HP1); [lia|done|].
    rewrite Hf. simpl.
    destruct (IH (S a) s1 HP1) as (s' & Hs' & HP').
    { intros k s2 Hk. apply Hstep. lia. }
    exists s'. split; [done|]. by replace (a + S n) with (S a + n) by lia.
Qed.

Lemma forEachM_seq_inv {St} (P : nat → St → Prop)
    (f : St → nat → option St) (n a : nat) (s s' : St) :
  P a s →
  (∀ k s s', a ≤ k < a + n → P k s → f s k = Some s' → P (S k) s') →
  forEachM f (seq a n) s = Some s' →
  P (a + n) s'.
Proof.
  revert a s. induction n as [|n IH]; intros a s HP Hstep; simpl.
  - intros [= <-]. by rewrite Nat.add_0_r.
  - destruct (f s a) as [s1|] eqn:Hf; simpl; [|done].
    intros Hrest. replace (a + S n) with (S a + n) by lia.
    eapply IH; [|intros k s2 s3 Hk; apply Hstep; lia|done].
    eapply Hstep; [|done|done]. lia.
Qed.

Lemma count_le {A} (p p' : A → bool) (l l' : list A) :
  Forall2 (λ x y, p' y = true → p x = true) l l' →
  count p' l' ≤ count p l.
Proof.
  unfold count. induction 1 as [|x y l l' Hxy _ IH]; simpl; [done|].
  destruct (p' y) eqn:Hy; simpl.
  - rewrite Hxy by done. simpl. lia.
  - destruct (p x); simpl; lia.
Qed.

Lemma count_lt {A} (p p' : A → bool) (l l' : list A) (i : nat) (x y : A) :
  Forall2 (λ x y, p' y = true → p x = true) l l' →
  l !! i = Some x → l' !! i = Some y →
  p x = true → p' y = false →
  count p' l' < count p l.
Proof.
  intros HF. revert i. unfold count.
  induction HF as [|x0 y0 l l' Hxy HF IH]; intros i Hx Hy Hpx Hpy;
    [done|].
  destruct i as [|i]; simpl in *.
  - inversion Hx; inversion Hy; subst. rewrite Hpx, Hpy. simpl.
    apply Nat.lt_succ_r. by apply count_le.
  - specialize (IH i Hx Hy Hpx Hpy).
    destruct (p' y0) eqn:Hy0; simpl.
    + rewrite Hxy by done. simpl. lia.
    + destruct (p x0); simpl; lia.
Qed.

Lemma count_le_length {A} (p : A → bool) (l : list A) :
  count p l ≤ length l.
Proof.
  unfold count. induction l as [|x l IH]; simpl; [done|].
  destruct (p x); simpl; lia.
Qed.

Lemma Forall2_alter_r {A} (R : A → A → Prop) (f : A → A) (i : nat)
    (l l' : list A) :
  Forall2 R l l' →
  (∀ x y, l !! i = Some x → l' !! i = Some y → R x y → R x (f y)) →
  Forall2 R l (alter f i l').
Proof.
  intros HF. revert i. induction HF as [|x y l l' Hxy HF IH]; intros i Hf;
    [constructor|].
  destruct i as [|i]; simpl.
  - constructor; [by apply Hf|done].
  - constructor; [done|]. apply IH. intros x' y' ??. by apply Hf.
Qed.

Lemma Forall2_refl_list {A} (R : A → A → Prop) (l : list A) :
  (∀ x, R x x) → Forall2 R l l.
Proof. intros HR. induction l; constructor; auto. Qed.

Lemma Forall2_trans_list {A} (R : A → A → Prop) (l1 l2 l3 : list A) :
  (∀ x y z, R x y → R y z → R x z) →
  Forall2 R l1 l2 → Forall2 R l2 l3 → Forall2 R l1 l3.
Proof.
  intros HR H12. revert l3.
  induction H12 as [|x y l1 l2 Hxy _ IH]; intros l3 H23;
    inversion H23; subst; constructor; eauto.
Qed.

(** ** Token streams *)

Lemma findIndex_lookup {A} (p : A → bool) (l : list A) (i : nat) :
  findIndex p l = Z.of_nat i →
  ∃ x, l !! i = Some x ∧ p x = true.
Proof.
  revert i. induction l as [|x l IH]; intros i; simpl; [lia|].
  destruct (p x) eqn:Hp.
  - intros Hi. assert (i = 0) as -> by lia. eauto.
  - destruct (findIndex p l =? -1)%Z eqn:Hr; [lia|].
    apply Z.eqb_neq in Hr. intros Hi.
    destruct i as [|i]; [lia|].
    destruct (IH i) as (y & ? & ?); [lia|]. eauto.
Qed.

Lemma findIndex_ge {A} (p : A → bool) (l : list A) :
  (-1 ≤ findIndex p l)%Z.
Proof.
  induction l as [|x l IH]; simpl; [lia|].
  destruct (p x); [lia|]. destruct (findIndex p l =? -1)%Z; lia.
Qed.

Lemma findIndex_id_sym (t : Token) (l : list Token) :
  findIndex (λ a, token_id a =? token_id t) l
  = findIndex (λ a, token_id t =? token_id a) l.
Proof.
  induction l as [|a l IH]; simpl; [done|].
  by rewrite (Nat.eqb_sym (token_id a)), IH.
Qed.

(** What [everyPresent] has checked once a first token was found at [q]:
    the rest of the run sits right behind it. *)
Lemma everyPresent_from (allTokens rest : list Token) (q : nat) :
  everyPresent (Z.of_nat q) rest allTokens = true →
  token_id <$> take (length rest) (drop (S q) allTokens) = token_id <$> rest
  ∧ (∀ k tok, rest !! k = Some tok →
       findIndex (λ a, token_id tok =? token_id a) allTokens
       = Z.of_nat (S q + k)).
Proof.
  revert q. induction rest as [|tok rest IH]; intros q; simpl; [done|].
  set (ix := findIndex _ allTokens).
  destruct (negb (ix =? -1)%Z && ((Z.of_nat q =? -1)%Z || (ix =? Z.of_nat q + 1)%Z))
    eqn:Hc; [|done].
  intros Hrest. apply andb_true_iff in Hc as [Hne Hc].
  apply orb_true_iff in Hc as [Hc|Hc]; [apply Z.eqb_eq in Hc; lia|].
  apply Z.eqb_eq in Hc.
  assert (Hix : ix = Z.of_nat (S q)) by lia.
  rewrite Hix in Hrest.
  destruct (IH _ Hrest) as [Hids Hpos].
  destruct (findIndex_lookup _ _ _ Hix) as (x & Hx & Hid).
  apply Nat.eqb_eq in Hid.
  split.
  - rewrite (drop_S _ _ _ Hx), firstn_cons, !fmap_cons, Hids.
    by rewrite Hid.
  - intros [|k] tok'; simpl.
    + intros [= <-]. fold ix. rewrite Hix. f_equal. lia.
    + intros Hk. rewrite (Hpos _ _ Hk). f_equal. lia.
Qed.

(** A present, non-empty run: where it starts, where it ends, and that the
    stream carries the ids of the run between the two. *)
Lemma tokensArePresent_run (tokens allTokens : list Token)
    (first final : Token) :
  tokensArePresent tokens allTokens = true →
  head tokens = Some first → last tokens = Some final →
  ∃ p : nat,
    findIndex (λ a, token_id a =? token_id first) allTokens = Z.of_nat p
    ∧ findIndex (λ a, token_id a =? token_id final) allTokens
      = Z.of_nat (p + length tokens - 1)
    ∧ token_id <$> take (length tokens) (drop p allTokens)
      = token_id <$> tokens.
Proof.
  unfold tokensArePresent.
  destruct tokens as [|tok rest]; [done|]. simpl.
  intros Hc [= <-] Hlast.
  set (ix := findIndex (λ a, tok.(token_id) =? a.(token_id)) allTokens) in *.
  destruct (negb (ix =? -1)%Z) eqn:Hne; simpl in Hc; [|done].
  apply negb_true_iff, Z.eqb_neq in Hne.
  pose proof (findIndex_ge (λ a, tok.(token_id) =? a.(token_id)) allTokens).
  fold ix in H.
  assert (Hix : ix = Z.of_nat (Z.to_nat ix)) by lia.
  set (p := Z.to_nat ix) in *. rewrite Hix in Hc.
  destruct (everyPresent_from _ _ _ Hc) as [Hids Hpos].
  destruct (findIndex_lookup _ _ _ Hix) as (x & Hx & Hid).
  apply Nat.eqb_eq in Hid.
  exists p. split; [|split].
  - by rewrite findIndex_id_sym.
  - assert (Hf : findIndex (λ a, token_id final =? token_id a) allTokens
                 = Z.of_nat (p + S (length rest) - 1)).
    { destruct rest as [|r0 rest'] using rev_ind.
      - simpl in Hlast. inversion Hlast; subst. fold ix. rewrite Hix.
        f_equal. simpl. lia.
      - rewrite app_comm_cons, last_snoc in Hlast. inversion Hlast; subst.
        rewrite (Hpos (length rest') final).
        + rewrite length_app. simpl. f_equal. lia.
        + by rewrite lookup_app_r, Nat.sub_diag by lia. }
    by rewrite findIndex_id_sym.
  - rewrite (drop_S _ _ _ Hx), firstn_cons, !fmap_cons, Hids.
    by rewrite Hid.
Qed.

(** ** The weight of a stream drops at every effective splice *)

Lemma streamWeight_app K M ρ (l1 l2 : list Token) :
  streamWeight K M ρ (l1 ++ l2) = streamWeight K M ρ l1 + streamWeight K M ρ l2.
Proof. apply sum_list_with_app. Qed.

Lemma streamWeight_ids K M ρ (l1 l2 : list Token) :
  token_id <$> l1 = token_id <$> l2 →
  streamWeight K M ρ l1 = streamWeight K M ρ l2.
Proof.
  unfold streamWeight. revert l2.
  induction l1 as [|x l1 IH]; intros [|y l2]; simpl; try done.
  intros [= Hxy Hrest]. by rewrite Hxy, (IH l2).
Qed.

Lemma streamWeight_bound K M ρ (l : list Token) (c : nat) :
  (∀ b, b ∈ l → K ^ (M - ρ (token_id b)) ≤ c) →
  streamWeight K M ρ l ≤ length l * c.
Proof.
  unfold streamWeight. induction l as [|b l IH]; intros Hb; simpl; [lia|].
  specialize (Hb b (list_elem_of_here _ _)) as Hb0.
  specialize (IH (λ b' Hin, Hb b' (list_elem_of_further _ _ _ Hin))). lia.
Qed.

Lemma added_lighter K M ρ (affected added : list Token) :
  affected ≠ [] →
  length added < K →
  (∀ b, b ∈ added →
     ρ (token_id b) ≤ M
     ∧ ∀ a, a ∈ affected → ρ (token_id a) < ρ (token_id b)) →
  streamWeight K M ρ added < streamWeight K M ρ affected.
Proof.
  intros Hne HK Hrank.
  destruct affected as [|a0 affected]; [done|].
  assert (Hlow : K ^ (M - ρ (token_id a0)) ≤ streamWeight K M ρ (a0 :: affected)).
  { unfold streamWeight. simpl. lia. }
  eapply Nat.lt_le_trans; [|exact Hlow].
  destruct added as [|b0 added'] eqn:Hadded.
  { unfold streamWeight. simpl. apply Nat.neq_0_lt_0, Nat.pow_nonzero. lia. }
  rewrite <- Hadded in *.
  assert (Hb0 : b0 ∈ added) by (rewrite Hadded; left).
  destruct (Hrank _ Hb0) as [HM Ha]. specialize (Ha a0 (list_elem_of_here _ _)).
  assert (Hexp : M - ρ (token_id a0) = S (M - ρ (token_id a0) - 1)) by lia.
  eapply Nat.le_lt_trans.
  { apply (streamWeight_bound K M ρ added (K ^ (M - ρ (token_id a0) - 1))).
    intros b Hb. destruct (Hrank _ Hb) as [HMb Hab].
    specialize (Hab a0 (list_elem_of_here _ _)).
    apply Nat.pow_le_mono_r; lia. }
  rewrite Hexp at 2. rewrite Nat.pow_succ_r'.
  apply Nat.mul_lt_mono_pos_r; [|done].
  apply Nat.neq_0_lt_0, Nat.pow_nonzero. lia.
Qed.

(** A present, non-empty run is spliced out; the stream gets lighter. *)
Lemma replaceTokens_present K M ρ (tokens affected added : list Token) :
  tokensArePresent affected tokens = true →
  affected ≠ [] →
  length added < K →
  (∀ b, b ∈ added →
     ρ (token_id b) ≤ M
     ∧ ∀ a, a ∈ affected → ρ (token_id a) < ρ (token_id b)) →
  ∃ new,
    replaceTokens tokens affected added = Some new
    ∧ streamWeight K M ρ new < streamWeight K M ρ tokens.
Proof.
  intros Hpres Hne HK Hrank.
  destruct (head affected) as [first|] eqn:Hfirst;
    [|by destruct affected].
  destruct (last affected) as [final|] eqn:Hfinal;
    [|by apply last_None in Hfinal].
  destruct (tokensArePresent_run _ _ _ _ Hpres Hfirst Hfinal)
    as (p & Hstart & Hend & Hids).
  assert (Hlen : 0 < length affected) by (destruct affected; simpl; [done|lia]).
  unfold replaceTokens. rewrite Hpres. simpl. rewrite Hfirst. simpl.
  rewrite Hfinal. simpl. rewrite Hstart, Hend.
  replace (negb (Z.of_nat p =? -1)%Z) with true
    by (symmetry; apply negb_true_iff, Z.eqb_neq; lia).
  replace (negb (Z.of_nat (p + length affected - 1) =? -1)%Z) with true
    by (symmetry; apply negb_true_iff, Z.eqb_neq; lia).
  replace (Z.of_nat p <=? Z.of_nat (p + length affected - 1))%Z with true
    by (symmetry; apply Z.leb_le; lia).
  simpl. eexists. split; [done|].
  replace (Z.to_nat (Z.of_nat (p + length affected - 1) + 1))
    with (p + length affected) by lia.
  rewrite Nat2Z.id.
  assert (HW : streamWeight K M ρ tokens
               = streamWeight K M ρ (take p tokens)
                 + (streamWeight K M ρ (take (length affected) (drop p tokens))
                    + streamWeight K M ρ (drop (p + length affected) tokens))).
  { rewrite <- !streamWeight_app, <- drop_drop. by rewrite !take_drop. }
  rewrite HW, !streamWeight_app.
  rewrite (streamWeight_ids K M ρ _ _ Hids).
  pose proof (added_lighter K M ρ affected added Hne HK Hrank). lia.
Qed.

(** An absent run leaves the stream as it is (the defensive branch). *)
Lemma replaceTokens_absent (tokens affected added : list Token) :
  tokensArePresent affected tokens = false →
  replaceTokens tokens affected added = Some tokens.
Proof. unfold replaceTokens. by intros ->. Qed.

(** With something to replace, [replaceTokens] does not throw. *)
Lemma replaceTokens_total (tokens affected added : list Token) :
  affected ≠ [] → is_Some (replaceTokens tokens affected added).
Proof.
  intros Hne. unfold replaceTokens.
  destruct (negb _); [eauto|].
  destruct (head affected) eqn:Hh; [|by destruct affected].
  destruct (last affected) eqn:Hl; [|by apply last_None in Hl].
  simpl. destruct (_ && _); eauto.
Qed.

(** ** Updates of the store *)

Lemma alter_as_insert {A} (f : A → A) (i : nat) (l : list A) (x : A) :
  l !! i = Some x → alter f i l = <[i := f x]> l.
Proof.
  revert i. induction l as [|y l IH]; intros [|i]; simpl; try done.
  - by intros [= ->].
  - intros H. by rewrite <- (IH i H).
Qed.

Lemma sameStatic_refl x : sameStatic x x.
Proof. by repeat split. Qed.

Lemma sameStatic_trans x y z : sameStatic x y → sameStatic y z → sameStatic x z.
Proof.
  unfold sameStatic. intros (?&?&?&?&?&?) (?&?&?&?&?&?).
  repeat split; congruence.
Qed.

Lemma flagStep_refl active x : flagStep active x x.
Proof. split; [apply sameStatic_refl|by left]. Qed.

Lemma flagStep_static active x y : flagStep active x y → sameStatic x y.
Proof. by intros [? _]. Qed.

(** Refreshing availability moves flags along [flagStep] and touches
    nothing else. *)
Lemma setIsAvailable_frame (ms : list nat) (s : Sentence) :
  activeTokens (setIsAvailable ms s) = activeTokens s
  ∧ groups (setIsAvailable ms s) = groups s
  ∧ originalSentence (setIsAvailable ms s) = originalSentence s
  ∧ sentence_sentenceIndex (setIsAvailable ms s) = sentence_sentenceIndex s.
Proof.
  revert s. induction ms as [|m ms IH]; intros s; [done|].
  unfold setIsAvailable in *. simpl.
  destruct (IH (setAvailable s m)) as (-> & -> & -> & ->). done.
Qed.

Lemma setIsAvailable_flagStep (ms : list nat) (s : Sentence)
    (l0 : list Transform) :
  Forall2 (flagStep (activeTokens s)) l0 (transformations s) →
  Forall2 (flagStep (activeTokens s)) l0
          (transformations (setIsAvailable ms s)).
Proof.
  revert s. induction ms as [|m ms IH]; intros s HF; [done|].
  unfold setIsAvailable in *. simpl.
  change (activeTokens s) with (activeTokens (setAvailable s m)).
  apply IH. simpl. apply Forall2_alter_r; [done|].
  intros x y _ _ [Hst Hfl]. split.
  - destruct Hst as (?&?&?&?&?&?). by repeat split.
  - right; left. simpl. unfold canMakeTransform.
    destruct Hst as (-> & _). done.
Qed.

(** The refreshed members carry the exact flag. *)
Lemma setIsAvailable_exact (ms : list nat) (s : Sentence) (j : nat)
    (y : Transform) :
  j ∈ ms →
  transformations (setIsAvailable ms s) !! j = Some y →
  isAvailable y = canMakeTransform (setIsAvailable ms s) y.
Proof.
  assert (Hkeep : ∀ ms s y,
            transformations s !! j = Some y →
            isAvailable y = canMakeTransform s y →
            ∃ y', transformations (setIsAvailable ms s) !! j = Some y'
                  ∧ isAvailable y' = canMakeTransform (setIsAvailable ms s) y').
  { clear. induction ms as [|m ms IH]; intros s y Hy Hex; [eauto|].
    unfold setIsAvailable in *. simpl. 
    destruct (decide (m = j)) as [->|Hne].
    - eapply (IH _ (set_isAvailable (canMakeTransform s y) y)).
      + simpl. by rewrite list_lookup_alter_eq, Hy.
      + done.
    - eapply (IH _ y); [|done].
      simpl. by rewrite list_lookup_alter_ne. }
  revert s. induction ms as [|m ms IH]; intros s Hin Hy;
    [by apply elem_of_nil in Hin|].
  unfold setIsAvailable in *. simpl in *.
  destruct (decide (m = j)) as [->|Hne].
  - destruct (transformations s !! j) as [x|] eqn:Hx.
    + destruct (Hkeep ms (setAvailable s j)
                  (set_isAvailable (canMakeTransform s x) x))
        as (y' & Hy' & Hex).
      * simpl. by rewrite list_lookup_alter_eq, Hx.
      * done.
      * unfold setIsAvailable in Hy'. congruence.
    + exfalso.
      assert (Hlen : length (transformations
                (foldl setAvailable (setAvailable s j) ms))
              = length (transformations s)).
      { pose proof (setIsAvailable_flagStep ms (setAvailable s j)
                      (transformations (setAvailable s j))
                      (Forall2_refl_list _ _ (flagStep_refl _))) as HF.
        apply Forall2_length in HF. unfold setIsAvailable in HF.
        rewrite <- HF. simpl. by rewrite length_alter. }
      apply lookup_lt_Some in Hy. apply lookup_ge_None in Hx. lia.
  - apply IH; [|done]. apply elem_of_cons in Hin as [?|?]; [congruence|done].
Qed.

(** ** One accept, seen from the sentence *)

Lemma getTransformOffset_total (ss : list Sentence) (s : Sentence)
    (t : Transform) :
  ss !! sentenceIndex t = Some s →
  tokensAffected t ≠ [] →
  is_Some (getTransformOffset ss t).
Proof.
  intros Hs Hne. unfold getTransformOffset. rewrite Hs. simpl.
  destruct (canMakeTransform s t); [|eauto].
  unfold getTransformOffsetHelper.
  destruct (tokensAffected t); [done|]. simpl. eauto.
Qed.

Lemma set_activeTokens_same (s : Sentence) :
  set_activeTokens (activeTokens s) s = s.
Proof. by destruct s. Qed.

(** The store after a successful accept of the transformation at
    [(si, ti)]: only sentence [si] changed. *)
Lemma acceptCorrection_unfold (d : Data) (ss : list Sentence)
    (si ti : nat) (s : Sentence) (t : Transform) (g : nat)
    (members : list nat) :
  rulesApplied d = Some ss →
  ss !! si = Some s →
  transformations s !! ti = Some t →
  isAvailable t = true →
  sentenceIndex t = si →
  groupId t = Some g →
  groups s !! g = Some members →
  tokensAffected t ≠ [] →
  ∃ toks,
    (if hasReplacement t
     then replaceTokens (activeTokens s) (tokensAffected t) (tokensAdded t)
          = Some toks
     else toks = activeTokens s)
    ∧ acceptCorrection d (si, ti)
      = Some (true,
              set_rulesApplied
                (<[si :=
                    updTransform (set_status (Some TRANSFORM_STATUS_ACCEPTED)) ti
                      (updTransform (set_isAvailable false) ti
                         (setIsAvailable
                            (if hasReplacement t then members else [])
                            (set_activeTokens toks s)))]> ss)
                d).
Proof.
  intros Hss Hs Ht Hav Hsi Hg Hms Hne.
  assert (Hlt : si < length ss) by (by eapply lookup_lt_Some).
  unfold acceptCorrection. rewrite Hss. simpl.
  unfold deref at 1. simpl. rewrite Hs. simpl. rewrite Ht. simpl.
  rewrite Hav, Hsi, Hs. simpl.
  destruct (getTransformOffset_total ss s t) as [off ->]; [by rewrite Hsi|done|].
  simpl. unfold makeTransform. unfold deref. simpl. rewrite Hs. simpl.
  rewrite Ht. simpl.
  destruct (hasReplacement t) eqn:Hhr.
  - destruct (replaceTokens_total (activeTokens s) (tokensAffected t)
                (tokensAdded t) Hne) as [toks Htoks].
    exists toks. split; [done|].
    rewrite Htoks. simpl.
    unfold updateTokenGroup. rewrite list_lookup_insert_eq by done. simpl.
    rewrite Hg. simpl. rewrite Hms. simpl.
    rewrite list_insert_insert_eq.
    rewrite (alter_as_insert _ si (<[si:=_]> ss) _
               (list_lookup_insert_eq _ _ _ Hlt)).
    rewrite list_insert_insert_eq.
    rewrite (alter_as_insert _ si (<[si:=_]> ss) _
               (list_lookup_insert_eq _ _ _ Hlt)).
    by rewrite list_insert_insert_eq.
  - exists (activeTokens s). split; [done|]. simpl.
    rewrite set_activeTokens_same.
    rewrite (alter_as_insert _ si ss _ Hs).
    rewrite (alter_as_insert _ si (<[si:=_]> ss) _
               (list_lookup_insert_eq _ _ _ Hlt)).
    by rewrite list_insert_insert_eq.
Qed.

Lemma flagStep_off active x y :
  flagStep active x y → flagStep active x (set_isAvailable false y).
Proof.
  intros [(?&?&?&?&?&?) _]. split; [by repeat split|]. by right; right.
Qed.

Lemma flagStep_status active st x y :
  flagStep active x y → flagStep active x (set_status st y).
Proof. intros [(?&?&?&?&?&?) Hfl]. split; [by repeat split|done]. Qed.

(** The sentence after an accept keeps its frame and is smaller. *)
Lemma accepted_decreases K M ρ (s : Sentence) (ti : nat) (t : Transform)
    (ms : list nat) (toks : list Token) :
  transformations s !! ti = Some t →
  isAvailable t = true →
  (hasReplacement t = true → tokensAffected t ≠ []) →
  (hasReplacement t = true →
     length (tokensAdded t) < K
     ∧ ∀ b, b ∈ tokensAdded t →
         ρ (token_id b) ≤ M
         ∧ ∀ a, a ∈ tokensAffected t → ρ (token_id a) < ρ (token_id b)) →
  (if hasReplacement t
   then replaceTokens (activeTokens s) (tokensAffected t) (tokensAdded t)
        = Some toks
   else ms = [] ∧ toks = activeTokens s) →
  let s' :=
    updTransform (set_status (Some TRANSFORM_STATUS_ACCEPTED)) ti
      (updTransform (set_isAvailable false) ti
         (setIsAvailable ms (set_activeTokens toks s))) in
  groups s' = groups s
  ∧ Forall2 sameStatic (transformations s) (transformations s')
  ∧ sentenceDecreases K M ρ s' s.
Proof.
  intros Ht Hav Hne Hrank Htoks s'.
  set (s0 := set_activeTokens toks s).
  set (s1 := setIsAvailable ms s0).
  destruct (setIsAvailable_frame ms s0) as (Hact & Hgr & _ & _).
  fold s1 in Hact, Hgr.
  assert (HF1 : Forall2 (flagStep toks) (transformations s)
                        (transformations s1)).
  { apply (setIsAvailable_flagStep ms s0 (transformations s)).
    apply Forall2_refl_list, flagStep_refl. }
  assert (Hl' : transformations s'
                = alter (set_status (Some TRANSFORM_STATUS_ACCEPTED)) ti
                    (alter (set_isAvailable false) ti (transformations s1)))
    by done.
  assert (HF : Forall2 (flagStep toks) (transformations s)
                       (transformations s')).
  { rewrite Hl'. apply Forall2_alter_r; [apply Forall2_alter_r; [done|]|].
    - intros x y _ _. apply flagStep_off.
    - intros x y _ _. apply flagStep_status. }
  assert (Hact' : activeTokens s' = toks) by done.
  destruct (Forall2_lookup_l _ _ _ _ _ HF1 Ht) as (y1 & Hy1 & Hst1).
  assert (Hy : transformations s' !! ti
               = Some (set_status (Some TRANSFORM_STATUS_ACCEPTED)
                         (set_isAvailable false y1))).
  { by rewrite Hl', !list_lookup_alter_eq, Hy1. }
  split; [done|]. split.
  { eapply Forall2_impl; [exact HF|]. by intros x y [? _]. }
  unfold sentenceDecreases. rewrite Hact'.
  destruct (hasReplacement t) eqn:Hhr.
  - destruct (Hrank eq_refl) as [HK Hb].
    destruct (tokensArePresent (tokensAffected t) (activeTokens s)) eqn:Hp.
    + left.
      destruct (replaceTokens_present K M ρ _ _ _ Hp (Hne eq_refl) HK Hb)
        as (new & Hnew & Hlt). congruence.
    + right. rewrite (replaceTokens_absent _ _ _ Hp) in Htoks.
      assert (Htk : toks = activeTokens s) by congruence.
      split; [done|]. left.
      unfold pendingReplacing.
      eapply (count_lt _ _ _ _ ti); [|exact Ht|exact Hy|..].
      * eapply Forall2_impl; [exact HF|].
        intros x y [(Haff & _ & Hrep & _) Hfl].
        unfold canMakeTransform. rewrite Hact', Haff, Hrep, <- Htk.
        destruct (hasReplacement x); [|done]. simpl.
        destruct Hfl as [-> | [-> | ->]];
          destruct (isAvailable x), (tokensArePresent (tokensAffected x) toks);
          done.
      * by rewrite Hhr, Hav.
      * destruct Hst1 as [(Haff & _) _]. unfold canMakeTransform.
        rewrite Hact', Htk. simpl. rewrite Haff, Hp. by rewrite andb_false_r.
  - destruct Htoks as [Hms Htk]. right. split; [done|]. right.
    assert (HF0 : Forall2 (λ x y, sameStatic x y
                     ∧ (isAvailable y = isAvailable x ∨ isAvailable y = false))
                    (transformations s) (transformations s')).
    { rewrite Hl'. subst s1 s0. rewrite Hms, Htk, set_activeTokens_same.
      change (setIsAvailable [] s) with s.
      apply Forall2_alter_r; [apply Forall2_alter_r|].
      - apply Forall2_refl_list. intros x. split;
          [apply sameStatic_refl|by left].
      - intros x y _ _ [(?&?&?&?&?&?) _]. split; [by repeat split|by right].
      - intros x y _ _ [(?&?&?&?&?&?) ?]. split; [by repeat split|done]. }
    split.
    + unfold pendingReplacing. apply count_le.
      eapply Forall2_impl; [exact HF0|].
      intros x y [(Haff & _ & Hrep & _) Hfl].
      unfold canMakeTransform. rewrite Hact', Haff, Hrep, Htk.
      destruct (hasReplacement x); [|done]. simpl.
      destruct Hfl as [-> | ->]; [done|]. simpl.
      intros ->. by rewrite orb_true_r.
    + unfold pendingRemarks.
      eapply (count_lt _ _ _ _ ti); [|exact Ht|exact Hy|..].
      * eapply Forall2_impl; [exact HF0|].
        intros x y [(_ & _ & Hrep & _) Hfl]. rewrite Hrep.
        destruct Hfl as [-> | ->]; [done|]. by rewrite andb_false_r.
      * by rewrite Hhr, Hav.
      * simpl. by rewrite andb_false_r.
Qed.

(** ** What an operation leaves behind *)

Lemma refresh_block_inv (si : nat) (ss ss1 : list Sentence) (s : Sentence)
    (t : Transform) (from to : list Token) :
  ss !! si = Some s →
  (sentence ← ss !! si;
   toks ← replaceTokens (activeTokens sentence) from to;
   updateTokenGroup si t (<[si := set_activeTokens toks sentence]> ss))
  = Some ss1 →
  ∃ toks g ms,
    groupId t = Some g ∧ groups s !! g = Some ms
    ∧ ss1 = <[si := setIsAvailable ms (set_activeTokens toks s)]> ss.
Proof.
  intros Hs. rewrite Hs. simpl.
  destruct (replaceTokens _ _ _) as [toks|]; simpl; [|done].
  unfold updateTokenGroup.
  rewrite list_lookup_insert_eq by (by eapply lookup_lt_Some). simpl.
  destruct (groupId t) as [g|]; simpl; [|done].
  destruct (groups s !! g) as [ms|] eqn:Hms; simpl; [|done].
  intros [= <-]. exists toks, g, ms. by rewrite list_insert_insert_eq.
Qed.

(** What accept, reject and reset leave in the sentence of the
    transformation they act on: the acted-on object gets [flag], and when
    the group was refreshed its other members are exact. *)
Lemma acted_sentence (flag : bool) (st : option Status) (ti : nat)
    (ms : list nat) (s0 : Sentence) (t : Transform) :
  transformations s0 !! ti = Some t →
  let s' := updTransform (set_status st) ti
              (updTransform (set_isAvailable flag) ti
                 (setIsAvailable ms s0)) in
  (∃ t', transformations s' !! ti = Some t'
         ∧ isAvailable t' = flag ∧ status t' = st
         ∧ sameStatic t t')
  ∧ ∀ j y, j ∈ ms → j ≠ ti → transformations s' !! j = Some y →
      isAvailable y = canMakeTransform s' y.
Proof.
  intros Ht s'.
  pose proof (setIsAvailable_flagStep ms s0 (transformations s0)
                (Forall2_refl_list _ _ (flagStep_refl _))) as HF.
  destruct (Forall2_lookup_l _ _ _ _ _ HF Ht)
    as (y1 & Hy1 & (?&?&?&?&?&?) & _).
  assert (Hl' : transformations s'
                = alter (set_status st) ti
                    (alter (set_isAvailable flag) ti
                       (transformations (setIsAvailable ms s0)))) by done.
  split.
  - eexists. rewrite Hl', !list_lookup_alter_eq, Hy1. simpl.
    split; [done|]. split; [done|]. split; [done|]. by repeat split.
  - intros j y Hj Hne Hy.
    rewrite Hl', !list_lookup_alter_ne in Hy by done.
    apply (setIsAvailable_exact ms s0 j y Hj Hy).
Qed.

Lemma perform_inv (persist : bool) (a : Action) (d d' : Data)
    (ss : list Sentence) (si ti : nat) (s : Sentence) (t : Transform) :
  target a = (si, ti) →
  rulesApplied d = Some ss →
  ss !! si = Some s →
  transformations s !! ti = Some t →
  sentenceIndex t = si →
  perform persist d a = Some (true, d') →
  ∃ st ms toks,
    (refreshesGroup a t = true →
     ∃ g, groupId t = Some g ∧ groups s !! g = Some ms)
    ∧ rulesApplied d'
      = Some (<[si := updTransform (set_status st) ti
                        (updTransform (set_isAvailable (flagAfter a)) ti
                           (setIsAvailable ms (set_activeTokens toks s)))]>
                ss).
Proof.
  intros Hr Hss Hs Ht Hsi.
  assert (Hlt : si < length ss) by (by eapply lookup_lt_Some).
  assert (Hd : deref ss (si, ti) = Some t)
    by (unfold deref; simpl; by rewrite Hs).
  destruct a as [r|r|r]; simpl in Hr; subst r; simpl.
  - unfold acceptCorrection. rewrite Hss. simpl. rewrite Hd. simpl.
    destruct (isAvailable t); [|done]. rewrite Hsi, Hs. simpl.
    destruct (getTransformOffset ss t); simpl; [|done].
    unfold makeTransform. rewrite Hd. simpl.
    destruct (hasReplacement t) eqn:Hrep.
    + destruct (ss !! si ≫= _) as [ss1|] eqn:Hblock; simpl; [|done].
      destruct (refresh_block_inv _ _ _ _ _ _ _ Hs Hblock)
        as (toks & g & ms & Hg & Hms & ->).
      intros [= <-]. exists (Some TRANSFORM_STATUS_ACCEPTED), ms, toks.
      split; [eauto|]. simpl. f_equal.
      rewrite (alter_as_insert _ si (<[si:=_]> ss) _
                 (list_lookup_insert_eq _ _ _ Hlt)).
      rewrite list_insert_insert_eq.
      rewrite (alter_as_insert _ si (<[si:=_]> ss) _
                 (list_lookup_insert_eq _ _ _ Hlt)).
      by rewrite list_insert_insert_eq.
    + simpl. intros [= <-].
      exists (Some TRANSFORM_STATUS_ACCEPTED), [], (activeTokens s).
      rewrite set_activeTokens_same.
      split; [done|]. simpl. f_equal.
      rewrite (alter_as_insert _ si ss _ Hs).
      rewrite (alter_as_insert _ si (<[si:=_]> ss) _
                 (list_lookup_insert_eq _ _ _ Hlt)).
      by rewrite list_insert_insert_eq.
  - unfold rejectCorrection. rewrite Hss. simpl. rewrite Hd. simpl.
    destruct (isAvailable t); [|done]. rewrite Hsi, Hs. simpl.
    destruct (getTransformOffset ss t); simpl; [|done].
    intros [= <-].
    exists (Some TRANSFORM_STATUS_REJECTED), [], (activeTokens s).
    rewrite set_activeTokens_same.
    split; [done|]. simpl. f_equal.
    rewrite (alter_as_insert _ si ss _ Hs). f_equal.
    change (setIsAvailable [] s) with s.
    unfold updTransform, set_transformations. simpl.
    by rewrite list_alter_alter_eq.
  - unfold resetCorrection. rewrite Hss. simpl. rewrite Hd. simpl.
    destruct (canUndoTransform _ t) as [[|]|]; simpl; [|done|done].
    unfold undoTransform. rewrite Hd. simpl.
    destruct (hasReplacement t) eqn:Hrep.
    + rewrite Hsi.
      destruct (ss !! si ≫= _) as [ss1|] eqn:Hblock; simpl; [|done].
      destruct (refresh_block_inv _ _ _ _ _ _ _ Hs Hblock)
        as (toks & g & ms & Hg & Hms & ->).
      destruct (if persist then _ else _); simpl; [|done].
      intros [= <-]. exists (Some TRANSFORM_STATUS_CLEAN), ms, toks.
      split; [eauto|]. simpl. f_equal.
      rewrite (alter_as_insert _ si (<[si:=_]> ss) _
                 (list_lookup_insert_eq _ _ _ Hlt)).
      rewrite list_insert_insert_eq.
      rewrite (alter_as_insert _ si (<[si:=_]> ss) _
                 (list_lookup_insert_eq _ _ _ Hlt)).
      by rewrite list_insert_insert_eq.
    + simpl. destruct (if persist then _ else _); simpl; [|done].
      intros [= <-].
      exists (Some TRANSFORM_STATUS_CLEAN), [], (activeTokens s).
      rewrite set_activeTokens_same.
      split; [done|]. simpl. f_equal.
      rewrite (alter_as_insert _ si ss _ Hs).
      rewrite (alter_as_insert _ si (<[si:=_]> ss) _
                 (list_lookup_insert_eq _ _ _ Hlt)).
      by rewrite list_insert_insert_eq.
Qed.


(** ** The store across one accept *)

Lemma sum_list_with_insert {A} (f : A → nat) (l : list A) (i : nat) (x y : A) :
  l !! i = Some x →
  sum_list_with f (<[i := y]> l) + f x = sum_list_with f l + f y.
Proof.
  revert i. induction l as [|z l IH]; intros [|i]; simpl; try done.
  - intros [= ->]. lia.
  - intros H. specialize (IH i H). lia.
Qed.

Lemma wfStore_insert K M ρ (ss : list Sentence) (si : nat) (s s' : Sentence) :
  wfStore K M ρ ss →
  ss !! si = Some s →
  groups s' = groups s →
  Forall2 sameStatic (transformations s) (transformations s') →
  wfStore K M ρ (<[si := s']> ss).
Proof.
  intros Hwf Hs Hgr HF si' s'' ti t' Hs'' Ht'.
  destruct (decide (si = si')) as [<-|Hne].
  - rewrite list_lookup_insert_eq in Hs'' by (by eapply lookup_lt_Some).
    inversion Hs''; subst s''.
    destruct (Forall2_lookup_r _ _ _ _ _ HF Ht')
      as (t & Ht & Haff & Hadd & Hrep & _ & Hg & Hsi).
    destruct (Hwf si s ti t Hs Ht) as (H1 & (g & ms & H2 & H2') & H3 & H4).
    unfold wfTransform. rewrite Haff, Hadd, Hrep, Hg, Hsi, Hgr. eauto 10.
  - rewrite list_lookup_insert_ne in Hs'' by done. by eapply Hwf.
Qed.

Lemma deref_insert_static (ss : list Sentence) (si : nat) (s s' : Sentence)
    (r : TRef) (t' : Transform) :
  ss !! si = Some s →
  Forall2 sameStatic (transformations s) (transformations s') →
  deref (<[si := s']> ss) r = Some t' →
  ∃ t, deref ss r = Some t ∧ sameStatic t t'.
Proof.
  intros Hs HF. destruct r as [si' ti]. unfold deref. simpl.
  destruct (decide (si = si')) as [<-|Hne].
  - rewrite list_lookup_insert_eq by (by eapply lookup_lt_Some). simpl.
    intros Ht'. rewrite Hs. simpl.
    destruct (Forall2_lookup_r _ _ _ _ _ HF Ht') as (t & Ht & Hst). eauto.
  - rewrite list_lookup_insert_ne by done.
    intros Ht'. exists t'. split; [done|apply sameStatic_refl].
Qed.

Lemma noSuggestion_insert (ss : list Sentence) (si : nat) (s s' : Sentence)
    (calls : list TRef) :
  ss !! si = Some s →
  Forall2 sameStatic (transformations s) (transformations s') →
  noSuggestion (<[si := s']> ss) calls → noSuggestion ss calls.
Proof.
  intros Hs HF. unfold noSuggestion. intros Hall.
  eapply Forall_impl; [exact Hall|].
  intros r (t' & Ht' & Hsug).
  destruct (deref_insert_static _ _ _ _ _ _ Hs HF Ht')
    as (t & Ht & _ & _ & _ & Hsg & _).
  exists t. split; [done|congruence].
Qed.

Lemma onRef_true (ss : list Sentence) (p : Transform → bool) (r : TRef) :
  onRef (Some ss) p r = true → ∃ t, deref ss r = Some t ∧ p t = true.
Proof.
  unfold onRef. simpl. destruct (deref ss r) as [t|]; [eauto|done].
Qed.

(** ** [applyAll] stops *)

Lemma applyAll_skipping_stops K M ρ (a b c : nat) :
  ∀ e ss,
    editorReady K M ρ e ss →
    totalWeight K M ρ ss ≤ a →
    totalReplacing ss ≤ b →
    totalRemarks ss ≤ c →
    ∃ fuel e' calls,
      applyAll fuel true e = (Returned e', calls)
      ∧ noSuggestion ss calls.
Proof.
  revert b c.
  induction a as [a IHa] using lt_wf_ind. intros b.
  induction b as [b IHb] using lt_wf_ind. intros c.
  induction c as [c IHc] using lt_wf_ind.
  intros e ss (Hss & Hwf & Hcache) Ha Hb Hc.
  destruct (getNextNonSuggestion e) as [r|] eqn:Hnext; cycle 1.
  { exists 1, e, []. split; [|constructor].
    simpl. unfold hasNextTransform. rewrite Hnext.
    by rewrite bool_decide_eq_false_2 by (by intros []). }
  unfold getNextNonSuggestion in Hnext. rewrite Hss in Hnext.
  destruct (find_some _ _ Hnext) as [Hin Hns].
  rewrite Hcache in Hin. apply filter_In in Hin as [_ Hoff].
  destruct (onRef_true _ _ _ Hoff) as (t & Ht & Hoffered).
  destruct (onRef_true _ _ _ Hns) as (t0 & Ht0 & Hsug).
  assert (t0 = t) as -> by congruence.
  apply negb_true_iff in Hsug.
  apply andb_true_iff in Hoffered as [Hav _].
  destruct r as [si ti]. unfold deref in Ht. simpl in Ht.
  destruct (ss !! si) as [s|] eqn:Hs; simpl in Ht; [|done].
  destruct (Hwf si s ti t Hs Ht)
    as (Hsi & (g & members & Hg & Hms) & Hne & Hrank).
  destruct (acceptCorrection_unfold _ _ si ti s t g members
              Hss Hs Ht Hav Hsi Hg Hms Hne) as (toks & Htoks & Hacc).
  destruct (accepted_decreases K M ρ s ti t
              (if hasReplacement t then members else []) toks
              Ht Hav (λ _, Hne) Hrank) as (Hgr & HF & Hdec).
  { by destruct (hasReplacement t). }
  set (s' := updTransform _ ti (updTransform _ ti _)) in *.
  set (ss' := <[si := s']> ss) in *.
  set (d' := set_rulesApplied ss' (data e)) in *.
  set (e1 := mkEditor d' (ignoreNoReplacement e) (flattenedTransforms e)
               (transformStack e ++ [(si, ti)]) (transStackSize e + 1)
               (List.filter (onRef (Some ss')
                               (offered (ignoreNoReplacement e)))
                            (flattenedTransforms e))).
  assert (Hstep : editor_acceptCorrection e (si, ti) = Some (true, e1)).
  { unfold editor_acceptCorrection. rewrite Hacc. done. }
  assert (Hready : editorReady K M ρ e1 ss').
  { split; [done|]. split; [|done]. by eapply wfStore_insert. }
  pose proof (sum_list_with_insert
                (λ s, streamWeight K M ρ (activeTokens s)) ss si s s' Hs) as HA.
  pose proof (sum_list_with_insert pendingReplacing ss si s s' Hs) as HB.
  pose proof (sum_list_with_insert pendingRemarks ss si s s' Hs) as HC.
  cbv beta in HA.
  fold (totalWeight K M ρ ss) in HA. fold (totalReplacing ss) in HB.
  fold (totalRemarks ss) in HC.
  fold ss' in HA, HB, HC.
  fold (totalWeight K M ρ ss') in HA. fold (totalReplacing ss') in HB.
  fold (totalRemarks ss') in HC.
  assert (Hrec : ∃ fuel e' calls,
             applyAll fuel true e1 = (Returned e', calls)
             ∧ noSuggestion ss' calls).
  { destruct Hdec as [Hlt|[Hact [Hlt|[Hle Hlt]]]].
    - eapply (IHa (totalWeight K M ρ ss')); [lia|done|lia|done..].
    - rewrite Hact in HA.
      eapply (IHb (totalReplacing ss')); [lia|done|lia|done..].
    - rewrite Hact in HA.
      eapply (IHc (totalRemarks ss')); [lia|done|lia|lia|done]. }
  destruct Hrec as (fuel & e' & calls & Hrun & Hcalls).
  exists (S fuel), e', ((si, ti) :: calls). split.
  - simpl. unfold hasNextTransform, getNextTransform, getNextNonSuggestion.
    rewrite Hss, Hnext. rewrite bool_decide_eq_true_2 by done.
    rewrite Hstep, Hrun. done.
  - constructor.
    + exists t. split; [|done]. unfold deref. simpl. by rewrite Hs.
    + by eapply noSuggestion_insert.
Qed.

(** ** Operations keep the store well formed *)

Lemma acted_static (flag : bool) (st : option Status) (ti : nat)
    (ms : list nat) (toks : list Token) (s : Sentence) :
  let s' := updTransform (set_status st) ti
              (updTransform (set_isAvailable flag) ti
                 (setIsAvailable ms (set_activeTokens toks s))) in
  groups s' = groups s
  ∧ Forall2 sameStatic (transformations s) (transformations s').
Proof.
  intros s'.
  set (s0 := set_activeTokens toks s).
  destruct (setIsAvailable_frame ms s0) as (_ & Hgr & _ & _).
  pose proof (setIsAvailable_flagStep ms s0 (transformations s)
                (Forall2_refl_list _ _ (flagStep_refl _))) as HF.
  split; [done|].
  assert (Hl' : transformations s'
                = alter (set_status st) ti
                    (alter (set_isAvailable flag) ti
                       (transformations (setIsAvailable ms s0)))) by done.
  rewrite Hl'.
  apply Forall2_alter_r; [apply Forall2_alter_r|].
  - eapply Forall2_impl; [exact HF|]. by intros x y [? _].
  - intros x y _ _ (?&?&?&?&?&?). by repeat split.
  - intros x y _ _ (?&?&?&?&?&?). by repeat split.
Qed.

Lemma perform_false (persist : bool) (a : Action) (d d' : Data) :
  perform persist d a = Some (false, d') → d' = d.
Proof.
  destruct a as [r|r|r]; simpl.
  - unfold acceptCorrection.
    destruct (rulesApplied d) as [ss|]; simpl; [|done].
    destruct (deref ss r) as [t|]; simpl; [|done].
    destruct (isAvailable t); [|by intros [= <-]].
    destruct (ss !! sentenceIndex t); simpl; [|done].
    destruct (getTransformOffset ss t); simpl; [|done].
    destruct (makeTransform _ _ _); simpl; [|done]. done.
  - unfold rejectCorrection.
    destruct (rulesApplied d) as [ss|]; simpl; [|done].
    destruct (deref ss r) as [t|]; simpl; [|done].
    destruct (isAvailable t); [|by intros [= <-]].
    destruct (ss !! sentenceIndex t); simpl; [|done].
    destruct (getTransformOffset ss t); simpl; [|done]. done.
  - unfold resetCorrection.
    destruct (rulesApplied d) as [ss|]; simpl; [|done].
    destruct (deref ss r) as [t|]; simpl; [|done].
    destruct (canUndoTransform _ t) as [[|]|]; simpl;
      [|by intros [= <-]|done].
    destruct (undoTransform _ _ _); simpl; [|done].
    destruct (if persist then _ else _); simpl; done.
Qed.

Lemma perform_deref (persist : bool) (a : Action) (d : Data)
    (ss : list Sentence) (res : bool * Data) :
  rulesApplied d = Some ss →
  perform persist d a = Some res →
  is_Some (deref ss (target a)).
Proof.
  intros Hss.
  destruct a as [r|r|r]; simpl;
    unfold acceptCorrection, rejectCorrection, resetCorrection;
    rewrite Hss; simpl; destruct (deref ss r); simpl; eauto; done.
Qed.

Lemma perform_ready K M ρ (persist : bool) (a : Action) (d d' : Data)
    (ss : list Sentence) (b : bool) :
  wfStore K M ρ ss →
  rulesApplied d = Some ss →
  perform persist d a = Some (b, d') →
  ∃ ss', rulesApplied d' = Some ss' ∧ wfStore K M ρ ss'.
Proof.
  intros Hwf Hss Hrun. destruct b; cycle 1.
  { apply perform_false in Hrun as ->. eauto. }
  destruct (perform_deref _ _ _ _ _ Hss Hrun) as [t Ht].
  destruct (target a) as [si ti] eqn:Hr. unfold deref in Ht. simpl in Ht.
  destruct (ss !! si) as [s|] eqn:Hs; simpl in Ht; [|done].
  destruct (Hwf si s ti t Hs Ht) as (Hsi & _).
  destruct (perform_inv persist a d d' ss si ti s t Hr Hss Hs Ht Hsi Hrun)
    as (st & ms & toks & _ & Hd').
  eexists. split; [exact Hd'|].
  destruct (acted_static (flagAfter a) st ti ms toks s) as [Hgr HF].
  by eapply wfStore_insert.
Qed.

Lemma editor_perform_ready K M ρ (persist : bool) (a : EditorAction)
    (e e' : Editor) (ss : list Sentence) (b : bool) :
  editorReady K M ρ e ss →
  editor_perform persist e a = Some (b, e') →
  ∃ ss', editorReady K M ρ e' ss'.
Proof.
  intros (Hss & Hwf & Hcache).
  assert (Hsame : editorReady K M ρ e ss) by done.
  assert (Hupd : ∀ (act : Action) d1 stack size,
            perform persist (data e) act = Some (true, d1) →
            ∃ ss', editorReady K M ρ
                     (mkEditor d1 (ignoreNoReplacement e)
                        (flattenedTransforms e) stack size
                        (List.filter
                           (onRef (rulesApplied d1)
                              (λ transform,
                                 isAvailable transform
                                 && (negb (ignoreNoReplacement e)
                                     || hasReplacement transform)))
                           (flattenedTransforms e))) ss').
  { intros act d1 stack size Hrun.
    destruct (perform_ready K M ρ _ _ _ _ _ _ Hwf Hss Hrun)
      as (ss' & Hss' & Hwf').
    exists ss'. split; [done|]. split; [done|]. simpl. by rewrite Hss'. }
  destruct a as [r|r|]; simpl.
  - unfold editor_acceptCorrection.
    destruct (acceptCorrection (data e) r) as [[[|] d1]|] eqn:Hrun; simpl;
      [|intros [= _ <-]; eauto|done].
    intros [= _ <-]. apply (Hupd (Accept r)). exact Hrun.
  - unfold editor_rejectCorrection.
    destruct (rejectCorrection (data e) r) as [[[|] d1]|] eqn:Hrun; simpl;
      [|intros [= _ <-]; eauto|done].
    intros [= _ <-]. apply (Hupd (Reject r)). exact Hrun.
  - unfold undoLastTransform.
    destruct (bool_decide _); [|intros [= _ <-]; eauto].
    destruct (transformStack e !! _) as [r|]; simpl; [|done].
    destruct (resetCorrection persist (data e) r) as [[[|] d1]|] eqn:Hrun;
      simpl; [|intros [= _ <-]; eauto|done].
    intros [= _ <-]. apply (Hupd (Reset r)). exact Hrun.
Qed.

Lemma editor_session_ready K M ρ (persist : bool) (l : list EditorAction) :
  ∀ e e' ss,
    editorReady K M ρ e ss →
    editor_session persist e l = Some e' →
    ∃ ss', editorReady K M ρ e' ss'.
Proof.
  induction l as [|a l IH]; intros e e' ss Hready; simpl.
  - intros [= <-]. eauto.
  - destruct (editor_perform persist e a) as [[b e1]|] eqn:Hstep; [|done].
    destruct (editor_perform_ready K M ρ _ _ _ _ _ _ Hready Hstep)
      as [ss1 Hready1].
    by apply (IH e1 e' ss1).
Qed.

(** ** [applyAll(true)] never calls accept on a suggestion *)

Lemma sameSuggestions_refl (ss : list Sentence) : sameSuggestions ss ss.
Proof.
  apply Forall2_refl_list. intros s. by apply Forall2_refl_list.
Qed.

Lemma sameSuggestions_trans (ss1 ss2 ss3 : list Sentence) :
  sameSuggestions ss1 ss2 → sameSuggestions ss2 ss3 → sameSuggestions ss1 ss3.
Proof.
  apply Forall2_trans_list. intros s1 s2 s3.
  apply Forall2_trans_list. intros x y z. congruence.
Qed.

Lemma sameSuggestions_insert (ss : list Sentence) (i : nat) (s s' : Sentence) :
  ss !! i = Some s →
  Forall2 (λ x y, isSuggestion y = isSuggestion x)
          (transformations s) (transformations s') →
  sameSuggestions ss (<[i := s']> ss).
Proof.
  intros Hs HF. rewrite <- (alter_as_insert (λ _, s') i ss s Hs).
  apply Forall2_alter_r; [apply sameSuggestions_refl|].
  intros x y Hx _ _. by assert (x = s) as -> by congruence.
Qed.

Lemma sameSuggestions_alter (ss : list Sentence) (f : Transform → Transform)
    (i j : nat) :
  (∀ x, isSuggestion (f x) = isSuggestion x) →
  sameSuggestions ss (alter (updTransform f j) i ss).
Proof.
  intros Hf. apply Forall2_alter_r; [apply sameSuggestions_refl|].
  intros s s' _ _ HF. simpl.
  apply Forall2_alter_r; [done|]. intros x y _ _ Hxy. by rewrite Hf.
Qed.

Lemma makeTransform_suggestions (si : nat) (r : TRef) (ss ss' : list Sentence) :
  makeTransform si r ss = Some ss' → sameSuggestions ss ss'.
Proof.
  unfold makeTransform.
  destruct (deref ss r) as [t|]; simpl; [|done].
  destruct (hasReplacement t).
  - destruct (ss !! si ≫= _) as [ss1|] eqn:Hblock; simpl; [|done].
    assert (∃ s, ss !! si = Some s) as [s Hs].
    { destruct (ss !! si) as [s|] eqn:E; [eauto|done]. }
    destruct (refresh_block_inv _ _ _ _ _ _ _ Hs Hblock)
      as (toks & g & ms & _ & _ & ->).
    intros [= <-].
    eapply sameSuggestions_trans; [|by apply sameSuggestions_alter].
    apply (sameSuggestions_insert _ _ s); [done|].
    pose proof (setIsAvailable_flagStep ms (set_activeTokens toks s)
                  (transformations s)
                  (Forall2_refl_list _ _ (flagStep_refl _))) as HF.
    eapply Forall2_impl; [exact HF|]. by intros x y [(_&_&_&?&_) _].
  - simpl. intros [= <-]. by apply sameSuggestions_alter.
Qed.

Lemma acceptCorrection_suggestions (d d' : Data) (r : TRef) (b : bool)
    (ss : list Sentence) :
  rulesApplied d = Some ss →
  acceptCorrection d r = Some (b, d') →
  ∃ ss', rulesApplied d' = Some ss' ∧ sameSuggestions ss ss'.
Proof.
  intros Hss. unfold acceptCorrection. rewrite Hss. simpl.
  destruct (deref ss r) as [t|]; simpl; [|done].
  destruct (isAvailable t).
  2:{ intros [= <- <-]. exists ss. split; [done|apply sameSuggestions_refl]. }
  destruct (ss !! sentenceIndex t); simpl; [|done].
  destruct (getTransformOffset ss t); simpl; [|done].
  destruct (makeTransform _ _ _) as [ss1|] eqn:Hmake; simpl; [|done].
  intros [= <- <-]. eexists. split; [done|].
  eapply sameSuggestions_trans; [by eapply makeTransform_suggestions|].
  by apply sameSuggestions_alter.
Qed.

Lemma onRef_suggestions (ss ss' : list Sentence) (r : TRef) :
  sameSuggestions ss ss' →
  onRef (Some ss') (λ transform, negb (isSuggestion transform)) r = true →
  onRef (Some ss) (λ transform, negb (isSuggestion transform)) r = true.
Proof.
  intros HF. unfold onRef, deref. simpl.
  destruct (ss' !! r.1) as [s'|] eqn:Hs'; simpl; [|done].
  destruct (Forall2_lookup_r _ _ _ _ _ HF Hs') as (s & -> & HFs). simpl.
  destruct (transformations s' !! r.2) as [y|] eqn:Hy; [|done].
  destruct (Forall2_lookup_r _ _ _ _ _ HFs Hy) as (x & -> & <-). done.
Qed.

Lemma applyAll_calls (fuel : nat) :
  ∀ e, calledNoSuggestion (data e) (applyAll fuel true e).2.
Proof.
  induction fuel as [|fuel IH]; intros e; simpl; [constructor|].
  unfold hasNextTransform, getNextTransform.
  destruct (getNextNonSuggestion e) as [r|] eqn:Hnext.
  2:{ rewrite bool_decide_eq_false_2 by (by intros []). constructor. }
  rewrite bool_decide_eq_true_2 by done.
  unfold getNextNonSuggestion in Hnext.
  destruct (find_some _ _ Hnext) as [_ Hns].
  unfold editor_acceptCorrection.
  destruct (acceptCorrection (data e) r) as [[b d']|] eqn:Hacc; simpl.
  2:{ by repeat constructor. }
  assert (Hrest : ∀ e1, data e1 = d' ∨ data e1 = data e →
            calledNoSuggestion (data e) (applyAll fuel true e1).2).
  { intros e1 Hd1. specialize (IH e1).
    destruct Hd1 as [Hd1|Hd1]; rewrite Hd1 in IH; [|done].
    destruct (rulesApplied (data e)) as [ss|] eqn:Hss; [|done].
    destruct (acceptCorrection_suggestions _ _ _ _ _ Hss Hacc)
      as (ss' & Hss' & Hsame).
    unfold calledNoSuggestion in *. rewrite Hss' in IH. rewrite Hss.
    eapply Forall_impl; [exact IH|].
    intros r0. by apply onRef_suggestions. }
  destruct b.
  - match goal with
    | |- context [applyAll fuel true ?e1] =>
        specialize (Hrest e1 (or_introl eq_refl));
        destruct (applyAll fuel true e1) as [o calls]
    end.
    simpl in *. constructor; [exact Hns|exact Hrest].
  - specialize (Hrest e (or_intror eq_refl)).
    destruct (applyAll fuel true e) as [o calls]. simpl in *.
    constructor; [exact Hns|exact Hrest].
Qed.

(** ** The group search of [setMetaData] *)

Lemma groupStep_refl gid x : groupStep gid x x.
Proof. unfold groupStep. repeat split; auto. Qed.

Lemma groupStep_trans gid x y z :
  groupStep gid x y → groupStep gid y z → groupStep gid x z.
Proof.
  unfold groupStep. intros (?&?&?&?&?&Hg1) (?&?&?&?&?&Hg2).
  repeat split; try congruence.
  destruct Hg1 as [Hg1|[Hg1 Hg1']], Hg2 as [Hg2|[Hg2 Hg2']];
    [left|right|right|]; try (split; congruence); try congruence.
Qed.

(** The forward scan: only [indexInSentence] is written; what joins the
    queue are positions of the sentence. *)
Lemma scan_spec (nextInGroup : Transform) (gid n start : nat)
    (s : Sentence) (queue : list nat) :
  length (transformations s) = n →
  ∃ s' extra,
    forEachM (scanStep nextInGroup) (seq start (n - start)) (s, queue)
    = Some (s', queue ++ extra)
    ∧ Forall2 (groupStep gid) (transformations s) (transformations s')
    ∧ Forall2 (λ x y, groupId y = groupId x)
              (transformations s) (transformations s')
    ∧ groups s' = groups s
    ∧ Forall (λ j, j < n) extra
    ∧ length extra ≤ n - start.
Proof.
  intros Hn.
  destruct (forEachM_seq_total
    (λ k (st : Sentence * list nat),
       Forall2 (groupStep gid) (transformations s) (transformations st.1)
       ∧ Forall2 (λ x y, groupId y = groupId x)
                 (transformations s) (transformations st.1)
       ∧ groups st.1 = groups s
       ∧ ∃ extra, st.2 = queue ++ extra ∧ Forall (λ j, j < n) extra
                  ∧ length extra ≤ k - start)
    (scanStep nextInGroup) (n - start) start (s, queue))
    as ([s' q'] & Hrun & HF & HG & Hgr & extra & Hq & Hex & Hlen).
  - simpl. split; [apply Forall2_refl_list, groupStep_refl|].
    split; [by apply Forall2_refl_list|]. split; [done|].
    exists []. rewrite app_nil_r. repeat split; [constructor|simpl; lia].
  - intros k [s1 q1] Hk (HF & HG & Hgr & extra & Hq & Hex & Hlen).
    simpl in *.
    assert (Hlen1 : length (transformations s1) = n)
      by (by rewrite <- (Forall2_length _ _ _ HF)).
    destruct (lookup_lt_is_Some_2 (transformations s1) k) as [x Hx]; [lia|].
    assert (HF' : Forall2 (groupStep gid) (transformations s)
                    (alter (set_indexInSentence k) k (transformations s1))).
    { apply Forall2_alter_r; [done|].
      intros x0 y0 _ _ (?&?&?&?&?&?). by repeat split. }
    assert (HG' : Forall2 (λ x y, groupId y = groupId x) (transformations s)
                    (alter (set_indexInSentence k) k (transformations s1))).
    { apply Forall2_alter_r; [done|]. by intros x0 y0 _ _ ?. }
    unfold scanStep. rewrite Hx. simpl.
    destruct (_ && _).
    + eexists. split; [done|]. simpl. split; [done|]. split; [done|].
      split; [done|]. exists (extra ++ [k]). rewrite Hq, app_assoc.
      split; [done|]. split.
      * apply Forall_app. split; [done|]. constructor; [lia|constructor].
      * rewrite length_app. simpl. lia.
    + eexists. split; [done|]. simpl. split; [done|]. split; [done|].
      split; [done|]. exists extra. split; [done|]. split; [done|lia].
  - simpl in *. subst q'. exists s', extra.
    replace (start + (n - start) - start) with (n - start) in Hlen by lia.
    done.
Qed.

Lemma groupSearch_spec (gid n : nat) (fuel : nat) :
  ∀ (queue : list nat) (s : Sentence),
    length (transformations s) = n →
    Forall (λ j, j < n) queue →
    length queue + n * ungrouped s ≤ fuel →
    is_Some (groups s !! gid) →
    ∃ s',
      groupSearch fuel gid n queue s = Some s'
      ∧ Forall2 (groupStep gid) (transformations s) (transformations s')
      ∧ (∀ g, is_Some (groups s !! g) → is_Some (groups s' !! g))
      ∧ activeTokens s' = activeTokens s
      ∧ (∀ j, j ∈ queue →
           ∃ y, transformations s' !! j = Some y ∧ groupId y ≠ None).
Proof.
  induction fuel as [|fuel IH]; intros queue s Hn Hq Hfuel Hgid.
  { destruct queue; [|simpl in Hfuel; lia].
    exists s. simpl. split; [done|].
    split; [apply Forall2_refl_list, groupStep_refl|].
    split; [done|]. split; [done|]. intros j Hj. by apply elem_of_nil in Hj. }
  destruct queue as [|next queue].
  { exists s. simpl. split; [done|].
    split; [apply Forall2_refl_list, groupStep_refl|].
    split; [done|]. split; [done|]. intros j Hj. by apply elem_of_nil in Hj. }
  apply Forall_cons in Hq as [Hnext Hq]. simpl in Hfuel.
  destruct (lookup_lt_is_Some_2 (transformations s) next) as [x Hx]; [lia|].
  simpl. rewrite Hx. simpl.
  destruct (groupId x) as [g0|] eqn:Hgx.
  - destruct (IH queue s Hn Hq) as (s' & Hrun & HF & Hdom & Hact & Hgrouped);
      [lia|done|].
    exists s'. split; [done|]. split; [done|]. split; [done|].
    split; [done|].
    intros j Hj. apply elem_of_cons in Hj as [->|Hj]; [|by apply Hgrouped].
    destruct (Forall2_lookup_l _ _ _ _ _ HF Hx) as (y & Hy & Hxy).
    exists y. split; [done|].
    destruct Hxy as (_&_&_&_&_&[Hg|[Hg _]]); congruence.
  - set (s1 := set_groups (alter (λ members, members ++ [next]) gid (groups s))
                 (updTransform (set_groupId (Some gid)) next s)).
    assert (HF1 : Forall2 (groupStep gid) (transformations s)
                          (transformations s1)).
    { simpl. apply Forall2_alter_r;
        [apply Forall2_refl_list, groupStep_refl|].
      intros x0 y0 Hx0 Hy0 _. assert (x0 = x) as -> by congruence.
      assert (y0 = x) as -> by congruence.
      unfold groupStep. simpl. repeat split; auto. }
    assert (Hn1 : length (transformations s1) = n)
      by (by rewrite <- (Forall2_length _ _ _ HF1)).
    assert (Hu1 : ungrouped s1 < ungrouped s).
    { unfold ungrouped.
      eapply (count_lt _ _ _ _ next x (set_groupId (Some gid) x)).
      - eapply Forall2_impl; [exact HF1|].
        intros x0 y0 (_&_&_&_&_&[Hg|[Hg Hg']]); rewrite ?Hg, ?Hg';
          [done|by rewrite bool_decide_eq_false_2].
      - done.
      - simpl. by rewrite list_lookup_alter_eq, Hx.
      - by rewrite bool_decide_eq_true_2.
      - by rewrite bool_decide_eq_false_2. }
    destruct (scan_spec (set_groupId (Some gid) x) gid n
                (indexInSentence x + 1) s1 queue Hn1)
      as (s2 & extra & Hscan & HF2 & HG2 & Hgr2 & Hextra & Hlen).
    fold s1. rewrite Hscan. simpl.
    assert (Hn2 : length (transformations s2) = n)
      by (by rewrite <- (Forall2_length _ _ _ HF2)).
    assert (Hu2 : ungrouped s2 ≤ ungrouped s1).
    { unfold ungrouped. apply count_le.
      eapply Forall2_impl; [exact HG2|]. by intros x0 y0 ->. }
    assert (Hdom1 : ∀ g, is_Some (groups s !! g) → is_Some (groups s2 !! g)).
    { intros g Hg. rewrite Hgr2. simpl. rewrite lookup_alter.
      case_decide; [subst; by apply fmap_is_Some|done]. }
    destruct (IH (queue ++ extra) s2 Hn2) as
      (s' & Hrun & HF & Hdom & Hact & Hgrouped).
    { by apply Forall_app. }
    { rewrite length_app. nia. }
    { by apply Hdom1. }
    exists s'. split; [done|]. split.
    { eapply Forall2_trans_list; [apply groupStep_trans|exact HF1|].
      eapply Forall2_trans_list; [apply groupStep_trans|exact HF2|done]. }
    split; [by intros g Hg; apply Hdom, Hdom1|].
    split.
    { rewrite Hact.
      assert (Ha2 : ∀ k s0 q0 s3 q3,
                forEachM (scanStep (set_groupId (Some gid) x))
                  k (s0, q0) = Some (s3, q3) →
                activeTokens s3 = activeTokens s0).
      { clear. induction k as [|i k IHk]; intros s0 q0 s3 q3; simpl.
        - by intros [= <- _].
        - unfold scanStep at 1.
          destruct (transformations s0 !! i); simpl; [|done].
          destruct (_ && _); intros Hr; by rewrite (IHk _ _ _ _ Hr). }
      by rewrite (Ha2 _ _ _ _ _ Hscan). }
    intros j Hj. apply elem_of_cons in Hj as [->|Hj].
    + assert (Hy1 : transformations s1 !! next
                    = Some (set_groupId (Some gid) x))
        by (simpl; by rewrite list_lookup_alter_eq, Hx).
      destruct (Forall2_lookup_l _ _ _ _ _ HF2 Hy1) as (y2 & Hy2 & H12).
      destruct (Forall2_lookup_l _ _ _ _ _ HF Hy2) as (y & Hy & H2y).
      exists y. split; [done|].
      destruct H12 as (_&_&_&_&_&[Hg|[Hg _]]); [|done].
      destruct H2y as (_&_&_&_&_&[Hg'|[Hg' _]]); simpl in *; congruence.
    + apply Hgrouped. apply elem_of_app. by left.
Qed.

(** ** [setMetaData] leaves every flag exact *)

Lemma scan_length (nextInGroup : Transform) (l : list nat) :
  ∀ s q s' q',
    forEachM (scanStep nextInGroup) l (s, q) = Some (s', q') →
    length (transformations s') = length (transformations s).
Proof.
  induction l as [|i l IH]; intros s q s' q'; simpl.
  - by intros [= <- _].
  - unfold scanStep at 1.
    destruct (transformations s !! i); simpl; [|done].
    destruct (_ && _); intros Hr; rewrite (IH _ _ _ _ Hr); simpl;
      by rewrite length_alter.
Qed.

Lemma groupSearch_length (gid n fuel : nat) :
  ∀ queue s s',
    groupSearch fuel gid n queue s = Some s' →
    length (transformations s') = length (transformations s).
Proof.
  induction fuel as [|fuel IH]; intros [|next queue] s s'; simpl;
    try done; try by intros [= <-].
  destruct (transformations s !! next) as [x|]; simpl; [|done].
  destruct (groupId x).
  - apply IH.
  - destruct (forEachM _ _ _) as [[s2 q2]|] eqn:Hscan; simpl; [|done].
    intros Hr. rewrite (IH _ _ _ Hr).
    rewrite (scan_length _ _ _ _ _ _ Hscan). simpl. by rewrite length_alter.
Qed.

Lemma updateActiveTokens_frame (s s' : Sentence) (t : Transform) :
  updateActiveTokens s t = Some s' →
  transformations s' = transformations s ∧ groups s' = groups s.
Proof.
  unfold updateActiveTokens. destruct (_ && _); [|by intros [= <-]].
  destruct (replaceTokens _ _ _); simpl; [|done]. by intros [= <-].
Qed.

Lemma initTransform_length (sentIndex n : nat) (st st' : Sentence * nat * nat)
    (k : nat) :
  initTransform sentIndex n st k = Some st' →
  length (transformations st'.1.1) = length (transformations st.1.1).
Proof.
  destruct st as [[s gc] c]. unfold initTransform.
  set (s1 := updTransform _ k s).
  assert (Hl1 : length (transformations s1) = length (transformations s))
    by (simpl; by rewrite length_alter).
  destruct (transformations s1 !! k) as [t|]; cbn -[groupSearch]; [|done].
  destruct (updateActiveTokens s1 t) as [s2|] eqn:Hs2; cbn -[groupSearch];
    [|done].
  destruct (updateActiveTokens_frame _ _ _ Hs2) as [Hl2 _].
  destruct (groupId t).
  - intros [= <-]. simpl. by rewrite Hl2.
  - destruct (groupSearch _ _ _ _ _) as [s4|] eqn:Hs4; cbn -[groupSearch];
      [|done].
    intros [= <-]. simpl. rewrite (groupSearch_length _ _ _ _ _ _ Hs4).
    simpl. by rewrite Hl2.
Qed.

Lemma setIsAvailable_all_exact (s : Sentence) :
  flagsExact (setIsAvailable (seq 0 (length (transformations s))) s) = true.
Proof.
  set (s' := setIsAvailable _ s).
  assert (Hlen : length (transformations s') = length (transformations s)).
  { pose proof (setIsAvailable_flagStep (seq 0 (length (transformations s)))
                  s (transformations s)
                  (Forall2_refl_list _ _ (flagStep_refl _))) as HF.
    symmetry. exact (Forall2_length _ _ _ HF). }
  unfold flagsExact. apply forallb_forall. intros y Hy.
  apply list_elem_of_In, list_elem_of_lookup in Hy as [j Hj].
  rewrite (setIsAvailable_exact (seq 0 (length (transformations s))) s j y);
    [by destruct (canMakeTransform _ _)| |done].
  apply elem_of_seq. apply lookup_lt_Some in Hj. lia.
Qed.

Lemma initSentence_flagsExact (sentIndex c : nat) (s s' : Sentence) (c' : nat) :
  initSentence sentIndex c s = Some (s', c') → flagsExact s' = true.
Proof.
  unfold initSentence. simpl.
  set (n := length (transformations s)).
  set (s0 := set_groups ∅ _).
  destruct (forEachM _ _ _) as [[[s1 gc] c1]|] eqn:Hloop; simpl; [|done].
  intros [= <- _].
  assert (Hlen : length (transformations s1) = n).
  { eapply (forEachM_seq_inv
              (λ _ (st : Sentence * nat * nat),
                 length (transformations st.1.1) = n)) in Hloop;
      [exact Hloop|done|].
    intros k st st' _ <- Hst. by apply initTransform_length in Hst. }
  rewrite <- Hlen. apply setIsAvailable_all_exact.
Qed.

Lemma initSentences_flagsExact (ss : list Sentence) :
  ∀ sentIndex c ss',
    initSentences sentIndex c ss = Some ss' →
    Forall (λ s', flagsExact s' = true) ss'.
Proof.
  induction ss as [|s ss IH]; intros sentIndex c ss'; simpl.
  - intros [= <-]. constructor.
  - destruct (initSentence sentIndex c s) as [[s' c']|] eqn:Hs; simpl; [|done].
    destruct (initSentences _ _ ss) as [rest|] eqn:Hrest; simpl; [|done].
    intros [= <-]. constructor; [by eapply initSentence_flagsExact|].
    by eapply IH.
Qed.

(** ** [setMetaData] on a result as received *)

Lemma receivedOk_spec ρ (t : Transform) :
  receivedOk ρ t = true →
  groupId t = None ∧ tokensAffected t ≠ [] ∧ freshIdsb ρ t = true.
Proof.
  unfold receivedOk. intros H.
  apply andb_true_iff in H as [H Hf]. apply andb_true_iff in H as [Hg Ha].
  apply bool_decide_eq_true in Hg. apply negb_true_iff in Ha.
  by apply bool_decide_eq_false in Ha.
Qed.

Lemma updateActiveTokens_total (s : Sentence) (t : Transform) :
  tokensAffected t ≠ [] → is_Some (updateActiveTokens s t).
Proof.
  intros Hne. unfold updateActiveTokens. destruct (_ && _); [|eauto].
  destruct (replaceTokens_total (activeTokens s) _ (tokensAdded t) Hne)
    as [toks ->]. simpl. eauto.
Qed.

Lemma groupStep_content gid x y : groupStep gid x y → sameContent x y.
Proof. intros (?&?&?&?&_). by repeat split. Qed.

Lemma sameContent_trans x y z :
  sameContent x y → sameContent y z → sameContent x z.
Proof.
  unfold sameContent. intros (?&?&?&?) (?&?&?&?). repeat split; congruence.
Qed.

Lemma initTransform_step ρ (sentIndex n : nat) (l0 : list Transform)
    (k : nat) (st : Sentence * nat * nat) :
  length l0 = n →
  forallb (receivedOk ρ) l0 = true →
  k < n →
  initDone sentIndex l0 k st →
  ∃ st', initTransform sentIndex n st k = Some st'
         ∧ initDone sentIndex l0 (S k) st'.
Proof.
  intros Hn Hrecv Hk (HC & Hlow & Hgrp). destruct st as [[s gc] c].
  simpl in HC, Hlow, Hgrp.
  assert (Hlen : length (transformations s) = n)
    by (by rewrite <- (Forall2_length _ _ _ HC)).
  destruct (lookup_lt_is_Some_2 (transformations s) k) as [x Hx]; [lia|].
  destruct (Forall2_lookup_r _ _ _ _ _ HC Hx) as (x0 & Hx0 & Hcx).
  assert (Hok : receivedOk ρ x0 = true).
  { eapply (proj1 (forallb_forall _ _) Hrecv).
    apply list_elem_of_In, list_elem_of_lookup. eauto. }
  destruct (receivedOk_spec _ _ Hok) as (_ & Hne0 & _).
  unfold initTransform.
  set (F := λ t : Transform, match status _ with None => _ | Some _ => _ end).
  set (s1 := updTransform F k s).
  assert (HF : ∀ y, tokensAffected (F y) = tokensAffected y
                    ∧ tokensAdded (F y) = tokensAdded y
                    ∧ hasReplacement (F y) = hasReplacement y
                    ∧ isSuggestion (F y) = isSuggestion y
                    ∧ groupId (F y) = groupId y
                    ∧ sentenceIndex (F y) = sentIndex).
  { intros y. unfold F. simpl. by destruct (status y). }
  assert (Hs1 : transformations s1 = alter F k (transformations s)) by done.
  assert (H1 : transformations s1 !! k = Some (F x))
    by (by rewrite Hs1, list_lookup_alter_eq, Hx).
  cbv zeta. rewrite H1. cbn -[groupSearch].
  assert (Hne : tokensAffected (F x) ≠ []).
  { destruct (HF x) as (-> & _). destruct Hcx as (-> & _). done. }
  destruct (updateActiveTokens_total s1 (F x) Hne) as [s2 Hs2].
  rewrite Hs2. cbn -[groupSearch].
  destruct (updateActiveTokens_frame _ _ _ Hs2) as [Ht2 Hg2].
  assert (HC1 : Forall2 sameContent l0 (transformations s2)).
  { rewrite Ht2, Hs1. apply Forall2_alter_r; [done|].
    intros a b _ _ (?&?&?&?). destruct (HF b) as (?&?&?&?&_).
    repeat split; congruence. }
  assert (Hlow1 : ∀ j t, transformations s2 !! j = Some t → j < S k →
                    sentenceIndex t = sentIndex
                    ∧ (j < k → groupId t ≠ None)
                    ∧ (j = k → t = F x)).
  { intros j t Hj Hjk. rewrite Ht2 in Hj.
    destruct (decide (j = k)) as [->|Hne'].
    - rewrite H1 in Hj. inversion Hj; subst.
      destruct (HF x) as (_&_&_&_&_&?). split; [done|]. split; [lia|done].
    - rewrite Hs1, list_lookup_alter_ne in Hj by done.
      destruct (Hlow j t Hj) as [? ?]; [lia|]. split; [done|].
      split; [done|lia]. }
  assert (Hgrp1 : ∀ j t g, transformations s2 !! j = Some t →
                    groupId t = Some g → is_Some (groups s !! g)).
  { intros j t g Hj Hg. rewrite Ht2 in Hj.
    destruct (decide (j = k)) as [->|Hne'].
    - rewrite H1 in Hj. inversion Hj; subst.
      destruct (HF x) as (_&_&_&_&Hgx&_). rewrite Hgx in Hg. eauto.
    - rewrite Hs1, list_lookup_alter_ne in Hj by done. eauto. }
  assert (Hgs : groups s2 = groups s) by (by rewrite Hg2).
  destruct (groupId (F x)) as [g0|] eqn:Hg0.
  - eexists. split; [done|]. split; [done|]. simpl. split.
    + intros j t Hj Hjk. destruct (Hlow1 j t Hj Hjk) as (? & Hlt & Heq).
      split; [done|]. destruct (decide (j = k)) as [->|?].
      * rewrite (Heq eq_refl). congruence.
      * apply Hlt. lia.
    + intros j t g Hj Hg. rewrite Hgs. eauto.
  - set (s3 := set_groups (<[gc := []]> (groups s2)) s2).
    destruct (groupSearch_spec gc n (S (n * n)) [k] s3)
      as (s4 & Hrun & HF4 & Hdom & _ & Hgrouped).
    { simpl. by rewrite Ht2, Hs1, length_alter. }
    { by constructor. }
    { pose proof (count_le_length
        (λ t, bool_decide (groupId t = None)) (transformations s3)) as Hu.
      unfold ungrouped. simpl in Hu |- *. rewrite Ht2, Hs1 in Hu |- *.
      rewrite length_alter, Hlen in Hu. nia. }
    { simpl. rewrite lookup_insert_eq. eauto. }
    rewrite Hrun. cbn. eexists. split; [done|]. split; [|split]; simpl.
    + eapply Forall2_trans_list; [apply sameContent_trans|exact HC1|].
      eapply Forall2_impl; [exact HF4|]. apply groupStep_content.
    + intros j t Hj Hjk.
      destruct (Forall2_lookup_r _ _ _ _ _ HF4 Hj)
        as (t3 & Hj3 & (_&_&_&_&Hsi&Hgid)).
      destruct (Hlow1 j t3 Hj3 Hjk) as (Hsi3 & Hlt & Heq).
      split; [congruence|].
      destruct (decide (j = k)) as [->|?].
      * destruct (Hgrouped k) as (y & Hy & Hyg); [by left|]. congruence.
      * destruct Hgid as [Hgid|[_ Hgid]]; [|congruence].
        rewrite Hgid. apply Hlt. lia.
    + intros j t g Hj Hg.
      destruct (Forall2_lookup_r _ _ _ _ _ HF4 Hj)
        as (t3 & Hj3 & (_&_&_&_&_&Hgid)).
      apply Hdom. simpl. rewrite lookup_insert.
      case_decide; [eauto|].
      destruct Hgid as [Hgid|[_ Hgid]]; [|congruence].
      rewrite Hgs. eapply Hgrp1; [exact Hj3|congruence].
Qed.

Lemma initSentence_spec ρ (sentIndex c : nat) (s : Sentence) :
  forallb (receivedOk ρ) (transformations s) = true →
  ∃ s' c',
    initSentence sentIndex c s = Some (s', c')
    ∧ Forall2 sameContent (transformations s) (transformations s')
    ∧ (∀ j t, transformations s' !! j = Some t →
         sentenceIndex t = sentIndex
         ∧ ∃ g ms, groupId t = Some g ∧ groups s' !! g = Some ms).
Proof.
  intros Hrecv. unfold initSentence.
  set (s0 := set_groups ∅ _).
  change (transformations s0) with (transformations s).
  set (n := length (transformations s)).
  destruct (forEachM_seq_total (initDone sentIndex (transformations s))
              (initTransform sentIndex n) n 0 (s0, 0, c))
    as ([[s1 gc] c1] & Hrun & HC & Hlow & Hgrp).
  - split; [apply Forall2_refl_list; by repeat split|].
    split; [intros; lia|]. simpl. intros j t g Hj Hg.
    assert (Hok : receivedOk ρ t = true).
    { eapply (proj1 (forallb_forall _ _) Hrecv).
      apply list_elem_of_In, list_elem_of_lookup. eauto. }
    destruct (receivedOk_spec _ _ Hok) as (? & _). congruence.
  - intros k st Hk HP. eapply initTransform_step; [done|done|lia|done].
  - rewrite Hrun. simpl in *. eexists _, _. split; [done|].
    destruct (setIsAvailable_frame (seq 0 n) s1) as (_ & Hgr & _).
    pose proof (setIsAvailable_flagStep (seq 0 n) s1 (transformations s1)
                  (Forall2_refl_list _ _ (flagStep_refl _))) as HF.
    split.
    + eapply Forall2_trans_list; [apply sameContent_trans|exact HC|].
      eapply Forall2_impl; [exact HF|].
      intros x y [(?&?&?&?&_) _]. by repeat split.
    + intros j t Hj.
      destruct (Forall2_lookup_r _ _ _ _ _ HF Hj)
        as (t1 & Hj1 & (_&_&_&_&Hg&Hsi) & _).
      apply lookup_lt_Some in Hj1 as Hlt.
      rewrite <- (Forall2_length _ _ _ HC) in Hlt.
      destruct (Hlow j t1 Hj1 Hlt) as [Hsi1 Hg1].
      split; [congruence|].
      destruct (groupId t1) as [g|] eqn:Hgt; [|done].
      destruct (Hgrp j t1 g Hj1 Hgt) as [ms Hms].
      exists g, ms. by rewrite Hg, Hgr.
Qed.

Lemma initSentences_spec ρ (ss : list Sentence) :
  wellReceived ρ ss = true →
  ∀ sentIndex c,
    ∃ ss',
      initSentences sentIndex c ss = Some ss'
      ∧ Forall2 (λ s s', Forall2 sameContent (transformations s)
                                 (transformations s')) ss ss'
      ∧ (∀ k s' j t,
           ss' !! k = Some s' → transformations s' !! j = Some t →
           sentenceIndex t = sentIndex + k
           ∧ ∃ g ms, groupId t = Some g ∧ groups s' !! g = Some ms).
Proof.
  unfold wellReceived.
  induction ss as [|s ss IH]; intros Hrecv sentIndex c; simpl.
  - exists []. split; [done|]. split; [constructor|]. by intros.
  - simpl in Hrecv. apply andb_true_iff in Hrecv as [Hs Hrest].
    destruct (initSentence_spec ρ sentIndex c s Hs)
      as (s' & c' & Hrun & HC & Hwf).
    destruct (IH Hrest (S sentIndex) c') as (rest & Hrun' & HC' & Hwf').
    rewrite Hrun. simpl. rewrite Hrun'. simpl.
    eexists. split; [done|]. split; [by constructor|].
    intros [|k] s1 j t Hk Hj; simpl in Hk.
    + inversion Hk; subst. rewrite Nat.add_0_r. exact (Hwf j t Hj).
    + replace (sentIndex + S k) with (S sentIndex + k) by lia.
      exact (Hwf' k s1 j t Hk Hj).
Qed.

(** Bounds on what the replacing transformations of a store insert. *)
Lemma rank_bounded (ρ : nat → nat) (l : list Token) :
  ∃ M, ∀ b, b ∈ l → ρ (token_id b) ≤ M.
Proof.
  induction l as [|x l [M HM]]; [exists 0; by intros b Hb%elem_of_nil|].
  exists (max (ρ (token_id x)) M). intros b Hb.
  apply elem_of_cons in Hb as [->|Hb]; [lia|].
  specialize (HM b Hb). lia.
Qed.

Lemma added_bounded (ρ : nat → nat) (l : list Transform) :
  ∃ K M, ∀ t, t ∈ l →
    length (tokensAdded t) < K ∧ ∀ b, b ∈ tokensAdded t → ρ (token_id b) ≤ M.
Proof.
  induction l as [|x l (K & M & HKM)];
    [exists 0, 0; by intros t Ht%elem_of_nil|].
  destruct (rank_bounded ρ (tokensAdded x)) as [Mx HMx].
  exists (max (S (length (tokensAdded x))) K), (max Mx M). intros t Ht.
  apply elem_of_cons in Ht as [->|Ht].
  - split; [lia|]. intros b Hb. specialize (HMx b Hb). lia.
  - destruct (HKM t Ht) as [? Hb]. split; [lia|].
    intros b Hb'. specialize (Hb b Hb'). lia.
Qed.

Lemma store_bounded (ρ : nat → nat) (ss : list Sentence) :
  ∃ K M, ∀ s t, s ∈ ss → t ∈ transformations s →
    length (tokensAdded t) < K ∧ ∀ b, b ∈ tokensAdded t → ρ (token_id b) ≤ M.
Proof.
  induction ss as [|x ss (K & M & HKM)];
    [exists 0, 0; by intros s t Hs%elem_of_nil|].
  destruct (added_bounded ρ (transformations x)) as (Kx & Mx & Hx).
  exists (max Kx K), (max Mx M). intros s t Hs Ht.
  apply elem_of_cons in Hs as [->|Hs].
  - destruct (Hx t Ht) as [? Hb]. split; [lia|].
    intros b Hb'. specialize (Hb b Hb'). lia.
  - destruct (HKM s t Hs Ht) as [? Hb]. split; [lia|].
    intros b Hb'. specialize (Hb b Hb'). lia.
Qed.

Lemma freshIdsb_spec ρ (t : Transform) :
  freshIdsb ρ t = true → hasReplacement t = true →
  ∀ a b, a ∈ tokensAffected t → b ∈ tokensAdded t →
    ρ (token_id a) < ρ (token_id b).
Proof.
  unfold freshIdsb. intros H Hrep a b Ha Hb. rewrite Hrep in H. simpl in H.
  rewrite forallb_forall in H.
  specialize (H a (proj1 (list_elem_of_In _ _) Ha)).
  rewrite forallb_forall in H.
  specialize (H b (proj1 (list_elem_of_In _ _) Hb)).
  by apply Nat.ltb_lt in H.
Qed.

(** [setMetaData] turns a result as received into a store the editor can
    work on. *)
Lemma setMetaData_wellFormed ρ (d : Data) (ss : list Sentence) :
  rulesApplied d = Some ss →
  wellReceived ρ ss = true →
  ∃ d' ss' K M,
    setMetaData d = Some d'
    ∧ rulesApplied d' = Some ss'
    ∧ hasMeta d' = true
    ∧ wfStore K M ρ ss'.
Proof.
  intros Hss Hrecv.
  destruct (initSentences_spec ρ ss Hrecv 0 0) as (ss' & Hrun & HC & Hwf).
  destruct (store_bounded ρ ss) as (K & M & HKM).
  unfold setMetaData. rewrite Hss, Hrun. simpl.
  eexists _, ss', K, M. split; [done|]. split; [done|]. split; [done|].
  intros si s' ti t' Hs' Ht'.
  destruct (Hwf si s' ti t' Hs' Ht') as [Hsi Hg].
  destruct (Forall2_lookup_r _ _ _ _ _ HC Hs') as (s & Hs & HCs).
  destruct (Forall2_lookup_r _ _ _ _ _ HCs Ht')
    as (t & Ht & Haff & Hadd & Hrep & _).
  assert (Hsin : s ∈ ss) by (apply list_elem_of_lookup; eauto).
  assert (Htin : t ∈ transformations s) by (apply list_elem_of_lookup; eauto).
  assert (Hok : receivedOk ρ t = true).
  { unfold wellReceived in Hrecv. rewrite forallb_forall in Hrecv.
    specialize (Hrecv s (proj1 (list_elem_of_In _ _) Hsin)).
    rewrite forallb_forall in Hrecv.
    exact (Hrecv t (proj1 (list_elem_of_In _ _) Htin)). }
  destruct (receivedOk_spec _ _ Hok) as (_ & Hne & Hfresh).
  destruct (HKM s t Hsin Htin) as [HK HM].
  unfold wfTransform. rewrite Haff, Hadd, Hrep.
  split; [done|]. split; [done|]. split; [done|].
  intros Hr. split; [done|]. intros b Hb. split; [by apply HM|].
  intros a Ha. by apply (freshIdsb_spec ρ t).
Qed.

(** ** [applyAll] skipping suggestions *)

Lemma applyAll_outcome_cons (fuel : nat) (e : Editor) (r : TRef) :
  (let '(o, calls) := applyAll fuel true e in (o, r :: calls)).1
  = (applyAll fuel true e).1.
Proof. by destruct (applyAll fuel true e). Qed.

Lemma colliding_cycle (fuel : nat) :
  ∀ stack size,
    (applyAll fuel true
       (colliding_editor colliding_d0 stack size [(0, 0); (0, 1)])).1
    = OutOfFuel
    ∧ (applyAll fuel true
         (colliding_editor colliding_d1 stack size [(0, 1)])).1 = OutOfFuel
    ∧ (applyAll fuel true
         (colliding_editor colliding_d2 stack size [(0, 0)])).1 = OutOfFuel
    ∧ (applyAll fuel true
         (colliding_editor colliding_d3 stack size [(0, 1)])).1 = OutOfFuel.
Proof.
  induction fuel as [|fuel IH]; intros stack size; [done|].
  repeat split.
  - transitivity
      (applyAll fuel true
         (colliding_editor colliding_d1 (stack ++ [(0, 0)]) (size + 1)
            [(0, 1)])).1; [|apply IH].
    rewrite <- (applyAll_outcome_cons fuel _ (0, 0)). reflexivity.
  - transitivity
      (applyAll fuel true
         (colliding_editor colliding_d2 (stack ++ [(0, 1)]) (size + 1)
            [(0, 0)])).1; [|apply IH].
    rewrite <- (applyAll_outcome_cons fuel _ (0, 1)). reflexivity.
  - transitivity
      (applyAll fuel true
         (colliding_editor colliding_d3 (stack ++ [(0, 0)]) (size + 1)
            [(0, 1)])).1; [|apply IH].
    rewrite <- (applyAll_outcome_cons fuel _ (0, 0)). reflexivity.
  - transitivity
      (applyAll fuel true
         (colliding_editor colliding_d2 (stack ++ [(0, 1)]) (size + 1)
            [(0, 0)])).1; [|apply IH].
    rewrite <- (applyAll_outcome_cons fuel _ (0, 1)). reflexivity.
Qed.

(** Fresh ids matter.  On a result outside the data model, whose
    corrections insert tokens under the id of the token they replace, each
    accept makes the other correction available again and the loop of
    [applyAll(true)] goes on for ever. *)
Lemma applyAll_loops_on_colliding_ids :
  ∃ e,
    interactiveEditor colliding_raw false = Some e
    ∧ ∀ fuel, (applyAll fuel true e).1 = OutOfFuel.
Proof.
  eexists. split; [by vm_compute|].
  intros fuel. apply (colliding_cycle fuel [] 0).
Qed.

(** On the sample the loop accepts the four corrections that are not
    suggestions and leaves the suggestion of the second sentence
    available. *)
Example sample_applyAll :
  ∃ e e',
    interactiveEditor sample_raw false = Some e
    ∧ applyAll 5 true e = (Returned e', [(0, 0); (0, 1); (0, 2); (1, 0)])
    ∧ allAvailableTransforms e' = [(1, 1)]
    ∧ getCurrentSentenceText <$> default [] (rulesApplied (data e'))
      = ["has been before"; "So it goes."]%string.
Proof.
  vm_compute. do 2 eexists. repeat split; reflexivity.
Qed.

(** ** The cached availability flag (C3) *)

(** C3, as stated, fails: rejecting an available transformation leaves its
    tokens in the stream and sets its flag to false. *)
Lemma reject_leaves_flag_inexact :
  ∃ d d' s t,
    setMetaData sample_raw = Some d
    ∧ rejectCorrection d (0, 0) = Some (true, d')
    ∧ rulesApplied d' ≫= (λ ss, ss !! 0) = Some s
    ∧ transformations s !! 0 = Some t
    ∧ isAvailable t = false
    ∧ tokensArePresent (tokensAffected t) (activeTokens s) = true
    ∧ flagsExact s = false.
Proof.
  vm_compute. do 4 eexists. repeat split; reflexivity.
Qed.

(** C3, amended.  Right after [setMetaData] the cached flag of every
    transformation equals [tokensArePresent(tokensAffected, activeTokens)]
    of its sentence.  A successful accept or reject leaves the flag of the
    transformation it acts on false and a successful reset leaves it true,
    whatever [tokensArePresent] says; when the accept or reset is on a
    transformation with a replacement, the other members of its group have
    the flag [tokensArePresent] gives on the new stream. *)
Theorem isAvailable_after_initialization_and_operations :
  (∀ d d' ss',
     setMetaData d = Some d' → rulesApplied d' = Some ss' →
     Forall (λ s, flagsExact s = true) ss')
  ∧ (∀ persist a d d' ss si ti s t,
       target a = (si, ti) →
       rulesApplied d = Some ss →
       ss !! si = Some s →
       transformations s !! ti = Some t →
       sentenceIndex t = si →
       perform persist d a = Some (true, d') →
       ∃ ss' s' t',
         rulesApplied d' = Some ss'
         ∧ ss' !! si = Some s'
         ∧ transformations s' !! ti = Some t'
         ∧ isAvailable t' = flagAfter a
         ∧ (refreshesGroup a t = true →
            ∃ g ms,
              groupId t = Some g ∧ groups s !! g = Some ms
              ∧ ∀ j y, j ∈ ms → j ≠ ti →
                  transformations s' !! j = Some y →
                  isAvailable y = canMakeTransform s' y)).
Proof.
  split.
  - intros d d' ss'. unfold setMetaData.
    destruct (rulesApplied d) as [ss|] eqn:Hss.
    + destruct (initSentences 0 0 ss) as [ss1|] eqn:Hinit; simpl; [|done].
      intros [= <-]. simpl. intros [= <-].
      by eapply initSentences_flagsExact.
    + intros [= <-]. congruence.
  - intros persist a d d' ss si ti s t Hr Hss Hs Ht Hsi Hrun.
    destruct (perform_inv persist a d d' ss si ti s t Hr Hss Hs Ht Hsi Hrun)
      as (st & ms & toks & Hgroup & Hd').
    destruct (acted_sentence (flagAfter a) st ti ms
                (set_activeTokens toks s) t Ht)
      as [(t' & Ht' & Hflag & _) Hexact].
    eexists _, _, t'. split; [exact Hd'|].
    split; [apply list_lookup_insert_eq; by eapply lookup_lt_Some|].
    split; [exact Ht'|]. split; [exact Hflag|].
    intros Href. destruct (Hgroup Href) as (g & Hg & Hms).
    exists g, ms. split; [done|]. split; [done|]. exact Hexact.
Qed.

Lemma isAvailable_after_initialization_and_operations_witness :
  Forall (λ s, flagsExact s = true) (default [] (rulesApplied sample_d0))
  ∧ ∃ ss s t,
      rulesApplied sample_d0 = Some ss
      ∧ ss !! 0 = Some s
      ∧ transformations s !! 0 = Some t
      ∧ ∃ ss' s' t',
          rulesApplied sample_d1 = Some ss'
          ∧ ss' !! 0 = Some s'
          ∧ transformations s' !! 0 = Some t'
          ∧ isAvailable t' = flagAfter (Accept (0, 0))
          ∧ (refreshesGroup (Accept (0, 0)) t = true →
             ∃ g ms,
               groupId t = Some g ∧ groups s !! g = Some ms
               ∧ ∀ j y, j ∈ ms → j ≠ 0 →
                   transformations s' !! j = Some y →
                   isAvailable y = canMakeTransform s' y).
Proof.
  destruct isAvailable_after_initialization_and_operations as [Hinit Hop].
  split.
  - apply (Hinit sample_raw sample_d0); reflexivity.
  - eexists _, _, _. split; [reflexivity|]. split; [reflexivity|].
    split; [reflexivity|].
    eapply (Hop true (Accept (0, 0)) sample_d0 sample_d1 _ 0 0);
      reflexivity.
Defined.

(** ** Accept then reset with an exact flag *)

Lemma findIndex_app_fresh (x : Token) (l1 l2 : list Token) :
  token_id x ∉ token_id <$> l1 →
  findIndex (λ a, token_id x =? token_id a) (l1 ++ x :: l2)
  = Z.of_nat (length l1).
Proof.
  induction l1 as [|a l1 IH]; intros Hnot; simpl.
  - by rewrite Nat.eqb_refl.
  - rewrite fmap_cons in Hnot. apply not_elem_of_cons in Hnot as [Hne Hnot].
    destruct (token_id x =? token_id a) eqn:Heq;
      [by apply Nat.eqb_eq in Heq|].
    rewrite (IH Hnot).
    destruct (Z.of_nat (length l1) =? -1)%Z eqn:Hz; [lia|]. lia.
Qed.

Lemma everyPresent_app (pre rest post : list Token) (lastIndex : Z) :
  NoDup (token_id <$> (pre ++ rest ++ post)) →
  lastIndex = (-1)%Z ∨ lastIndex = (Z.of_nat (length pre) - 1)%Z →
  everyPresent lastIndex rest (pre ++ rest ++ post) = true.
Proof.
  revert pre lastIndex. induction rest as [|x rest IH];
    intros pre lastIndex Hnd Hlast; [done|].
  change ((x :: rest) ++ post) with (x :: (rest ++ post)) in Hnd |- *.
  simpl. rewrite findIndex_app_fresh.
  - replace (negb (Z.of_nat (length pre) =? -1)%Z) with true
      by (symmetry; apply negb_true_iff, Z.eqb_neq; lia).
    replace ((lastIndex =? -1)%Z
             || (Z.of_nat (length pre) =? lastIndex + 1)%Z) with true.
    2:{ symmetry. apply orb_true_iff.
        destruct Hlast as [->| ->]; [by left|right; apply Z.eqb_eq; lia]. }
    simpl.
    replace (pre ++ x :: rest ++ post) with ((pre ++ [x]) ++ rest ++ post)
      by (by rewrite <- app_assoc).
    apply IH.
    + by rewrite <- app_assoc.
    + right. rewrite length_app. simpl. lia.
  - rewrite fmap_app, fmap_cons in Hnd.
    apply NoDup_app in Hnd as (_ & Hdisj & _).
    intros Hin. apply (Hdisj _ Hin). left.
Qed.




(** On the sample, accepting the first correction and resetting it gives
    the initialized result back. *)
Example sample_accept_reset :
  session true sample_d0 [Accept (0, 0); Reset (0, 0)] = Some sample_d0.
Proof. reflexivity. Qed.

(** ** Grouping (C2) *)

(** C2.  The claim asks that two transformations of a sentence whose
    [tokensAffected] share a token id have the same [groupId].  On
    "A B C." with [A -> a], [C -> c], [A B C -> X], [setMetaData] puts the
    second transformation in group 1 and the third in group 0 although both
    affect token 3: the search only scans forward from a member, and the
    third transformation was already claimed by the first. *)
Theorem bridged_groups_split :
  ∃ d ss s t1 t2,
    setMetaData bridged_raw = Some d
    ∧ rulesApplied d = Some ss
    ∧ ss !! 0 = Some s
    ∧ transformations s !! 1 = Some t1
    ∧ transformations s !! 2 = Some t2
    ∧ shareAffected t1 t2 = true
    ∧ groupId t1 = Some 1
    ∧ groupId t2 = Some 0
    ∧ groupId t1 ≠ groupId t2
    ∧ groups s = {[ 0 := [0; 2]; 1 := [1] ]}.
Proof.
  vm_compute. do 5 eexists. repeat split; try reflexivity. discriminate.
Qed.

(** ** Replay of the accepted transformations (C1) *)

(** C1.  The claim asks that [activeTokens] is the replay, from
    [originalSentence] and in order, of the accepted transformations.  After
    accepting [A B C -> X] and then [C -> c] (still flagged available, being
    in another group) both are accepted, the live stream is [X] and the
    replay gives [A B c]. *)
Theorem bridged_replay_differs :
  ∃ d d' s,
    setMetaData bridged_raw = Some d
    ∧ session true d [Accept (0, 2); Accept (0, 1)] = Some d'
    ∧ rulesApplied d' ≫= (λ ss, ss !! 0) = Some s
    ∧ isAccepted <$> transformations s = [false; true; true]
    ∧ activeTokens s = [tokX]
    ∧ replayAccepted s = Some [tokA; tokB; tokC']
    ∧ replayAccepted s ≠ Some (activeTokens s).
Proof.
  vm_compute. do 3 eexists. repeat split; try reflexivity. discriminate.
Qed.

(** ** The defensive branch of the splice (C9) *)

(** C9.  The claim asks that an accept which passes the [isAvailable] guard
    on a transformation with a replacement always finds its
    [tokensAffected] in [activeTokens].  After accepting [A B C -> X] the
    transformation [C -> c] is still flagged available; accepting it passes
    the guard, [tokensArePresent] is false, [replaceTokens] hands the stream
    back unchanged and the accept reports success. *)
Theorem bridged_accept_takes_defensive_branch :
  ∃ d d1 s t d2 s2,
    setMetaData bridged_raw = Some d
    ∧ session true d [Accept (0, 2)] = Some d1
    ∧ rulesApplied d1 ≫= (λ ss, ss !! 0) = Some s
    ∧ transformations s !! 1 = Some t
    ∧ isAvailable t = true
    ∧ hasReplacement t = true
    ∧ tokensArePresent (tokensAffected t) (activeTokens s) = false
    ∧ replaceTokens (activeTokens s) (tokensAffected t) (tokensAdded t)
      = Some (activeTokens s)
    ∧ acceptCorrection d1 (0, 1) = Some (true, d2)
    ∧ rulesApplied d2 ≫= (λ ss, ss !! 0) = Some s2
    ∧ activeTokens s2 = activeTokens s.
Proof.
  vm_compute. do 6 eexists. repeat split; reflexivity.
Qed.

(** ** Accept then reset (C6) *)

(** C6.  The claim asks that accepting an available transformation and then
    resetting it restores the stream, the status [clean] and the flag.  In
    the state reached by accepting [A B C -> X], the transformation
    [C -> c] has [isAvailable] true and status clean; after accepting it,
    [resetCorrection] refuses (its [tokensAdded] never entered the stream),
    so the status stays [accept] and the flag stays false.  The flag was
    stale; with the affected run in the stream the round trip works
    ([accept_reset_roundtrip]). *)
Theorem bridged_accept_reset_not_restored :
  ∃ d d1 t d2 t2,
    setMetaData bridged_raw = Some d
    ∧ session true d [Accept (0, 2)] = Some d1
    ∧ rulesApplied d1 ≫= (λ ss, deref ss (0, 1)) = Some t
    ∧ isAvailable t = true
    ∧ status t = Some TRANSFORM_STATUS_CLEAN
    ∧ acceptCorrection d1 (0, 1) = Some (true, d2)
    ∧ resetCorrection true d2 (0, 1) = Some (false, d2)
    ∧ rulesApplied d2 ≫= (λ ss, deref ss (0, 1)) = Some t2
    ∧ status t2 = Some TRANSFORM_STATUS_ACCEPTED
    ∧ isAvailable t2 = false.
Proof.
  vm_compute. do 5 eexists. repeat split; reflexivity.
Qed.

(** ** Sentence offsets (C4) *)

(** C4.  The claim asks that [getSentenceOffset] returns the sum of the
    rendered lengths of the sentences before the target.  The function
    never returns a number: it returns what [find] located.  For the
    second sentence of the sample, after "hzve be befor", the sum is 13 and
    the function returns the sentence object. *)
Theorem getSentenceOffset_returns_sentence :
  (∀ d s n, getSentenceOffset d s ≠ Some (JSNumber n))
  ∧ ∃ d ss s,
      setMetaData sample_raw = Some d
      ∧ rulesApplied d = Some ss
      ∧ ss !! 1 = Some s
      ∧ sentenceOffsetSum ss (sentence_sentenceIndex s) = 13%Z
      ∧ getSentenceOffset d s = Some (JSSentence s).
Proof.
  split.
  - intros d s n. unfold getSentenceOffset.
    destruct (rulesApplied d) as [ss|]; simpl; [|done].
    by destruct (findSentence _ _ _ _ _) as [[[s'|] ?] ?].
  - vm_compute. do 3 eexists. repeat split; reflexivity.
Qed.

(** ** [undoAll] (C10) *)

(** C10.  [editor.undoAll()] returns at once and leaves the editor state
    (the result with every stream, status and flag, the history stack and
    the cache) as it was: [editor.canUndoTransform] is not a property of the
    editor object, so the loop condition is falsy before the first turn. *)
Theorem undoAll_is_noop (fuel : nat) (persist : bool) (e : Editor) :
  editor_property_truthy "canUndoTransform" = false
  ∧ undoAll (S fuel) persist e = Returned e.
Proof.
  split; [by vm_compute|].
  simpl. by replace (editor_property_truthy "canUndoTransform") with false
    by (by vm_compute).
Qed.

(** ** Undoing a clean transformation (C7) *)

(** C7, as stated, fails: the clean comment-only remark of the sample (no
    replacement) can be undone, and resetting it reports success. *)
Lemma clean_remark_can_be_undone :
  ∃ d ss s t d',
    setMetaData sample_raw = Some d
    ∧ rulesApplied d = Some ss
    ∧ ss !! 1 = Some s
    ∧ transformations s !! 0 = Some t
    ∧ isClean t = true
    ∧ canUndoTransform (Some s) t = Some true
    ∧ resetCorrection true d (1, 0) = Some (true, d').
Proof.
  vm_compute. do 5 eexists. repeat split; reflexivity.
Qed.

(** C7, amended.  For a clean transformation that has a replacement,
    [canUndoTransform] is false, and [resetCorrection] returns false and
    leaves the result as it was. *)
Theorem clean_with_replacement_cannot_be_undone
    (persist : bool) (d : Data) (ss : list Sentence) (r : TRef)
    (t : Transform) :
  rulesApplied d = Some ss →
  deref ss r = Some t →
  isClean t = true →
  hasReplacement t = true →
  (∀ sentence, canUndoTransform sentence t = Some false)
  ∧ resetCorrection persist d r = Some (false, d).
Proof.
  intros Hss Ht Hclean Hrep.
  assert (Hundo : ∀ sentence, canUndoTransform sentence t = Some false).
  { intros sentence. unfold canUndoTransform, isClean, isAccepted,
      isRejected in *. rewrite Hrep. simpl.
    destruct (status t) as [[]|]; simpl in *; congruence. }
  split; [exact Hundo|].
  unfold resetCorrection. rewrite Hss. simpl. rewrite Ht. simpl.
  by rewrite Hundo.
Qed.

Lemma clean_with_replacement_cannot_be_undone_witness :
  ∃ d ss t,
    setMetaData sample_raw = Some d
    ∧ rulesApplied d = Some ss
    ∧ deref ss (0, 0) = Some t
    ∧ (∀ sentence, canUndoTransform sentence t = Some false)
    ∧ resetCorrection true d (0, 0) = Some (false, d).
Proof.
  eexists _, _, _.
  split; [by vm_compute|]. split; [reflexivity|]. split; [reflexivity|].
  eapply (clean_with_replacement_cannot_be_undone true _ _ (0, 0));
    reflexivity.
Defined.

(** ** Running the initializer twice (C5) *)

(** C5, as stated, fails: [setMetaData] does not look at [hasMeta]; a second
    call empties [sentence.groups] (every [groupId] being already set, no
    group is rebuilt). *)
Lemma setMetaData_twice_drops_groups :
  ∃ d d' s s',
    setMetaData sample_raw = Some d
    ∧ setMetaData d = Some d'
    ∧ rulesApplied d ≫= (λ ss, ss !! 0) = Some s
    ∧ rulesApplied d' ≫= (λ ss, ss !! 0) = Some s'
    ∧ groups s = {[ 0 := [0; 1]; 1 := [2] ]}
    ∧ groups s' = ∅
    ∧ d' ≠ d.
Proof.
  vm_compute. do 4 eexists. repeat split; try reflexivity. discriminate.
Qed.

(** C5, amended.  The initialization that [interactiveEditor] performs,
    guarded by [hasMeta], leaves a result that [setMetaData] has already
    initialized exactly as it is. *)
Theorem guarded_initialization_is_noop (d d' : Data) :
  setMetaData d = Some d' →
  rulesApplied d ≠ None →
  hasMeta d' = true ∧ ensureMetaData d' = Some d'.
Proof.
  unfold setMetaData, ensureMetaData. intros H Hr.
  destruct (rulesApplied d) as [ss|]; [|done].
  destruct (initSentences 0 0 ss) as [ss'|]; simpl in H; [|done].
  inversion H; subst. done.
Qed.

Lemma guarded_initialization_is_noop_witness :
  ∃ d', setMetaData sample_raw = Some d'
        ∧ hasMeta d' = true ∧ ensureMetaData d' = Some d'.
Proof.
  eexists. split; [by vm_compute|].
  apply (guarded_initialization_is_noop sample_raw); [by vm_compute|done].
Defined.

(** * Further properties of the code *)

(** ** Runs in a token stream *)

(** [everyPresent] reads the tokens asked for through their ids only. *)
Lemma everyPresent_ids (tokens tokens' allTokens : list Token)
    (lastIndex : Z) :
  token_id <$> tokens = token_id <$> tokens' →
  everyPresent lastIndex tokens allTokens
  = everyPresent lastIndex tokens' allTokens.
Proof.
  revert tokens' lastIndex.
  induction tokens as [|x l IH]; intros [|y l'] lastIndex Hids; try done.
  rewrite !fmap_cons in Hids. injection Hids as Hxy Hl.
  simpl. rewrite Hxy. destruct (_ && _); [|done]. by apply IH.
Qed.

(** The shape of [replaceTokens] on a present, non-empty run starting at
    position [p]. *)
Lemma replaceTokens_at (tokens affected added : list Token) :
  tokensArePresent affected tokens = true →
  affected ≠ [] →
  ∃ p : nat,
    token_id <$> take (length affected) (drop p tokens)
    = token_id <$> affected
    ∧ replaceTokens tokens affected added
      = Some (take p tokens ++ added ++ drop (p + length affected) tokens).
Proof.
  intros Hpres Hne.
  destruct (head affected) as [first|] eqn:Hfirst;
    [|by destruct affected].
  destruct (last affected) as [final|] eqn:Hfinal;
    [|by apply last_None in Hfinal].
  destruct (tokensArePresent_run _ _ _ _ Hpres Hfirst Hfinal)
    as (p & Hstart & Hend & Hids).
  assert (Hlen : 0 < length affected) by (destruct affected; simpl; [done|lia]).
  exists p. split; [done|].
  unfold replaceTokens. rewrite Hpres. simpl. rewrite Hfirst. simpl.
  rewrite Hfinal. simpl. rewrite Hstart, Hend.
  replace (negb (Z.of_nat p =? -1)%Z) with true
    by (symmetry; apply negb_true_iff, Z.eqb_neq; lia).
  replace (negb (Z.of_nat (p + length affected - 1) =? -1)%Z) with true
    by (symmetry; apply negb_true_iff, Z.eqb_neq; lia).
  replace (Z.of_nat p <=? Z.of_nat (p + length affected - 1))%Z with true
    by (symmetry; apply Z.leb_le; lia).
  simpl.
  replace (Z.to_nat (Z.of_nat (p + length affected - 1) + 1))
    with (p + length affected) by lia.
  by rewrite Nat2Z.id.
Qed.

(** X1. [tokensArePresent(tokens, allTokens)] answers true only if the
    stream holds, as one contiguous run, tokens carrying the ids asked for
    in the same order; when the ids of the stream are pairwise distinct,
    it answers true for every such run. *)
Theorem tokensArePresent_contiguous (tokens allTokens : list Token) :
  (tokensArePresent tokens allTokens = true →
   ∃ pre run post,
     allTokens = pre ++ run ++ post
     ∧ token_id <$> run = token_id <$> tokens)
  ∧ (NoDup (token_id <$> allTokens) →
     (∃ pre run post,
        allTokens = pre ++ run ++ post
        ∧ token_id <$> run = token_id <$> tokens) →
     tokensArePresent tokens allTokens = true).
Proof.
  split.
  - intros Hpres. destruct tokens as [|tok rest] eqn:Htok.
    + by exists [], [], allTokens.
    + rewrite <- Htok in *.
      destruct (replaceTokens_at allTokens tokens [] Hpres) as (p & Hids & _);
        [by subst|].
      exists (take p allTokens), (take (length tokens) (drop p allTokens)),
        (drop (length tokens) (drop p allTokens)).
      split; [by rewrite !take_drop|done].
  - intros Hnd (pre & run & post & -> & Hids).
    unfold tokensArePresent.
    rewrite <- (everyPresent_ids run tokens _ _ Hids).
    apply everyPresent_app; [done|by left].
Qed.

Lemma tokensArePresent_contiguous_witness :
  tokensArePresent [tokB; tokC] [tokA; tokB; tokC] = true.
Proof.
  apply (proj2 (tokensArePresent_contiguous [tokB; tokC] [tokA; tokB; tokC])).
  - compute_done.
  - by exists [tokA], [tokB; tokC], [].
Defined.

(** X2. [replaceTokens] throws exactly when asked to replace an empty
    run: [affected[0].id] is read after the empty run has passed
    [tokensArePresent]. *)
Theorem replaceTokens_throws_iff_empty (tokens affected added : list Token) :
  replaceTokens tokens affected added = None ↔ affected = [].
Proof.
  split.
  - intros Hnone. destruct affected as [|a l]; [done|].
    destruct (replaceTokens_total tokens (a :: l) added) as [x Hx]; [done|].
    congruence.
  - by intros ->.
Qed.

(** X3. What [replaceTokens] returns for a non-empty run: the stream
    itself when the run is not present, and otherwise the stream with the
    run, found at some position as a contiguous block with the ids asked
    for, cut out and the added tokens put in its place. *)
Theorem replaceTokens_effect (tokens affected added : list Token) :
  affected ≠ [] →
  if tokensArePresent affected tokens then
    ∃ pre run post,
      tokens = pre ++ run ++ post
      ∧ token_id <$> run = token_id <$> affected
      ∧ replaceTokens tokens affected added = Some (pre ++ added ++ post)
  else replaceTokens tokens affected added = Some tokens.
Proof.
  intros Hne. destruct (tokensArePresent affected tokens) eqn:Hpres.
  - destruct (replaceTokens_at tokens affected added Hpres Hne)
      as (p & Hids & Hrep).
    exists (take p tokens), (take (length affected) (drop p tokens)),
      (drop (length affected) (drop p tokens)).
    split; [by rewrite !take_drop|]. split; [done|].
    by rewrite drop_drop.
  - by apply replaceTokens_absent.
Qed.

Lemma replaceTokens_effect_witness :
  ∃ pre run post,
    [tokA; tokB; tokC] = pre ++ run ++ post
    ∧ token_id <$> run = token_id <$> [tokB]
    ∧ replaceTokens [tokA; tokB; tokC] [tokB] [tokX]
      = Some (pre ++ [tokX] ++ post).
Proof.
  apply (replaceTokens_effect [tokA; tokB; tokC] [tokB] [tokX]). done.
Defined.



(** ** Rendering and offsets *)

Lemma string_append_cons (a : Ascii.ascii) (s1 s2 : string) :
  String.append (String a s1) s2 = String a (String.append s1 s2).
Proof. reflexivity. Qed.

Lemma string_append_nil_l (s : string) : String.append EmptyString s = s.
Proof. reflexivity. Qed.

Lemma string_length_append (s1 s2 : string) :
  String.length (String.append s1 s2) = String.length s1 + String.length s2.
Proof.
  induction s1 as [|a s1 IH]; [done|].
  rewrite string_append_cons. simpl. by rewrite IH.
Qed.

Lemma string_append_assoc (s1 s2 s3 : string) :
  String.append (String.append s1 s2) s3
  = String.append s1 (String.append s2 s3).
Proof.
  induction s1 as [|a s1 IH]; [done|].
  by rewrite !string_append_cons, IH.
Qed.

Lemma string_append_nil_r (s : string) : String.append s EmptyString = s.
Proof.
  induction s as [|a s IH]; [done|]. by rewrite string_append_cons, IH.
Qed.

Lemma concat_empty_cons (x : string) (l : list string) :
  String.concat EmptyString (x :: l)
  = String.append x (String.concat EmptyString l).
Proof.
  destruct l; simpl; [by rewrite string_append_nil_r|].
  by rewrite string_append_nil_l.
Qed.

Lemma concat_empty_length (l : list string) :
  String.length (String.concat EmptyString l)
  = sum_list (map String.length l).
Proof.
  induction l as [|x l IH]; [done|].
  rewrite concat_empty_cons, string_length_append, IH. done.
Qed.

Lemma tokensToString_cons (token : Token) (tokens : list Token) :
  tokensToString (token :: tokens)
  = String.append (String.append (token_value token) (token_after token))
      (tokensToString tokens).
Proof. unfold tokensToString. by rewrite map_cons, concat_empty_cons. Qed.

Lemma offsetScan_fresh (firstId : nat) (pre : list Token) (x : Token)
    (rest : list Token) (sentString : string) :
  firstId ∉ token_id <$> pre →
  token_id x = firstId →
  offsetScan firstId (pre ++ x :: rest) sentString
  = Z.of_nat (String.length (String.append sentString (tokensToString pre))).
Proof.
  intros Hnot Hx. revert sentString.
  induction pre as [|a pre IH]; intros sentString; simpl.
  - rewrite Hx, Nat.eqb_refl. unfold tokensToString. simpl.
    by rewrite string_append_nil_r.
  - rewrite fmap_cons in Hnot. apply not_elem_of_cons in Hnot as [Hne Hnot].
    destruct (token_id a =? firstId) eqn:Heq;
      [by apply Nat.eqb_eq in Heq|].
    rewrite (IH Hnot), tokensToString_cons.
    by rewrite string_append_assoc.
Qed.

(** The callback of [getSentenceOffset] run over the sentences from index
    [sentIndex] on. *)
Lemma findSentence_spec (target : nat) (ss : list Sentence) (sentIndex : nat)
    (fullText : string) (offset : Z) :
  sentIndex ≤ target →
  let before :=
    String.append fullText
      (String.concat EmptyString
         (map getCurrentSentenceText (take (target - sentIndex) ss))) in
  findSentence target ss sentIndex fullText offset
  = (ss !! (target - sentIndex),
     before,
     if decide (target - sentIndex < length ss)
     then Z.of_nat (String.length before) else offset).
Proof.
  revert sentIndex fullText.
  induction ss as [|s rest IH]; intros sentIndex fullText Hle; simpl.
  - rewrite firstn_nil. simpl. rewrite string_append_nil_r.
    done.
  - destruct (sentIndex =? target) eqn:Heq.
    + apply Nat.eqb_eq in Heq. subst. rewrite Nat.sub_diag. simpl.
      rewrite string_append_nil_r. done.
    + apply Nat.eqb_neq in Heq.
      rewrite IH by lia.
      replace (target - sentIndex) with (S (target - S sentIndex)) by lia.
      rewrite firstn_cons, map_cons, concat_empty_cons, string_append_assoc.
      simpl. f_equal.
      repeat case_decide; try done; simpl in *; lia.
Qed.

(** X5. [pt.getTransformOffset]: for a transformation whose affected
    tokens sit in the current stream of its sentence, ids being distinct,
    the result is the number of characters the tokens before them render
    to; when the affected tokens are not present the result is -1. *)
Theorem getTransformOffset_value (ss : list Sentence) (t : Transform)
    (s : Sentence) :
  ss !! sentenceIndex t = Some s →
  tokensAffected t ≠ [] →
  (∀ pre run post,
     NoDup (token_id <$> activeTokens s) →
     activeTokens s = pre ++ run ++ post →
     token_id <$> run = token_id <$> tokensAffected t →
     getTransformOffset ss t
     = Some (Z.of_nat (String.length (tokensToString pre))))
  ∧ (tokensArePresent (tokensAffected t) (activeTokens s) = false →
     getTransformOffset ss t = Some (-1)%Z).
Proof.
  intros Hs Hne. unfold getTransformOffset, canMakeTransform.
  rewrite Hs. simpl. split.
  - intros pre run post Hnd Hact Hids.
    assert (Hpres : tokensArePresent (tokensAffected t) (activeTokens s)
                    = true).
    { unfold tokensArePresent.
      rewrite <- (everyPresent_ids run _ _ _ Hids), Hact.
      apply everyPresent_app; [by rewrite <- Hact|by left]. }
    rewrite Hpres. unfold getTransformOffsetHelper.
    destruct (tokensAffected t) as [|first affected] eqn:Haff; [done|].
    destruct run as [|x run']; [done|].
    rewrite !fmap_cons in Hids. injection Hids as Hx _.
    simpl. rewrite Hact.
    change ((x :: run') ++ post) with (x :: (run' ++ post)).
    rewrite offsetScan_fresh; [done| |done].
    rewrite Hact in Hnd.
    change ((x :: run') ++ post) with (x :: (run' ++ post)) in Hnd.
    rewrite fmap_app, fmap_cons in Hnd.
    apply NoDup_app in Hnd as (_ & Hdisj & _).
    intros Hin. apply (Hdisj _ Hin). rewrite <- Hx. left.
  - by intros ->.
Qed.

Lemma getTransformOffset_value_witness :
  getTransformOffset [set_activeTokens [tokA; tokB; tokC] bridged_sentence]
    (mkTransform [tokB; tokC] [tokX] true false None true None 0 0 0)
  = Some 2%Z.
Proof.
  eapply (proj1 (getTransformOffset_value
                   [set_activeTokens [tokA; tokB; tokC] bridged_sentence]
                   (mkTransform [tokB; tokC] [tokX] true false None true
                      None 0 0 0)
                   (set_activeTokens [tokA; tokB; tokC] bridged_sentence)
                   _ _) [tokA] [tokB; tokC] []).
  - compute_done.
  - reflexivity.
  - reflexivity.
  Unshelve. all: done.
Defined.

(** X6. [pt.getSentenceOffset] hands back the sentence stored at index
    [sentence.sentenceIndex] of the result ([undefined] when there is
    none), not a number; the character count it has computed in [offset]
    by then is the sum of the rendered lengths of the sentences before
    that index. *)
Theorem getSentenceOffset_result (d : Data) (ss : list Sentence)
    (sentence : Sentence) :
  rulesApplied d = Some ss →
  getSentenceOffset d sentence
  = Some (match ss !! sentence_sentenceIndex sentence with
          | Some s => JSSentence s
          | None => JSUndefined
          end)
  ∧ (sentence_sentenceIndex sentence < length ss →
     (findSentence (sentence_sentenceIndex sentence) ss 0 EmptyString
        (-1)%Z).2
     = sentenceOffsetSum ss (sentence_sentenceIndex sentence)).
Proof.
  intros Hss. unfold getSentenceOffset. rewrite Hss. simpl.
  rewrite findSentence_spec by lia. rewrite Nat.sub_0_r. simpl. split.
  - by destruct (ss !! _).
  - intros Hlt. case_decide; [|lia].
    unfold sentenceOffsetSum.
    rewrite string_append_nil_l, concat_empty_length, map_map. done.
Qed.

Lemma getSentenceOffset_result_witness :
  getSentenceOffset (mkData (Some [bridged_sentence; hzve_sentence]) false)
    hzve_sentence
  = Some (JSSentence bridged_sentence)
  ∧ (0 < 2 →
     (findSentence 0 [bridged_sentence; hzve_sentence] 0 EmptyString
        (-1)%Z).2
     = 0%Z).
Proof.
  apply (getSentenceOffset_result
           (mkData (Some [bridged_sentence; hzve_sentence]) false)
           [bridged_sentence; hzve_sentence] hzve_sentence).
  reflexivity.
Defined.

(** ** The effect of accept, reject and reset *)

Lemma refresh_block_shape (si : nat) (ss ss1 : list Sentence) (s : Sentence)
    (t : Transform) (from to : list Token) :
  ss !! si = Some s →
  (sentence ← ss !! si;
   toks ← replaceTokens (activeTokens sentence) from to;
   updateTokenGroup si t (<[si := set_activeTokens toks sentence]> ss))
  = Some ss1 →
  ∃ toks ms,
    replaceTokens (activeTokens s) from to = Some toks
    ∧ getOverlappingGroup s t = Some ms
    ∧ ss1 = <[si := setIsAvailable ms (set_activeTokens toks s)]> ss.
Proof.
  intros Hs. rewrite Hs. simpl.
  destruct (replaceTokens _ _ _) as [toks|]; simpl; [|done].
  unfold updateTokenGroup, getOverlappingGroup.
  rewrite list_lookup_insert_eq by (by eapply lookup_lt_Some). simpl.
  destruct (groupId t) as [g|]; simpl; [|done].
  destruct (groups s !! g) as [ms|] eqn:Hms; simpl; [|done].
  intros [= <-]. exists toks, ms. by rewrite list_insert_insert_eq.
Qed.

(** The result after a successful operation on the transformation at
    position [ti] of sentence [si], in one expression. *)
Lemma perform_shape (persist : bool) (a : Action) (d d' : Data)
    (ss : list Sentence) (si ti : nat) (s : Sentence) (t : Transform) :
  target a = (si, ti) →
  rulesApplied d = Some ss →
  ss !! si = Some s →
  transformations s !! ti = Some t →
  sentenceIndex t = si →
  perform persist d a = Some (true, d') →
  ∃ ms toks,
    (if refreshesGroup a t
     then replaceTokens (activeTokens s) (spliceOut a t) (spliceIn a t)
          = Some toks
          ∧ getOverlappingGroup s t = Some ms
     else toks = activeTokens s ∧ ms = [])
    ∧ d' = set_rulesApplied
             (<[si := updTransform (set_status (Some (statusAfter a))) ti
                        (updTransform (set_isAvailable (flagAfter a)) ti
                           (setIsAvailable ms (set_activeTokens toks s)))]>
                ss) d.
Proof.
  intros Hr Hss Hs Ht Hsi.
  assert (Hlt : si < length ss) by (by eapply lookup_lt_Some).
  assert (Hd : deref ss (si, ti) = Some t)
    by (unfold deref; simpl; by rewrite Hs).
  destruct a as [r|r|r]; simpl in Hr; subst r; simpl.
  - unfold acceptCorrection. rewrite Hss. simpl. rewrite Hd. simpl.
    destruct (isAvailable t); [|done]. rewrite Hsi, Hs. simpl.
    destruct (getTransformOffset ss t); simpl; [|done].
    unfold makeTransform. rewrite Hd. simpl.
    destruct (hasReplacement t) eqn:Hrep.
    + destruct (ss !! si ≫= _) as [ss1|] eqn:Hblock; simpl; [|done].
      destruct (refresh_block_shape _ _ _ _ _ _ _ Hs Hblock)
        as (toks & ms & Htoks & Hms & ->).
      intros [= <-]. exists ms, toks.
      split; [done|]. f_equal.
      rewrite (alter_as_insert _ si (<[si:=_]> ss) _
                 (list_lookup_insert_eq _ _ _ Hlt)).
      rewrite list_insert_insert_eq.
      rewrite (alter_as_insert _ si (<[si:=_]> ss) _
                 (list_lookup_insert_eq _ _ _ Hlt)).
      by rewrite list_insert_insert_eq.
    + simpl. intros [= <-].
      exists [], (activeTokens s).
      rewrite set_activeTokens_same.
      split; [done|]. f_equal.
      rewrite (alter_as_insert _ si ss _ Hs).
      rewrite (alter_as_insert _ si (<[si:=_]> ss) _
                 (list_lookup_insert_eq _ _ _ Hlt)).
      by rewrite list_insert_insert_eq.
  - unfold rejectCorrection. rewrite Hss. simpl. rewrite Hd. simpl.
    destruct (isAvailable t); [|done]. rewrite Hsi, Hs. simpl.
    destruct (getTransformOffset ss t); simpl; [|done].
    intros [= <-].
    exists [], (activeTokens s).
    rewrite set_activeTokens_same.
    split; [done|]. f_equal.
    rewrite (alter_as_insert _ si ss _ Hs). f_equal.
    change (setIsAvailable [] s) with s.
    unfold updTransform, set_transformations. simpl.
    by rewrite list_alter_alter_eq.
  - unfold resetCorrection. rewrite Hss. simpl. rewrite Hd. simpl.
    destruct (canUndoTransform _ t) as [[|]|]; simpl; [|done|done].
    unfold undoTransform. rewrite Hd. simpl.
    destruct (hasReplacement t) eqn:Hrep.
    + rewrite Hsi.
      destruct (ss !! si ≫= _) as [ss1|] eqn:Hblock; simpl; [|done].
      destruct (refresh_block_shape _ _ _ _ _ _ _ Hs Hblock)
        as (toks & ms & Htoks & Hms & ->).
      destruct (if persist then _ else _); simpl; [|done].
      intros [= <-]. exists ms, toks.
      split; [done|]. f_equal.
      rewrite (alter_as_insert _ si (<[si:=_]> ss) _
                 (list_lookup_insert_eq _ _ _ Hlt)).
      rewrite list_insert_insert_eq.
      rewrite (alter_as_insert _ si (<[si:=_]> ss) _
                 (list_lookup_insert_eq _ _ _ Hlt)).
      by rewrite list_insert_insert_eq.
    + simpl. destruct (if persist then _ else _); simpl; [|done].
      intros [= <-].
      exists [], (activeTokens s).
      rewrite set_activeTokens_same.
      split; [done|]. f_equal.
      rewrite (alter_as_insert _ si ss _ Hs).
      rewrite (alter_as_insert _ si (<[si:=_]> ss) _
                 (list_lookup_insert_eq _ _ _ Hlt)).
      by rewrite list_insert_insert_eq.
Qed.

(** [setIsAvailable] writes the [isAvailable] property of the listed
    objects and nothing else. *)
Lemma setIsAvailable_onlyFlag (ms : list nat) (s : Sentence) (j : nat)
    (x : Transform) :
  transformations s !! j = Some x →
  ∃ y, transformations (setIsAvailable ms s) !! j = Some y
       ∧ y = set_isAvailable (isAvailable y) x
       ∧ (j ∉ ms → y = x).
Proof.
  revert s x. induction ms as [|m ms IH]; intros s x Hx.
  - exists x. split; [done|]. split; [by destruct x|done].
  - unfold setIsAvailable in *. simpl.
    destruct (decide (m = j)) as [->|Hne].
    + destruct (IH (setAvailable s j)
                  (set_isAvailable (canMakeTransform s x) x))
        as (y & Hy & Hyx & _).
      { simpl. by rewrite list_lookup_alter_eq, Hx. }
      exists y. split; [done|]. split.
      * rewrite Hyx at 1. by destruct x.
      * intros Hnot. exfalso. apply Hnot. left.
    + destruct (IH (setAvailable s m) x) as (y & Hy & Hyx & Hout).
      { simpl. by rewrite list_lookup_alter_ne. }
      exists y. split; [done|]. split; [done|].
      intros Hnot. apply Hout. intros Hin. apply Hnot. by right.
Qed.

Lemma setIsAvailable_length (ms : list nat) (s : Sentence) :
  length (transformations (setIsAvailable ms s)) = length (transformations s).
Proof.
  revert s. induction ms as [|m ms IH]; intros s; [done|].
  unfold setIsAvailable in *. simpl. rewrite IH. simpl.
  by rewrite length_alter.
Qed.

(** Everything a successful operation does to the result. *)
Lemma perform_effect (persist : bool) (a : Action) (d d' : Data)
    (ss : list Sentence) (si ti : nat) (s : Sentence) (t : Transform) :
  target a = (si, ti) →
  rulesApplied d = Some ss →
  ss !! si = Some s →
  transformations s !! ti = Some t →
  sentenceIndex t = si →
  perform persist d a = Some (true, d') →
  ∃ ms toks s',
    (if refreshesGroup a t
     then replaceTokens (activeTokens s) (spliceOut a t) (spliceIn a t)
          = Some toks
          ∧ getOverlappingGroup s t = Some ms
     else toks = activeTokens s ∧ ms = [])
    ∧ d' = set_rulesApplied (<[si := s']> ss) d
    ∧ activeTokens s' = toks
    ∧ originalSentence s' = originalSentence s
    ∧ groups s' = groups s
    ∧ sentence_sentenceIndex s' = sentence_sentenceIndex s
    ∧ length (transformations s') = length (transformations s)
    ∧ transformations s' !! ti
      = Some (set_status (Some (statusAfter a))
                (set_isAvailable (flagAfter a) t))
    ∧ ∀ j x, j ≠ ti → transformations s !! j = Some x →
        ∃ y, transformations s' !! j = Some y
             ∧ y = set_isAvailable (isAvailable y) x
             ∧ (j ∈ ms →
                isAvailable y = tokensArePresent (tokensAffected x) toks)
             ∧ (j ∉ ms → y = x).
Proof.
  intros Hr Hss Hs Ht Hsi Hrun.
  destruct (perform_shape persist a d d' ss si ti s t Hr Hss Hs Ht Hsi Hrun)
    as (ms & toks & Hcase & Hd').
  set (s0 := set_activeTokens toks s).
  destruct (setIsAvailable_frame ms s0) as (Hact & Hgr & Horig & Hidx).
  pose proof (setIsAvailable_length ms s0) as Hlen.
  eexists ms, toks, _. split; [exact Hcase|]. split; [exact Hd'|].
  fold s0. simpl.
  split; [exact Hact|]. split; [exact Horig|]. split; [exact Hgr|].
  split; [exact Hidx|].
  split; [by rewrite !length_alter, Hlen|].
  split.
  - destruct (setIsAvailable_onlyFlag ms s0 ti t Ht) as (y & Hy & Hyx & _).
    rewrite !list_lookup_alter_eq, Hy. simpl. f_equal.
    rewrite Hyx. by destruct t.
  - intros j x Hne Hx.
    destruct (setIsAvailable_onlyFlag ms s0 j x Hx) as (y & Hy & Hyx & Hout).
    exists y. rewrite !list_lookup_alter_ne by done.
    split; [exact Hy|]. split; [exact Hyx|]. split; [|exact Hout].
    intros Hin.
    rewrite (setIsAvailable_exact ms s0 j y Hin Hy).
    unfold canMakeTransform. rewrite Hact, Hyx. done.
Qed.

(** X7. An operation that reports failure has changed nothing: neither
    [acceptCorrection], [rejectCorrection] nor [resetCorrection] on the
    result, nor the editor's accept, reject and undo on the editor state
    (result, history stack and cache). *)
Theorem refused_operation_changes_nothing (persist : bool) :
  (∀ d a d', perform persist d a = Some (false, d') → d' = d)
  ∧ (∀ e a e', editor_perform persist e a = Some (false, e') → e' = e).
Proof.
  split.
  - intros d a d'. apply perform_false.
  - intros e [r|r|] e'; simpl.
    + unfold editor_acceptCorrection.
      destruct (acceptCorrection (data e) r) as [[[|] d1]|]; simpl;
        [done|by intros [= <-]|done].
    + unfold editor_rejectCorrection.
      destruct (rejectCorrection (data e) r) as [[[|] d1]|]; simpl;
        [done|by intros [= <-]|done].
    + unfold undoLastTransform.
      case_bool_decide; [|by intros [= <-]].
      destruct (transformStack e !! _) as [r|]; simpl; [|done].
      destruct (resetCorrection persist (data e) r) as [[[|] d1]|]; simpl;
        [done|by intros [= <-]|done].
Qed.

Lemma refused_operation_changes_nothing_witness :
  ∃ d', perform true sample_d1 (Accept (0, 0)) = Some (false, d')
        ∧ d' = sample_d1.
Proof.
  eexists. split; [reflexivity|].
  apply (proj1 (refused_operation_changes_nothing true) sample_d1
           (Accept (0, 0))).
  reflexivity.
Defined.

(** X8. A successful accept, reject or reset on the transformation at
    position [ti] of sentence [si] (whose [sentenceIndex] is [si]) writes
    into that transformation its new status and the flag false (accept,
    reject) or true (reset) and nothing else.  The stream of the sentence
    becomes the result of [replaceTokens] when the transformation has a
    replacement and the operation is an accept (affected run replaced by
    the added tokens) or a reset (added run replaced by the affected
    tokens), and stays as it is otherwise; the original tokens, the
    groups and the index of the sentence stay, and so does [hasMeta]. *)
Theorem operation_effect (persist : bool) (a : Action) (d d' : Data)
    (ss : list Sentence) (si ti : nat) (s : Sentence) (t : Transform) :
  target a = (si, ti) →
  rulesApplied d = Some ss →
  ss !! si = Some s →
  transformations s !! ti = Some t →
  sentenceIndex t = si →
  perform persist d a = Some (true, d') →
  ∃ ss' s',
    rulesApplied d' = Some ss'
    ∧ hasMeta d' = hasMeta d
    ∧ ss' !! si = Some s'
    ∧ transformations s' !! ti
      = Some (set_status (Some (statusAfter a))
                (set_isAvailable (flagAfter a) t))
    ∧ (if refreshesGroup a t
       then replaceTokens (activeTokens s) (spliceOut a t) (spliceIn a t)
            = Some (activeTokens s')
       else activeTokens s' = activeTokens s)
    ∧ originalSentence s' = originalSentence s
    ∧ groups s' = groups s
    ∧ sentence_sentenceIndex s' = sentence_sentenceIndex s.
Proof.
  intros Hr Hss Hs Ht Hsi Hrun.
  destruct (perform_effect persist a d d' ss si ti s t Hr Hss Hs Ht Hsi Hrun)
    as (ms & toks & s' & Hcase & -> & Hact & Horig & Hgr & Hidx & _ & Ht'
        & _).
  exists (<[si := s']> ss), s'.
  split; [done|]. split; [done|].
  split; [apply list_lookup_insert_eq; by eapply lookup_lt_Some|].
  split; [exact Ht'|]. split; [|done].
  destruct (refreshesGroup a t).
  - destruct Hcase as [Htoks _]. by rewrite Hact.
  - destruct Hcase as [-> _]. done.
Qed.

Lemma operation_effect_witness :
  ∃ ss s t ss' s',
    rulesApplied sample_d0 = Some ss
    ∧ ss !! 0 = Some s
    ∧ transformations s !! 0 = Some t
    ∧ rulesApplied sample_d1 = Some ss'
    ∧ hasMeta sample_d1 = hasMeta sample_d0
    ∧ ss' !! 0 = Some s'
    ∧ transformations s' !! 0
      = Some (set_status (Some TRANSFORM_STATUS_ACCEPTED)
                (set_isAvailable false t))
    ∧ activeTokens s' = [have; be; befor].
Proof.
  eexists _, _, _.
  destruct (operation_effect true (Accept (0, 0)) sample_d0 sample_d1
              (default [] (rulesApplied sample_d0)) 0 0
              (default hzve_sentence (default [] (rulesApplied sample_d0) !! 0))
              (default (received [] [] false false)
                 (transformations
                    (default hzve_sentence
                       (default [] (rulesApplied sample_d0) !! 0)) !! 0)))
    as (ss' & s' & H1 & H2 & H3 & H4 & H5 & _); try reflexivity.
  exists ss', s'.
  split; [reflexivity|]. split; [reflexivity|]. split; [reflexivity|].
  split; [exact H1|]. split; [exact H2|]. split; [exact H3|].
  split; [exact H4|].
  assert (H5' : Some [have; be; befor] = Some (activeTokens s'))
    by exact H5.
  by injection H5' as <-.
Defined.

(** X9. A successful accept, reject or reset leaves every other sentence
    of the result untouched, and in the sentence of its transformation
    it leaves every other transformation as it was except for the
    [isAvailable] flag of the members of the transformation's group, which
    an accept or reset with a replacement sets to what [tokensArePresent]
    gives on the new stream. *)
Theorem operation_frame (persist : bool) (a : Action) (d d' : Data)
    (ss : list Sentence) (si ti : nat) (s : Sentence) (t : Transform) :
  target a = (si, ti) →
  rulesApplied d = Some ss →
  ss !! si = Some s →
  transformations s !! ti = Some t →
  sentenceIndex t = si →
  perform persist d a = Some (true, d') →
  ∃ ss' s',
    rulesApplied d' = Some ss'
    ∧ length ss' = length ss
    ∧ (∀ j, j ≠ si → ss' !! j = ss !! j)
    ∧ ss' !! si = Some s'
    ∧ length (transformations s') = length (transformations s)
    ∧ ∀ j x, j ≠ ti → transformations s !! j = Some x →
        if refreshesGroup a t
           && bool_decide (j ∈ default [] (getOverlappingGroup s t))
        then transformations s' !! j
             = Some (set_isAvailable
                       (tokensArePresent (tokensAffected x)
                          (activeTokens s')) x)
        else transformations s' !! j = Some x.
Proof.
  intros Hr Hss Hs Ht Hsi Hrun.
  destruct (perform_effect persist a d d' ss si ti s t Hr Hss Hs Ht Hsi Hrun)
    as (ms & toks & s' & Hcase & -> & Hact & _ & _ & _ & Hlen & _ & Hothers).
  exists (<[si := s']> ss), s'.
  split; [done|]. split; [by rewrite length_insert|].
  split; [by intros j Hj; rewrite list_lookup_insert_ne|].
  split; [apply list_lookup_insert_eq; by eapply lookup_lt_Some|].
  split; [done|].
  intros j x Hne Hx.
  destruct (Hothers j x Hne Hx) as (y & Hy & Hyx & Hin & Hout).
  destruct (refreshesGroup a t); simpl.
  - destruct Hcase as [_ ->]. simpl.
    case_bool_decide as Hj.
    + rewrite Hy. f_equal. rewrite Hyx, (Hin Hj), Hact. done.
    + by rewrite Hy, (Hout Hj).
  - destruct Hcase as [_ ->]. rewrite Hy, Hout; [done|]. apply not_elem_of_nil.
Qed.

Lemma operation_frame_witness :
  ∃ ss' s',
    rulesApplied sample_d1 = Some ss'
    ∧ length ss' = 2
    ∧ ss' !! 1 = default [] (rulesApplied sample_d0) !! 1
    ∧ ss' !! 0 = Some s'
    ∧ length (transformations s') = 3.
Proof.
  destruct (operation_frame true (Accept (0, 0)) sample_d0 sample_d1
              (default [] (rulesApplied sample_d0)) 0 0
              (default hzve_sentence (default [] (rulesApplied sample_d0) !! 0))
              (default (received [] [] false false)
                 (transformations
                    (default hzve_sentence
                       (default [] (rulesApplied sample_d0) !! 0)) !! 0)))
    as (ss' & s' & H1 & H2 & H3 & H4 & H5 & _); try reflexivity.
  exists ss', s'.
  split; [exact H1|]. split; [exact H2|]. split; [by apply H3|].
  split; [exact H4|exact H5].
Defined.

(** ** Round trips and texts *)



(** X10. An operation that does not splice (a reject, or an accept or
    reset of a transformation without replacement) leaves the token
    stream of every sentence, hence the current text of the job, as it
    was. *)
Theorem text_unchanged_without_splice (persist : bool) (a : Action)
    (d d' : Data) (ss : list Sentence) (si ti : nat) (s : Sentence)
    (t : Transform) :
  target a = (si, ti) →
  rulesApplied d = Some ss →
  ss !! si = Some s →
  transformations s !! ti = Some t →
  sentenceIndex t = si →
  refreshesGroup a t = false →
  perform persist d a = Some (true, d') →
  (∃ ss', rulesApplied d' = Some ss'
          ∧ activeTokens <$> ss' = activeTokens <$> ss)
  ∧ getCurrentText d' = getCurrentText d.
Proof.
  intros Hr Hss Hs Ht Hsi Hno Hrun.
  destruct (perform_effect persist a d d' ss si ti s t Hr Hss Hs Ht Hsi Hrun)
    as (ms & toks & s' & Hcase & -> & Hact & _).
  rewrite Hno in Hcase. destruct Hcase as [-> _].
  assert (Hsame : activeTokens <$> <[si := s']> ss = activeTokens <$> ss).
  { rewrite list_fmap_insert, Hact. apply list_insert_id.
    by rewrite list_lookup_fmap, Hs. }
  split; [by eexists|].
  unfold getCurrentText. rewrite Hss. simpl. do 2 f_equal.
  unfold getCurrentSentenceText.
  rewrite <- !(map_map activeTokens tokensToString).
  f_equal. exact Hsame.
Qed.

Lemma text_unchanged_without_splice_witness :
  ∃ d', perform true sample_d0 (Reject (0, 0)) = Some (true, d')
        ∧ getCurrentText d' = getCurrentText sample_d0.
Proof.
  eexists. split; [reflexivity|].
  eapply (text_unchanged_without_splice true (Reject (0, 0)) sample_d0 _
            (default [] (rulesApplied sample_d0)) 0 0
            (default hzve_sentence (default [] (rulesApplied sample_d0) !! 0))
            (default (received [] [] false false)
               (transformations
                  (default hzve_sentence
                     (default [] (rulesApplied sample_d0) !! 0)) !! 0)));
    reflexivity.
Defined.





(** ** Empty runs *)

(** X12. Operations on a transformation with a replacement whose run to
    cut out is empty throw, because [replaceTokens] reads [affected[0].id]
    after the empty run has passed [tokensArePresent]: accepting an
    available transformation that affects no token throws, and resetting
    an accepted transformation that added no token (a pure deletion)
    throws. *)
Theorem empty_run_operations_throw (persist : bool) (d : Data)
    (ss : list Sentence) (r : TRef) (t : Transform) :
  rulesApplied d = Some ss →
  deref ss r = Some t →
  hasReplacement t = true →
  (isAvailable t = true → tokensAffected t = [] →
   acceptCorrection d r = None)
  ∧ (isAccepted t = true → tokensAdded t = [] →
     resetCorrection persist d r = None).
Proof.
  intros Hss Hd Hrep. split.
  - intros Hav Hnil. unfold acceptCorrection.
    rewrite Hss. simpl. rewrite Hd. simpl. rewrite Hav.
    destruct (ss !! sentenceIndex t) as [s|] eqn:Hs; simpl; [|done].
    destruct (getTransformOffset ss t); simpl; [|done].
    unfold makeTransform. rewrite Hd. simpl. rewrite Hrep, Hs. simpl.
    by rewrite Hnil.
  - intros Hacc Hnil. unfold resetCorrection.
    rewrite Hss. simpl. rewrite Hd. simpl.
    unfold canUndoTransform. rewrite Hrep, Hacc. simpl.
    destruct (ss !! sentenceIndex t) as [s|] eqn:Hs; simpl; [|done].
    rewrite Hnil. simpl.
    unfold undoTransform. rewrite Hd. simpl. rewrite Hrep, Hs. simpl.
    by rewrite Hnil.
Qed.

Lemma empty_run_operations_throw_witness :
  resetCorrection true
    (mkData
       (Some [mkSentence [tokA; tokB] [tokB]
                [mkTransform [tokA] [] true false
                   (Some TRANSFORM_STATUS_ACCEPTED) false (Some 0) 0 0 0]
                {[0 := [0]]} 0])
       true)
    (0, 0)
  = None.
Proof.
  apply (proj2 (empty_run_operations_throw true
                  (mkData
                     (Some [mkSentence [tokA; tokB] [tokB]
                              [mkTransform [tokA] [] true false
                                 (Some TRANSFORM_STATUS_ACCEPTED) false
                                 (Some 0) 0 0 0]
                              {[0 := [0]]} 0])
                     true)
                  [mkSentence [tokA; tokB] [tokB]
                     [mkTransform [tokA] [] true false
                        (Some TRANSFORM_STATUS_ACCEPTED) false
                        (Some 0) 0 0 0]
                     {[0 := [0]]} 0]
                  (0, 0)
                  (mkTransform [tokA] [] true false
                     (Some TRANSFORM_STATUS_ACCEPTED) false (Some 0) 0 0 0)
                  eq_refl eq_refl eq_refl));
    reflexivity.
Defined.

(** ** Overlap tests *)

Lemma arraysOverlap_spec (a1 a2 : list Token) :
  arraysOverlap a1 a2 compareTokens = true
  ↔ ∃ x y, x ∈ a1 ∧ y ∈ a2 ∧ token_id x = token_id y.
Proof.
  unfold arraysOverlap, compareTokens. rewrite existsb_exists. split.
  - intros (x & Hx & Hex). apply existsb_exists in Hex as (y & Hy & Hxy).
    exists x, y. rewrite !list_elem_of_In. by apply Nat.eqb_eq in Hxy.
  - intros (x & y & Hx & Hy & Hxy). exists x.
    split; [by apply list_elem_of_In|].
    apply existsb_exists. exists y.
    split; [by apply list_elem_of_In|]. by apply Nat.eqb_eq.
Qed.

Lemma arraysOverlap_sym (a1 a2 : list Token) :
  arraysOverlap a1 a2 compareTokens = arraysOverlap a2 a1 compareTokens.
Proof.
  apply eq_true_iff_eq. rewrite !arraysOverlap_spec. split.
  - intros (x & y & ? & ? & ?). by exists y, x.
  - intros (x & y & ? & ? & ?). by exists y, x.
Qed.

(** X13. The unordered overlap test [transformsOverlap(t1, t2, false)]
    does not depend on the order of its two transformations, and whatever
    the ordered test used by the grouping finds, the unordered test finds
    too. *)
Theorem transformsOverlap_unordered (t1 t2 : Transform) :
  transformsOverlap t1 t2 false = transformsOverlap t2 t1 false
  ∧ (transformsOverlap t1 t2 true = true →
     transformsOverlap t1 t2 false = true).
Proof.
  unfold transformsOverlap. simpl. split.
  - rewrite (arraysOverlap_sym (tokensAffected t1) (tokensAffected t2)).
    destruct (arraysOverlap (tokensAffected t2) (tokensAffected t1) _);
      simpl; [done|].
    apply orb_comm.
  - rewrite orb_false_r. intros ->. done.
Qed.

Lemma everySameId_spec (tokens1 tokens2 : list Token) (index : nat) :
  length tokens1 + index = length tokens2 →
  everySameId tokens1 index tokens2
  = Some (bool_decide (token_id <$> tokens1
                       = token_id <$> drop index tokens2)).
Proof.
  revert index. induction tokens1 as [|x l IH]; intros index Hlen; simpl.
  - rewrite drop_ge by (simpl in Hlen; lia). done.
  - simpl in Hlen.
    destruct (lookup_lt_is_Some_2 tokens2 index) as [y Hy]; [lia|].
    rewrite Hy. simpl. rewrite (drop_S _ _ _ Hy), fmap_cons.
    destruct (token_id x =? token_id y) eqn:Hxy.
    + apply Nat.eqb_eq in Hxy. rewrite IH by lia. f_equal.
      apply bool_decide_ext. rewrite Hxy. split.
      * intros Heq. f_equal. exact Heq.
      * intros Heq. by injection Heq.
    + apply Nat.eqb_neq in Hxy. f_equal. symmetry.
      apply bool_decide_eq_false. by intros [= ? _].
Qed.

(** The value of [affectsSameTokens]. *)
Lemma affectsSameTokens_value (transform1 transform2 : Transform) :
  affectsSameTokens transform1 transform2
  = Some (bool_decide
            (sentenceIndex transform1 = sentenceIndex transform2
             ∧ token_id <$> tokensAffected transform1
               = token_id <$> tokensAffected transform2)).
Proof.
  unfold affectsSameTokens.
  destruct (sentenceIndex transform1 =? sentenceIndex transform2) eqn:Hs;
    simpl.
  - apply Nat.eqb_eq in Hs.
    destruct (length (tokensAffected transform1)
              =? length (tokensAffected transform2)) eqn:Hl.
    + apply Nat.eqb_eq in Hl. rewrite everySameId_spec by lia.
      rewrite drop_0. f_equal. apply bool_decide_ext. tauto.
    + apply Nat.eqb_neq in Hl. f_equal. symmetry.
      apply bool_decide_eq_false. intros [_ Hids]. apply Hl.
      by rewrite <- (length_fmap token_id (tokensAffected transform1)), Hids,
        length_fmap.
  - apply Nat.eqb_neq in Hs. f_equal. symmetry.
    apply bool_decide_eq_false. by intros [? _].
Qed.

(** X14. [pt.affectsSameTokens] never throws, and it answers true exactly
    when the two transformations carry the same [sentenceIndex] and their
    affected tokens have the same ids in the same order. *)
Theorem affectsSameTokens_spec (transform1 transform2 : Transform) :
  affectsSameTokens transform1 transform2
  = Some (bool_decide
            (sentenceIndex transform1 = sentenceIndex transform2
             ∧ token_id <$> tokensAffected transform1
               = token_id <$> tokensAffected transform2)).
Proof. apply affectsSameTokens_value. Qed.

(** ** The editor's history stack and cache *)

Lemma editor_perform_keeps (persist : bool) (e e' : Editor)
    (a : EditorAction) (ok : bool) :
  editor_perform persist e a = Some (ok, e') →
  transStackSize e = length (transformStack e) →
  updateAvailableCache e = e →
  transStackSize e' = length (transformStack e')
  ∧ updateAvailableCache e' = e'
  ∧ flattenedTransforms e' = flattenedTransforms e
  ∧ ignoreNoReplacement e' = ignoreNoReplacement e.
Proof.
  intros Hrun Hsize Hcache.
  destruct a as [r|r|]; simpl in Hrun.
  - unfold editor_acceptCorrection in Hrun.
    destruct (acceptCorrection (data e) r) as [[[|] d1]|]; simpl in Hrun;
      [|injection Hrun as <- <-; done|done].
    injection Hrun as <- <-. simpl.
    split; [rewrite length_app; simpl; lia|done].
  - unfold editor_rejectCorrection in Hrun.
    destruct (rejectCorrection (data e) r) as [[[|] d1]|]; simpl in Hrun;
      [|injection Hrun as <- <-; done|done].
    injection Hrun as <- <-. simpl.
    split; [rewrite length_app; simpl; lia|done].
  - unfold undoLastTransform in Hrun.
    case_bool_decide as Hpos; [|injection Hrun as <- <-; done].
    destruct (transformStack e !! _) as [r|]; simpl in Hrun; [|done].
    destruct (resetCorrection persist (data e) r) as [[[|] d1]|];
      simpl in Hrun; [|injection Hrun as <- <-; done|done].
    injection Hrun as <- <-. simpl.
    split; [|done].
    destruct (transformStack e) as [|x l] using rev_ind;
      [simpl in *; lia|].
    rewrite removelast_last, Hsize, length_app. simpl. lia.
Qed.

(** X15. In every state the editor reaches from [pt.interactiveEditor]
    through accept, reject and undo-last calls, successful or refused,
    [transStackSize] is the length of the history stack, the cache behind
    [getAllAvailableTransforms] is up to date with the result (recomputing
    it changes nothing), and the flattened list of transformations and the
    [ignoreNoReplacement] option are those of the start. *)
Theorem editor_stack_and_cache (persist : bool) (d : Data) (b : bool)
    (e0 e : Editor) (l : list EditorAction) :
  interactiveEditor d b = Some e0 →
  editor_session persist e0 l = Some e →
  transStackSize e = length (transformStack e)
  ∧ updateAvailableCache e = e
  ∧ flattenedTransforms e = flattenedTransforms e0
  ∧ ignoreNoReplacement e = b.
Proof.
  intros Hinit.
  assert (H0 : transStackSize e0 = length (transformStack e0)
               ∧ updateAvailableCache e0 = e0
               ∧ ignoreNoReplacement e0 = b).
  { unfold interactiveEditor in Hinit.
    destruct (ensureMetaData d) as [d1|]; simpl in Hinit; [|done].
    destruct (rulesApplied d1) as [ss|]; simpl in Hinit; [|done].
    by injection Hinit as <-. }
  clear Hinit. destruct H0 as (Hsize & Hcache & Hb).
  assert (Hgen : ∀ e1,
            transStackSize e1 = length (transformStack e1) →
            updateAvailableCache e1 = e1 →
            editor_session persist e1 l = Some e →
            transStackSize e = length (transformStack e)
            ∧ updateAvailableCache e = e
            ∧ flattenedTransforms e = flattenedTransforms e1
            ∧ ignoreNoReplacement e = ignoreNoReplacement e1).
  { clear. induction l as [|a l IH]; intros e1 Hsize Hcache Hrun;
      simpl in Hrun.
    - by injection Hrun as <-.
    - destruct (editor_perform persist e1 a) as [[ok e2]|] eqn:Hstep;
        [|done].
      destruct (editor_perform_keeps _ _ _ _ _ Hstep Hsize Hcache)
        as (Hsize2 & Hcache2 & Hflat2 & Hign2).
      destruct (IH e2 Hsize2 Hcache2 Hrun) as (? & ? & -> & ->). done. }
  intros Hrun.
  destruct (Hgen e0 Hsize Hcache Hrun) as (? & ? & ? & ->). done.
Qed.

Lemma editor_stack_and_cache_witness :
  transStackSize sample_e1 = length (transformStack sample_e1)
  ∧ updateAvailableCache sample_e1 = sample_e1
  ∧ flattenedTransforms sample_e1 = flattenedTransforms sample_e0
  ∧ ignoreNoReplacement sample_e1 = false.
Proof.
  apply (editor_stack_and_cache true sample_raw false sample_e0 sample_e1
           [EAccept (0, 0); EReject (0, 0); EUndoLast]).
  - vm_compute. reflexivity.
  - vm_compute. reflexivity.
Defined.



(** ** [applyAll] *)

(** What [getNextTransform] hands out when [hasNextTransform] holds comes
    from the cache. *)
Lemma next_in_cache (ignoreSuggestions : bool) (e : Editor) :
  hasNextTransform ignoreSuggestions e = true →
  ∃ r, getNextTransform ignoreSuggestions e = Some r
       ∧ In r (allAvailableTransforms e).
Proof.
  unfold hasNextTransform, getNextTransform.
  destruct ignoreSuggestions.
  - intros H. apply bool_decide_eq_true in H.
    destruct (getNextNonSuggestion e) as [r|] eqn:Hr; [|done].
    exists r. split; [done|]. unfold getNextNonSuggestion in Hr.
    by destruct (find_some _ _ Hr).
  - intros H. apply bool_decide_eq_true in H.
    destruct (allAvailableTransforms e) as [|r l]; [simpl in H; lia|].
    exists r. split; [done|]. by left.
Qed.

(** With an up-to-date cache, what the cache holds is available, so
    accepting it is not refused. *)
Lemma accept_from_cache (e : Editor) (r : TRef) (ok : bool) (e1 : Editor) :
  updateAvailableCache e = e →
  In r (allAvailableTransforms e) →
  editor_acceptCorrection e r = Some (ok, e1) →
  ok = true
  ∧ acceptCorrection (data e) r = Some (true, data e1)
  ∧ transformStack e1 = transformStack e ++ [r].
Proof.
  intros Hcache Hin. rewrite <- Hcache in Hin. simpl in Hin.
  apply filter_In in Hin as [_ Hoff].
  unfold onRef in Hoff.
  destruct (rulesApplied (data e)) as [ss|] eqn:Hss; simpl in Hoff; [|done].
  destruct (deref ss r) as [t|] eqn:Ht; [|done].
  apply andb_true_iff in Hoff as [Hav _].
  unfold editor_acceptCorrection.
  destruct (acceptCorrection (data e) r) as [[[|] d1]|] eqn:Hacc; simpl;
    [by intros [= <- <-]| |done].
  exfalso. unfold acceptCorrection in Hacc.
  rewrite Hss in Hacc. simpl in Hacc. rewrite Ht in Hacc. simpl in Hacc.
  rewrite Hav in Hacc.
  destruct (ss !! sentenceIndex t); simpl in Hacc; [|done].
  destruct (getTransformOffset ss t); simpl in Hacc; [|done].
  destruct (makeTransform _ _ _); simpl in Hacc; done.
Qed.

(** X17. [editor.applyAll]: started with the stack counter and the cache
    as the editor keeps them, a run that returns is a sequence of accepts
    that all succeeded; the result at the end is the result of accepting
    the transformations of the calls in order, the history stack has grown
    by exactly those calls, and nothing is left that
    [hasNextTransform] would offer (with [ignoreSuggestions] false the
    cache of available transformations is empty). *)
Theorem applyAll_is_a_session (fuel : nat) (ignoreSuggestions : bool)
    (e e' : Editor) (calls : list TRef) :
  transStackSize e = length (transformStack e) →
  updateAvailableCache e = e →
  applyAll fuel ignoreSuggestions e = (Returned e', calls) →
  session true (data e) (Accept <$> calls) = Some (data e')
  ∧ transformStack e' = transformStack e ++ calls
  ∧ hasNextTransform ignoreSuggestions e' = false
  ∧ (ignoreSuggestions = false → allAvailableTransforms e' = []).
Proof.
  revert e calls.
  induction fuel as [|fuel IH]; intros e calls Hsize Hcache; simpl; [done|].
  destruct (hasNextTransform ignoreSuggestions e) eqn:Hnext.
  - destruct (next_in_cache _ _ Hnext) as (r & Hr & Hin). rewrite Hr.
    destruct (editor_acceptCorrection e r) as [[ok e1]|] eqn:Hstep; [|done].
    destruct (accept_from_cache e r ok e1 Hcache Hin Hstep)
      as (-> & Hacc & Hstack).
    destruct (editor_perform_keeps true e e1 (EAccept r) true Hstep
                Hsize Hcache) as (Hsize1 & Hcache1 & _).
    destruct (applyAll fuel ignoreSuggestions e1) as [o calls1] eqn:Hrun.
    intros [= -> <-].
    destruct (IH e1 calls1 Hsize1 Hcache1 Hrun) as (Hses & Hst & Hno & Hemp).
    rewrite fmap_cons. simpl. rewrite Hacc.
    split; [done|]. split; [|done].
    by rewrite Hst, Hstack, <- app_assoc.
  - intros [= <- <-]. simpl. rewrite app_nil_r.
    split; [done|]. split; [done|]. split; [done|].
    intros ->. unfold hasNextTransform in Hnext.
    apply bool_decide_eq_false in Hnext.
    destruct (allAvailableTransforms e); [done|simpl in Hnext; lia].
Qed.

Lemma applyAll_is_a_session_witness :
  session true (data sample_e0)
    (Accept <$> [(0, 0); (0, 1); (0, 2); (1, 0)])
  = Some (data sample_e2)
  ∧ transformStack sample_e2
    = transformStack sample_e0 ++ [(0, 0); (0, 1); (0, 2); (1, 0)]
  ∧ hasNextTransform true sample_e2 = false
  ∧ (true = false → allAvailableTransforms sample_e2 = []).
Proof.
  apply (applyAll_is_a_session 5 true sample_e0 sample_e2
           [(0, 0); (0, 1); (0, 2); (1, 0)]).
  - vm_compute. reflexivity.
  - vm_compute. reflexivity.
  - vm_compute. reflexivity.
Defined.

(** The loop of [applyAll] stops whichever flag it is given: every accept
    makes the streams lighter or leaves them and uses up a pending
    transformation. *)
Lemma applyAll_stops K M ρ (ignoreSuggestions : bool) (a b c : nat) :
  ∀ e ss,
    editorReady K M ρ e ss →
    totalWeight K M ρ ss ≤ a →
    totalReplacing ss ≤ b →
    totalRemarks ss ≤ c →
    ∃ fuel e' calls,
      applyAll fuel ignoreSuggestions e = (Returned e', calls).
Proof.
  revert b c.
  induction a as [a IHa] using lt_wf_ind. intros b.
  induction b as [b IHb] using lt_wf_ind. intros c.
  induction c as [c IHc] using lt_wf_ind.
  intros e ss (Hss & Hwf & Hcache) Ha Hb Hc.
  destruct (hasNextTransform ignoreSuggestions e) eqn:Hnext; cycle 1.
  { exists 1, e, []. simpl. by rewrite Hnext. }
  destruct (next_in_cache _ _ Hnext) as (r & Hr & Hin).
  rewrite Hcache in Hin. apply filter_In in Hin as [_ Hoff].
  destruct (onRef_true _ _ _ Hoff) as (t & Ht & Hoffered).
  apply andb_true_iff in Hoffered as [Hav _].
  destruct r as [si ti]. unfold deref in Ht. simpl in Ht.
  destruct (ss !! si) as [s|] eqn:Hs; simpl in Ht; [|done].
  destruct (Hwf si s ti t Hs Ht)
    as (Hsi & (g & members & Hg & Hms) & Hne & Hrank).
  destruct (acceptCorrection_unfold _ _ si ti s t g members
              Hss Hs Ht Hav Hsi Hg Hms Hne) as (toks & Htoks & Hacc).
  destruct (accepted_decreases K M ρ s ti t
              (if hasReplacement t then members else []) toks
              Ht Hav (λ _, Hne) Hrank) as (Hgr & HF & Hdec).
  { by destruct (hasReplacement t). }
  set (s' := updTransform _ ti (updTransform _ ti _)) in *.
  set (ss' := <[si := s']> ss) in *.
  set (d' := set_rulesApplied ss' (data e)) in *.
  set (e1 := mkEditor d' (ignoreNoReplacement e) (flattenedTransforms e)
               (transformStack e ++ [(si, ti)]) (transStackSize e + 1)
               (List.filter (onRef (Some ss')
                               (offered (ignoreNoReplacement e)))
                            (flattenedTransforms e))).
  assert (Hstep : editor_acceptCorrection e (si, ti) = Some (true, e1)).
  { unfold editor_acceptCorrection. rewrite Hacc. done. }
  assert (Hready : editorReady K M ρ e1 ss').
  { split; [done|]. split; [|done]. by eapply wfStore_insert. }
  pose proof (sum_list_with_insert
                (λ s, streamWeight K M ρ (activeTokens s)) ss si s s' Hs) as HA.
  pose proof (sum_list_with_insert pendingReplacing ss si s s' Hs) as HB.
  pose proof (sum_list_with_insert pendingRemarks ss si s s' Hs) as HC.
  cbv beta in HA.
  fold (totalWeight K M ρ ss) in HA. fold (totalReplacing ss) in HB.
  fold (totalRemarks ss) in HC.
  fold ss' in HA, HB, HC.
  fold (totalWeight K M ρ ss') in HA. fold (totalReplacing ss') in HB.
  fold (totalRemarks ss') in HC.
  assert (Hrec : ∃ fuel e' calls,
             applyAll fuel ignoreSuggestions e1 = (Returned e', calls)).
  { destruct Hdec as [Hlt|[Hact [Hlt|[Hle Hlt]]]].
    - eapply (IHa (totalWeight K M ρ ss')); [lia|done|lia|done..].
    - rewrite Hact in HA.
      eapply (IHb (totalReplacing ss')); [lia|done|lia|done..].
    - rewrite Hact in HA.
      eapply (IHc (totalRemarks ss')); [lia|done|lia|lia|done]. }
  destruct Hrec as (fuel & e' & calls & Hrun).
  exists (S fuel), e', ((si, ti) :: calls).
  simpl. by rewrite Hnext, Hr, Hstep, Hrun.
Qed.

(** X18. On a result as received from the service (transformations not
    yet grouped, each affecting at least one token, inserted ids fresh:
    ranked by [ρ] strictly above the ids removed), in every state the
    editor on the initialized result reaches through accept, reject and
    undo-last calls, [editor.applyAll] finishes after finitely many turns
    and returns normally, with [ignoreSuggestions] false as well as
    true. *)
Theorem applyAll_terminates (ρ : nat → nat) (d : Data) (ss : list Sentence)
    (ignoreNoReplacement : bool) :
  rulesApplied d = Some ss →
  wellReceived ρ ss = true →
  ∃ d' e,
    setMetaData d = Some d'
    ∧ interactiveEditor d' ignoreNoReplacement = Some e
    ∧ ∀ persist l e1 ignoreSuggestions,
        editor_session persist e l = Some e1 →
        ∃ fuel e' calls,
          applyAll fuel ignoreSuggestions e1 = (Returned e', calls).
Proof.
  intros Hss Hrecv.
  destruct (setMetaData_wellFormed ρ d ss Hss Hrecv)
    as (d' & ss' & K & M & Hinit & Hss' & Hmeta & Hwf).
  set (stack := List.filter (onRef (Some ss') (λ t, negb (isClean t)))
                            (flatten ss')).
  set (e := updateAvailableCache
              (mkEditor d' ignoreNoReplacement (flatten ss') stack
                        (length stack) [])).
  assert (He : interactiveEditor d' ignoreNoReplacement = Some e).
  { unfold interactiveEditor, ensureMetaData. rewrite Hmeta. simpl.
    by rewrite Hss'. }
  assert (Hready : editorReady K M ρ e ss').
  { split; [done|]. split; [done|]. unfold e, updateAvailableCache. simpl.
    by rewrite Hss'. }
  exists d', e. split; [done|]. split; [done|].
  intros persist l e1 ignoreSuggestions Hsession.
  destruct (editor_session_ready K M ρ persist l e e1 ss' Hready Hsession)
    as [ss1 Hready1].
  exact (applyAll_stops K M ρ ignoreSuggestions _ _ _ e1 ss1 Hready1
           (le_n _) (le_n _) (le_n _)).
Qed.

Lemma applyAll_terminates_witness :
  ∃ d' e,
    setMetaData sample_raw = Some d'
    ∧ interactiveEditor d' false = Some e
    ∧ ∀ persist l e1 ignoreSuggestions,
        editor_session persist e l = Some e1 →
        ∃ fuel e' calls,
          applyAll fuel ignoreSuggestions e1 = (Returned e', calls).
Proof.
  apply (applyAll_terminates (λ n, n) sample_raw
           [hzve_sentence; remark_sentence] false eq_refl eq_refl).
Defined.

(** ** What [setMetaData] writes *)

(** An invariant of the sentence that the two writes of the group search
    keep holds when the search is over. *)
Section groupSearch_invariant.
Variable Inv : Sentence → Prop.
Variable gid : nat.
Hypothesis Inv_assign :
  ∀ s next x,
    Inv s → transformations s !! next = Some x → groupId x = None →
    Inv (set_groups (alter (λ members, members ++ [next]) gid (groups s))
           (updTransform (set_groupId (Some gid)) next s)).
Hypothesis Inv_scan :
  ∀ s i x,
    Inv s → transformations s !! i = Some x →
    Inv (updTransform (set_indexInSentence i) i s).

Lemma scan_invariant (nextInGroup : Transform) (l : list nat) :
  ∀ s q s' q',
    Inv s →
    forEachM (scanStep nextInGroup) l (s, q) = Some (s', q') →
    Inv s'.
Proof.
  induction l as [|i l IH]; intros s q s' q' HI; simpl.
  - by intros [= <- _].
  - unfold scanStep at 1.
    destruct (transformations s !! i) as [x|] eqn:Hx; simpl; [|done].
    destruct (_ && _); intros Hr; eapply IH; try exact Hr;
      by eapply Inv_scan.
Qed.

Lemma groupSearch_invariant (n fuel : nat) :
  ∀ queue s s',
    Inv s → groupSearch fuel gid n queue s = Some s' → Inv s'.
Proof.
  induction fuel as [|fuel IH]; intros [|next queue] s s' HI; simpl;
    try done; try by intros [= <-].
  destruct (transformations s !! next) as [x|] eqn:Hx; simpl; [|done].
  destruct (groupId x) eqn:Hg.
  - by apply IH.
  - destruct (forEachM _ _ _) as [[s2 q2]|] eqn:Hscan; simpl; [|done].
    apply IH. eapply scan_invariant; [|exact Hscan].
    by eapply Inv_assign.
Qed.
End groupSearch_invariant.

Lemma forEachM_app {A St} (f : St → A → option St) (l1 l2 : list A)
    (s : St) :
  forEachM f (l1 ++ l2) s = forEachM f l1 s ≫= forEachM f l2.
Proof.
  revert s. induction l1 as [|x l1 IH]; intros s; simpl; [done|].
  destruct (f s x); simpl; [apply IH|done].
Qed.

(** A write into the object at position [i] that keeps its relation to
    the received transformation keeps the state of the sentence. *)
Lemma sentenceState_upd (sentIndex c0 : nat) (l0 : list Transform)
    (o : list Token) (k k' : nat) (A : list Token) (s : Sentence)
    (f : Transform → Transform) (i : nat) :
  sentenceState sentIndex c0 l0 o k A s →
  (∀ j x y, j ≠ i → visitedAs sentIndex c0 k j x y →
            visitedAs sentIndex c0 k' j x y) →
  (∀ x y, visitedAs sentIndex c0 k i x y →
          visitedAs sentIndex c0 k' i x (f y)) →
  sentenceState sentIndex c0 l0 o k' A (updTransform f i s).
Proof.
  intros (Ho & Hi & HA & Hlen & Hall) Hother Hat.
  split; [done|]. split; [done|]. split; [done|].
  split; [simpl; by rewrite length_alter|].
  intros j x Hx. destruct (Hall j x Hx) as (y & Hy & Hv). simpl.
  destruct (decide (j = i)) as [->|Hne].
  - exists (f y). rewrite list_lookup_alter_eq, Hy. split; [done|].
    by apply Hat.
  - exists y. rewrite list_lookup_alter_ne by done. split; [done|].
    by apply Hother.
Qed.

Lemma sentenceState_groups (sentIndex c0 : nat) (l0 : list Transform)
    (o : list Token) (k : nat) (A : list Token) (s : Sentence)
    (gs : gmap nat (list nat)) :
  sentenceState sentIndex c0 l0 o k A s →
  sentenceState sentIndex c0 l0 o k A (set_groups gs s).
Proof. by intros (? & ? & ? & ? & ?). Qed.

Lemma visitedAs_groupId sentIndex c0 k j x y g :
  visitedAs sentIndex c0 k j x y →
  visitedAs sentIndex c0 k j x (set_groupId g y).
Proof. unfold visitedAs. by destruct (bool_decide _). Qed.

Lemma visitedAs_indexInSentence sentIndex c0 k j x y :
  visitedAs sentIndex c0 k j x y →
  visitedAs sentIndex c0 k j x (set_indexInSentence j y).
Proof.
  unfold visitedAs. destruct (bool_decide _); [|done].
  intros (?&?&?&?&?&?&?&?). by repeat split.
Qed.

(** The group search keeps the state of the sentence. *)
Lemma groupSearch_state (sentIndex c0 : nat) (l0 : list Transform)
    (o : list Token) (k : nat) (A : list Token) (gid n fuel : nat)
    (queue : list nat) (s s' : Sentence) :
  sentenceState sentIndex c0 l0 o k A s →
  groupSearch fuel gid n queue s = Some s' →
  sentenceState sentIndex c0 l0 o k A s'.
Proof.
  apply (groupSearch_invariant (sentenceState sentIndex c0 l0 o k A) gid).
  - intros s1 next x HI _ _. apply sentenceState_groups.
    eapply sentenceState_upd; [exact HI|done|].
    intros x0 y. apply visitedAs_groupId.
  - intros s1 i x HI _.
    eapply sentenceState_upd; [exact HI|done|].
    intros x0 y. apply visitedAs_indexInSentence.
Qed.

Lemma sentenceState_activeTokens (sentIndex c0 : nat) (l0 : list Transform)
    (o : list Token) (k : nat) (A A' : list Token) (s : Sentence) :
  sentenceState sentIndex c0 l0 o k A s →
  sentenceState sentIndex c0 l0 o k A' (set_activeTokens A' s).
Proof. by intros (? & ? & ? & ? & ?). Qed.

(** One turn of the loop over the transformations of a sentence. *)
Lemma initTransform_state (sentIndex c0 : nat) (l0 : list Transform)
    (o : list Token) (k : nat) (A : list Token) (n : nat)
    (s : Sentence) (gc : nat) (st' : Sentence * nat * nat) :
  sentenceState sentIndex c0 l0 o k A s →
  replayTokens (take k l0) o = Some A →
  k < length l0 →
  initTransform sentIndex n (s, gc, c0 + k) k = Some st' →
  ∃ A', sentenceState sentIndex c0 l0 o (S k) A' st'.1.1
        ∧ replayTokens (take (S k) l0) o = Some A'
        ∧ st'.2 = c0 + S k.
Proof.
  intros Hstate Hreplay Hk.
  destruct (lookup_lt_is_Some_2 l0 k Hk) as [x Hx].
  destruct Hstate as (Ho & Hi & HA & Hlen & Hall).
  destruct (Hall k x Hx) as (y & Hy & Hv).
  unfold visitedAs in Hv. rewrite bool_decide_eq_false_2 in Hv by lia.
  destruct Hv as (Haff & Hadd & Hrep & Hsug & Hst).
  unfold initTransform.
  set (F := λ t : Transform, match status _ with None => _ | Some _ => _ end).
  set (s1 := updTransform F k s).
  assert (HF : indexedAs sentIndex k (c0 + k) x (F y)).
  { unfold F, indexedAs. simpl. rewrite <- Hst.
    destruct (status y) eqn:Hsy; simpl; by repeat split. }
  assert (Hs1 : sentenceState sentIndex c0 l0 o (S k) A s1).
  { eapply (sentenceState_upd sentIndex c0 l0 o k (S k)).
    - by repeat split.
    - intros j x0 y0 Hne. unfold visitedAs.
      destruct (decide (j < k)).
      + by rewrite !bool_decide_eq_true_2 by lia.
      + by rewrite !bool_decide_eq_false_2 by lia.
    - intros x0 y0. unfold visitedAs.
      rewrite bool_decide_eq_false_2 by lia.
      rewrite bool_decide_eq_true_2 by lia.
      intros (Haff0 & Hadd0 & Hrep0 & Hsug0 & Hst0).
      unfold F, indexedAs. simpl. rewrite <- Hst0.
      destruct (status y0) eqn:Hsy0; simpl; by repeat split. }
  assert (Hl1 : transformations s1 !! k = Some (F y))
    by (simpl; by rewrite list_lookup_alter_eq, Hy).
  rewrite Hl1. cbn -[groupSearch].
  destruct HF as (Haff1 & Hadd1 & Hrep1 & _ & Hst1 & _).
  assert (Hacc : isAccepted (F y) = isAccepted x).
  { unfold isAccepted. rewrite Hst1. by destruct (status x). }
  assert (Hs1A : activeTokens s1 = A) by (by destruct Hs1 as (_ & _ & ? & _)).
  assert (Hupd : updateActiveTokens s1 (F y)
                 = A' ← replayStep A x; Some (set_activeTokens A' s1)).
  { unfold updateActiveTokens, replayStep.
    rewrite Hrep1, Hacc, Haff1, Hadd1, Hs1A.
    destruct (_ && _); [done|]. simpl.
    by rewrite <- Hs1A, set_activeTokens_same. }
  rewrite Hupd.
  destruct (replayStep A x) as [A'|] eqn:HA'; cbn -[groupSearch]; [|done].
  assert (Hrep' : replayTokens (take (S k) l0) o = Some A').
  { unfold replayTokens in *.
    rewrite (take_S_r _ _ _ Hx), forEachM_app, Hreplay. simpl.
    by rewrite HA'. }
  pose proof (sentenceState_activeTokens _ _ _ _ _ _ A' _ Hs1) as Hs2.
  destruct (groupId (F y)).
  - intros [= <-]. exists A'. simpl. split; [done|]. split; [done|lia].
  - destruct (groupSearch _ _ _ _ _) as [s4|] eqn:Hs4; cbn -[groupSearch];
      [|done].
    intros [= <-]. exists A'. simpl. split; [|split; [done|lia]].
    eapply groupSearch_state; [|exact Hs4].
    by apply sentenceState_groups.
Qed.

(** A sentence after its turn of the outer loop. *)
Lemma initSentence_initialized (sentIndex c : nat) (s s' : Sentence)
    (c' : nat) :
  initSentence sentIndex c s = Some (s', c') →
  initializedAs sentIndex c s s' ∧ c' = c + length (transformations s).
Proof.
  unfold initSentence.
  set (s0 := set_groups ∅ _).
  change (transformations s0) with (transformations s).
  set (n := length (transformations s)).
  set (l0 := transformations s). set (o := originalSentence s).
  destruct (forEachM _ _ _) as [[[s1 gc1] c1]|] eqn:Hrun; simpl; [|done].
  intros [= <- <-].
  pose proof (forEachM_seq_inv
                (λ k (st : Sentence * nat * nat),
                   ∃ A, sentenceState sentIndex c l0 o k A st.1.1
                        ∧ replayTokens (take k l0) o = Some A
                        ∧ st.2 = c + k)
                (initTransform sentIndex n) n 0 (s0, 0, c) (s1, gc1, c1))
    as Hinv.
  destruct Hinv as (A & Hstate & Hreplay & Hc); [| |exact Hrun|].
  - exists o. simpl. split; [|split; [done|lia]].
    split; [done|]. split; [done|]. split; [done|]. split; [done|].
    intros j x Hx. exists x. split; [done|].
    unfold visitedAs. rewrite bool_decide_eq_false_2 by lia.
    by repeat split.
  - intros k [[s2 gc2] c2] st3 Hk (A & Hstate & Hreplay & Hc) Hstep.
    simpl in Hstate, Hc. subst c2.
    apply (initTransform_state sentIndex c l0 o k A n s2 gc2 st3 Hstate
             Hreplay); [|exact Hstep]. unfold n, l0 in *. lia.
  - simpl in Hstate, Hreplay, Hc.
    destruct Hstate as (Ho & Hi & HA & Hlen & Hall).
    destruct (setIsAvailable_frame (seq 0 n) s1) as (Hact & _ & Horig & Hidx).
    split; [|subst c1; unfold n; lia].
    split; [by rewrite Horig|]. split; [by rewrite Hidx|].
    split.
    { rewrite Hact, HA. rewrite take_ge in Hreplay by (unfold n, l0; lia).
      exact Hreplay. }
    split; [by rewrite setIsAvailable_length|].
    intros j x Hx. destruct (Hall j x Hx) as (y & Hy & Hv).
    destruct (setIsAvailable_onlyFlag (seq 0 n) s1 j y Hy)
      as (y' & Hy' & Hyy & _).
    exists y'. split; [done|].
    unfold visitedAs in Hv. apply lookup_lt_Some in Hx.
    rewrite bool_decide_eq_true_2 in Hv by (unfold n, l0; lia).
    rewrite Hyy. destruct Hv as (?&?&?&?&?&?&?&?). by repeat split.
Qed.

Lemma initSentences_initialized (ss : list Sentence) :
  ∀ sentIndex c ss',
    initSentences sentIndex c ss = Some ss' →
    length ss' = length ss
    ∧ ∀ k s, ss !! k = Some s →
        ∃ s', ss' !! k = Some s'
              ∧ initializedAs (sentIndex + k) (c + transformsBefore ss k)
                  s s'.
Proof.
  induction ss as [|s0 rest IH]; intros sentIndex c ss'; simpl.
  - intros [= <-]. split; [done|]. by intros k s.
  - destruct (initSentence sentIndex c s0) as [[s0' c0']|] eqn:Hs0;
      simpl; [|done].
    destruct (initSentences (S sentIndex) c0' rest) as [rest'|] eqn:Hrest;
      simpl; [|done].
    intros [= <-].
    destruct (initSentence_initialized _ _ _ _ _ Hs0) as [Hinit ->].
    destruct (IH _ _ _ Hrest) as [Hlen Hall].
    split; [simpl; by rewrite Hlen|].
    intros [|k] s Hk; simpl in Hk.
    + injection Hk as <-. exists s0'. split; [done|].
      unfold transformsBefore. simpl. by rewrite !Nat.add_0_r.
    + destruct (Hall k s Hk) as (s' & Hs' & Hinit').
      exists s'. split; [done|].
      unfold transformsBefore in *. simpl.
      replace (sentIndex + S k) with (S sentIndex + k) by lia.
      by rewrite Nat.add_assoc.
Qed.

(** X19. [setMetaData] on a result with sentences returns a result with
    [hasMeta] set and as many sentences, and for the sentence at index [k]
    it keeps the original tokens and the number of transformations, sets
    [sentenceIndex] to [k], and turns the transformation at position [j]
    into one with the same content, the status it had (clean when it had
    none), [sentenceIndex] [k], [indexInSentence] [j] and [transformIndex]
    the number of transformations in the sentences before plus [j]. *)
Theorem setMetaData_indices (d d' : Data) (ss : list Sentence) :
  rulesApplied d = Some ss →
  setMetaData d = Some d' →
  ∃ ss',
    rulesApplied d' = Some ss'
    ∧ hasMeta d' = true
    ∧ length ss' = length ss
    ∧ ∀ k s, ss !! k = Some s →
        ∃ s', ss' !! k = Some s'
              ∧ originalSentence s' = originalSentence s
              ∧ sentence_sentenceIndex s' = k
              ∧ length (transformations s') = length (transformations s)
              ∧ ∀ j x, transformations s !! j = Some x →
                  ∃ y, transformations s' !! j = Some y
                       ∧ indexedAs k j (transformsBefore ss k + j) x y.
Proof.
  intros Hss. unfold setMetaData. rewrite Hss.
  destruct (initSentences 0 0 ss) as [ss'|] eqn:Hrun; simpl; [|done].
  intros [= <-]. exists ss'. split; [done|]. split; [done|].
  destruct (initSentences_initialized ss 0 0 ss' Hrun) as [Hlen Hall].
  split; [done|]. intros k s Hk.
  destruct (Hall k s Hk) as (s' & Hs' & Ho & Hi & _ & Hl & Ht).
  exists s'. by repeat split.
Qed.

Lemma setMetaData_indices_witness :
  ∃ ss',
    rulesApplied sample_d0 = Some ss'
    ∧ hasMeta sample_d0 = true
    ∧ length ss' = 2
    ∧ ∀ k s, [hzve_sentence; remark_sentence] !! k = Some s →
        ∃ s', ss' !! k = Some s'
              ∧ originalSentence s' = originalSentence s
              ∧ sentence_sentenceIndex s' = k
              ∧ length (transformations s') = length (transformations s)
              ∧ ∀ j x, transformations s !! j = Some x →
                  ∃ y, transformations s' !! j = Some y
                       ∧ indexedAs k j
                           (transformsBefore
                              [hzve_sentence; remark_sentence] k + j) x y.
Proof.
  apply (setMetaData_indices sample_raw sample_d0
           [hzve_sentence; remark_sentence]).
  - reflexivity.
  - vm_compute. reflexivity.
Defined.

(** ** Indices and the flattened list; the stream after [setMetaData] *)

Lemma flatten_from_lookup (ss : list Sentence) :
  ∀ (b k j : nat) (s : Sentence),
    ss !! k = Some s →
    j < length (transformations s) →
    concat (imap (λ si s, (λ ti, (b + si, ti))
                          <$> seq 0 (length (transformations s))) ss)
      !! (transformsBefore ss k + j)
    = Some (b + k, j).
Proof.
  induction ss as [|s0 rest IH]; intros b k j s Hk Hj; [done|].
  rewrite imap_cons. simpl.
  destruct k as [|k]; simpl in Hk.
  - injection Hk as ->. unfold transformsBefore. simpl.
    rewrite lookup_app_l by (by rewrite length_fmap, length_seq).
    rewrite list_lookup_fmap, lookup_seq_lt by done. simpl.
    by rewrite Nat.add_0_r.
  - unfold transformsBefore in *. simpl.
    rewrite lookup_app_r by (rewrite length_fmap, length_seq; lia).
    rewrite length_fmap, length_seq.
    replace (length (transformations s0)
             + sum_list_with (λ s1, length (transformations s1))
                 (take k rest) + j - length (transformations s0))
      with (sum_list_with (λ s1, length (transformations s1)) (take k rest)
            + j) by lia.
    rewrite (imap_ext _ (λ si s1, (λ ti, (S b + si, ti))
                                  <$> seq 0 (length (transformations s1)))).
    + rewrite (IH (S b) k j s Hk Hj). f_equal. f_equal. lia.
    + intros i x _. simpl. apply list_fmap_ext. intros _ ti _.
      f_equal. lia.
Qed.

Lemma transformsBefore_same (ss ss' : list Sentence) :
  Forall2 (λ s s', length (transformations s')
                   = length (transformations s)) ss ss' →
  ∀ k, transformsBefore ss' k = transformsBefore ss k.
Proof.
  unfold transformsBefore.
  induction 1 as [|s s' ss ss' Hs _ IH]; intros [|k]; simpl; try done.
  by rewrite Hs, IH.
Qed.

(** X20. After [setMetaData], the [sentenceIndex] and [indexInSentence]
    of every transformation are the place where it is stored, and its
    [transformIndex] is its position in the flattened list the editor
    works on ([editor.getTransform(t.transformIndex)] is [t]). *)
Theorem transformIndex_is_flattened_position (d d' : Data)
    (ss' : list Sentence) (k j : nat) (s' : Sentence) (y : Transform) :
  setMetaData d = Some d' →
  rulesApplied d' = Some ss' →
  ss' !! k = Some s' →
  transformations s' !! j = Some y →
  sentenceIndex y = k
  ∧ indexInSentence y = j
  ∧ deref ss' (sentenceIndex y, indexInSentence y) = Some y
  ∧ flatten ss' !! transformIndex y = Some (k, j).
Proof.
  unfold setMetaData.
  destruct (rulesApplied d) as [ss|] eqn:Hss; cycle 1.
  { intros [= <-]. congruence. }
  destruct (initSentences 0 0 ss) as [ss1|] eqn:Hrun; simpl; [|done].
  intros [= <-]. simpl. intros [= <-] Hk Hj.
  destruct (initSentences_initialized ss 0 0 ss1 Hrun) as [Hlen Hall].
  destruct (lookup_lt_is_Some_2 ss k) as [s Hs].
  { rewrite <- Hlen. by eapply lookup_lt_Some. }
  destruct (Hall k s Hs) as (s1 & Hs1 & _ & _ & _ & Hl & Ht).
  assert (s1 = s') as -> by congruence.
  destruct (lookup_lt_is_Some_2 (transformations s) j) as [x Hx].
  { rewrite <- Hl. by eapply lookup_lt_Some. }
  destruct (Ht j x Hx) as (y1 & Hy1 & _ & _ & _ & _ & _ & Hsi & Hii & Hti).
  assert (y1 = y) as -> by congruence.
  simpl in Hsi, Hti.
  split; [done|]. split; [done|].
  split; [rewrite Hsi, Hii; unfold deref; simpl; by rewrite Hk|].
  rewrite Hti.
  assert (HF : Forall2 (λ s s', length (transformations s')
                                = length (transformations s)) ss ss1).
  { apply Forall2_same_length_lookup_2; [done|].
    intros i a a' Ha Ha'.
    destruct (Hall i a Ha) as (a1 & Ha1 & _ & _ & _ & Hla & _).
    congruence. }
  rewrite <- (transformsBefore_same ss ss1 HF k).
  apply (flatten_from_lookup ss1 0 k j s' Hk).
  by eapply lookup_lt_Some.
Qed.

Lemma transformIndex_is_flattened_position_witness :
  ∃ s' y,
    default [] (rulesApplied sample_d0) !! 1 = Some s'
    ∧ transformations s' !! 1 = Some y
    ∧ sentenceIndex y = 1
    ∧ indexInSentence y = 1
    ∧ deref (default [] (rulesApplied sample_d0))
        (sentenceIndex y, indexInSentence y) = Some y
    ∧ flatten (default [] (rulesApplied sample_d0)) !! transformIndex y
      = Some (1, 1).
Proof.
  eexists _, _. split; [reflexivity|]. split; [reflexivity|].
  eapply (transformIndex_is_flattened_position sample_raw sample_d0
            (default [] (rulesApplied sample_d0)) 1 1).
  - vm_compute. reflexivity.
  - reflexivity.
  - reflexivity.
  - reflexivity.
Defined.

Lemma updateActiveTokens_replayStep (s : Sentence) (t : Transform) :
  updateActiveTokens s t
  = A ← replayStep (activeTokens s) t; Some (set_activeTokens A s).
Proof.
  unfold updateActiveTokens, replayStep.
  destruct (hasReplacement t && isAccepted t); [done|].
  simpl. by rewrite set_activeTokens_same.
Qed.

Lemma forEachM_updateActiveTokens (l : list Transform) :
  ∀ s, activeTokens <$> forEachM updateActiveTokens l s
       = replayTokens l (activeTokens s).
Proof.
  unfold replayTokens.
  induction l as [|t l IH]; intros s; simpl; [done|].
  rewrite updateActiveTokens_replayStep.
  destruct (replayStep (activeTokens s) t) as [A|]; simpl; [|done].
  by rewrite IH.
Qed.

Lemma replayTokens_ext (l l' : list Transform) :
  Forall2 (λ x y, tokensAffected y = tokensAffected x
                  ∧ tokensAdded y = tokensAdded x
                  ∧ hasReplacement y = hasReplacement x
                  ∧ isAccepted y = isAccepted x) l l' →
  ∀ A, replayTokens l' A = replayTokens l A.
Proof.
  unfold replayTokens.
  induction 1 as [|x y l l' (Haff & Hadd & Hrep & Hacc) _ IH]; intros A;
    simpl; [done|].
  assert (Hstep : replayStep A y = replayStep A x)
    by (unfold replayStep; by rewrite Haff, Hadd, Hrep, Hacc).
  rewrite Hstep. destruct (replayStep A x); simpl; [apply IH|done].
Qed.

Lemma replayTokens_idle (l : list Transform) (A : list Token) :
  Forall (λ t, hasReplacement t && isAccepted t = false) l →
  replayTokens l A = Some A.
Proof.
  unfold replayTokens. induction 1 as [|t l Ht _ IH]; simpl; [done|].
  assert (Hstep : replayStep A t = Some A)
    by (unfold replayStep; by rewrite Ht).
  by rewrite Hstep.
Qed.

Lemma indexedAs_isAccepted k j c x y :
  indexedAs k j c x y → isAccepted y = isAccepted x.
Proof.
  intros (_&_&_&_&Hst&_). unfold isAccepted. rewrite Hst.
  by destruct (status x).
Qed.

(** X21. The stream [setMetaData] leaves in a sentence is the replay of
    the accepted transformations that have a replacement, in order, over
    the original tokens; so on a result in which no transformation with a
    replacement is accepted yet, every stream is the original one and the
    current text of the job is its original text. *)
Theorem setMetaData_stream (d d' : Data) (ss ss' : list Sentence) :
  rulesApplied d = Some ss →
  setMetaData d = Some d' →
  rulesApplied d' = Some ss' →
  (∀ k s', ss' !! k = Some s' →
     replayAccepted s' = Some (activeTokens s'))
  ∧ ((∀ k s j t, ss !! k = Some s → transformations s !! j = Some t →
        hasReplacement t && isAccepted t = false) →
     (∀ k s', ss' !! k = Some s' → activeTokens s' = originalSentence s')
     ∧ getCurrentText d' = getOriginalText d
     ∧ getOriginalText d' = getOriginalText d).
Proof.
  intros Hss. unfold setMetaData. rewrite Hss.
  destruct (initSentences 0 0 ss) as [ss1|] eqn:Hrun; simpl; [|done].
  intros [= <-]. simpl. intros [= <-].
  destruct (initSentences_initialized ss 0 0 ss1 Hrun) as [Hlen Hall].
  assert (Hback : ∀ k s', ss1 !! k = Some s' →
            ∃ s, ss !! k = Some s
                 ∧ initializedAs k (transformsBefore ss k) s s').
  { intros k s' Hk.
    destruct (lookup_lt_is_Some_2 ss k) as [s Hs].
    { rewrite <- Hlen. by eapply lookup_lt_Some. }
    destruct (Hall k s Hs) as (s1 & Hs1 & Hinit).
    exists s. split; [done|]. by assert (s1 = s') as -> by congruence. }
  split.
  - intros k s' Hk. destruct (Hback k s' Hk) as (s & Hs & Ho & _ & Hrep & Hl
                                                  & Ht).
    unfold replayAccepted. rewrite forEachM_updateActiveTokens. simpl.
    rewrite Ho, <- Hrep. apply replayTokens_ext.
    apply Forall2_same_length_lookup_2; [done|].
    intros j x y Hx Hy. destruct (Ht j x Hx) as (y1 & Hy1 & Hidx).
    assert (y1 = y) as -> by congruence.
    pose proof (indexedAs_isAccepted _ _ _ _ _ Hidx) as Hacc.
    destruct Hidx as (?&?&?&_). done.
  - intros Hnone.
    assert (Hact : ∀ k s s', ss !! k = Some s → ss1 !! k = Some s' →
              activeTokens s' = originalSentence s
              ∧ originalSentence s' = originalSentence s).
    { intros k s s' Hs Hk.
      destruct (Hall k s Hs) as (s1 & Hs1 & Ho & _ & Hrep & _).
      assert (s1 = s') as -> by congruence.
      split; [|done].
      rewrite replayTokens_idle in Hrep; [by injection Hrep|].
      apply Forall_lookup. intros j t Ht. by eapply Hnone. }
    split.
    { intros k s' Hk. destruct (Hback k s' Hk) as (s & Hs & _).
      destruct (Hact k s s' Hs Hk) as [-> ->]. done. }
    unfold getCurrentText, getOriginalText. rewrite Hss. simpl.
    split; do 2 f_equal; apply list_eq; intros k;
      rewrite !list_lookup_fmap;
      destruct (ss !! k) as [s|] eqn:Hs.
    + destruct (Hall k s Hs) as (s' & Hs' & _). rewrite Hs'. simpl.
      unfold getCurrentSentenceText, getOriginalSentenceText.
      by destruct (Hact k s s' Hs Hs') as [-> _].
    + apply lookup_ge_None in Hs. rewrite <- Hlen in Hs.
      apply lookup_ge_None in Hs. by rewrite Hs.
    + destruct (Hall k s Hs) as (s' & Hs' & _). rewrite Hs'. simpl.
      unfold getOriginalSentenceText.
      by destruct (Hact k s s' Hs Hs') as [_ ->].
    + apply lookup_ge_None in Hs. rewrite <- Hlen in Hs.
      apply lookup_ge_None in Hs. by rewrite Hs.
Qed.

Lemma setMetaData_stream_witness :
  (∀ k s', default [] (rulesApplied sample_d0) !! k = Some s' →
     replayAccepted s' = Some (activeTokens s'))
  ∧ ((∀ k s j t, [hzve_sentence; remark_sentence] !! k = Some s →
        transformations s !! j = Some t →
        hasReplacement t && isAccepted t = false) →
     (∀ k s', default [] (rulesApplied sample_d0) !! k = Some s' →
        activeTokens s' = originalSentence s')
     ∧ getCurrentText sample_d0 = getOriginalText sample_raw
     ∧ getOriginalText sample_d0 = getOriginalText sample_raw).
Proof.
  apply (setMetaData_stream sample_raw sample_d0
           [hzve_sentence; remark_sentence]
           (default [] (rulesApplied sample_d0))).
  - reflexivity.
  - vm_compute. reflexivity.
  - reflexivity.
Defined.

(** ** The groups [setMetaData] builds *)

Lemma groupsOk_ext (b : nat) (s s' : Sentence) :
  groups s' = groups s →
  (∀ j g, (∃ t, transformations s' !! j = Some t ∧ groupId t = Some g)
          ↔ (∃ t, transformations s !! j = Some t ∧ groupId t = Some g)) →
  groupsOk b s → groupsOk b s'.
Proof.
  intros Hg Hsame [Ha Hb]. split.
  - intros g ms Hms. rewrite Hg in Hms.
    destruct (Ha g ms Hms) as (? & ? & Hin).
    split; [done|]. split; [done|]. intros j. by rewrite Hin, Hsame.
  - intros j t g Ht Hgt. rewrite Hg.
    destruct (proj1 (Hsame j g)) as (t0 & Ht0 & Hg0); [eauto|]. eauto.
Qed.

Lemma alter_groupId (f : Transform → Transform) (i : nat)
    (l : list Transform) (j : nat) (g : option nat) :
  (∀ t, groupId (f t) = groupId t) →
  (∃ t, alter f i l !! j = Some t ∧ groupId t = g)
  ↔ (∃ t, l !! j = Some t ∧ groupId t = g).
Proof.
  intros Hf. destruct (decide (j = i)) as [->|Hne].
  - rewrite list_lookup_alter_eq. destruct (l !! i) as [x|]; simpl.
    + split.
      * intros (t & Heq & Ht). injection Heq as <-.
        exists x. by rewrite <- Hf.
      * intros (t & Heq & Ht). injection Heq as <-.
        exists (f x). by rewrite Hf.
    + split; by intros (t & ? & _).
  - by rewrite list_lookup_alter_ne.
Qed.

Lemma groupsOk_upd (b : nat) (s : Sentence) (f : Transform → Transform)
    (i : nat) :
  (∀ t, groupId (f t) = groupId t) →
  groupsOk b s → groupsOk b (updTransform f i s).
Proof.
  intros Hf. apply groupsOk_ext; [done|].
  intros j g. simpl. by apply alter_groupId.
Qed.

Lemma groupedBelow_upd (k : nat) (s : Sentence) (f : Transform → Transform)
    (i : nat) :
  (∀ t, groupId t ≠ None → groupId (f t) ≠ None) →
  groupedBelow k s → groupedBelow k (updTransform f i s).
Proof.
  intros Hf Hlow j t Ht Hj. simpl in Ht.
  destruct (decide (j = i)) as [->|Hne].
  - rewrite list_lookup_alter_eq in Ht.
    destruct (transformations s !! i) as [x|] eqn:Hx; simpl in Ht; [|done].
    injection Ht as <-. apply Hf. by eapply Hlow.
  - rewrite list_lookup_alter_ne in Ht by done. by eapply Hlow.
Qed.

(** Taking an ungrouped transformation into the group [gid]. *)
Lemma groupsOk_assign (b gid next : nat) (s : Sentence) (x : Transform) :
  groupsOk b s →
  is_Some (groups s !! gid) →
  transformations s !! next = Some x →
  groupId x = None →
  groupsOk b
    (set_groups (alter (λ members, members ++ [next]) gid (groups s))
       (updTransform (set_groupId (Some gid)) next s)).
Proof.
  intros [Ha Hb] [ms0 Hms0] Hx Hnone.
  assert (Hlook : ∀ j g,
            (∃ t, alter (set_groupId (Some gid)) next (transformations s) !! j
                  = Some t ∧ groupId t = Some g)
            ↔ (j = next ∧ g = gid)
              ∨ (∃ t, transformations s !! j = Some t ∧ groupId t = Some g)).
  { intros j g. destruct (decide (j = next)) as [->|Hne].
    - rewrite list_lookup_alter_eq, Hx. simpl. split.
      + intros (t & [= <-] & Hg). simpl in Hg. left. split; congruence.
      + intros [[_ ->]|(t & [= <-] & Hg)]; [eauto|congruence].
    - rewrite list_lookup_alter_ne by done. split; [eauto|].
      by intros [[? _]|?]. }
  split.
  - intros g ms Hms. simpl in Hms |- *.
    destruct (decide (g = gid)) as [->|Hne].
    + rewrite lookup_alter_eq, Hms0 in Hms. simpl in Hms. injection Hms as <-.
      destruct (Ha gid ms0 Hms0) as (Hlt & Hnd & Hin).
      assert (Hfresh : next ∉ ms0).
      { intros Hn. apply Hin in Hn as (t & Ht & Hg). congruence. }
      split; [done|]. split.
      * apply NoDup_app. split; [done|]. split; [|apply NoDup_singleton].
        intros j Hj Hj'. apply list_elem_of_singleton in Hj'. by subst.
      * intros j. rewrite Hlook, elem_of_app, list_elem_of_singleton, Hin.
        split; [intros [?|?]; eauto|]. intros [[? _]|?]; eauto.
    + rewrite lookup_alter_ne in Hms by done.
      destruct (Ha g ms Hms) as (Hlt & Hnd & Hin).
      split; [done|]. split; [done|]. intros j. rewrite Hlook, Hin.
      split; [eauto|]. by intros [[_ ?]|?].
  - intros j t g Ht Hg. simpl in Ht |- *.
    destruct (proj1 (Hlook j g)) as [[_ ->]|(t0 & Ht0 & Hg0)]; [eauto| |].
    + rewrite lookup_alter_eq, Hms0. eauto.
    + destruct (Hb j t0 g Ht0 Hg0) as [ms Hms].
      destruct (decide (g = gid)) as [->|Hne].
      * rewrite lookup_alter_eq, Hms0. eauto.
      * rewrite lookup_alter_ne by done. eauto.
Qed.

(** Opening the group [gc], an id not in use so far. *)
Lemma groupsOk_fresh (gc : nat) (s : Sentence) :
  groupsOk gc s →
  groupsOk (S gc) (set_groups (<[gc := []]> (groups s)) s).
Proof.
  intros [Ha Hb]. split.
  - intros g ms Hms. simpl in Hms |- *.
    destruct (decide (g = gc)) as [->|Hne].
    + rewrite lookup_insert_eq in Hms. injection Hms as <-.
      split; [lia|]. split; [constructor|]. intros j. split.
      * intros Hj. by apply elem_of_nil in Hj.
      * intros (t & Ht & Hg). destruct (Hb j t gc Ht Hg) as [ms Hms].
        destruct (Ha gc ms Hms) as (? & _). lia.
    + rewrite lookup_insert_ne in Hms by done.
      destruct (Ha g ms Hms) as (? & ? & ?). split; [lia|done].
  - intros j t g Ht Hg. simpl in Ht |- *.
    destruct (decide (g = gc)) as [->|Hne].
    + rewrite lookup_insert_eq. eauto.
    + rewrite lookup_insert_ne by done. eauto.
Qed.

Lemma groupsOk_mono (b b' : nat) (s : Sentence) :
  b ≤ b' → groupsOk b s → groupsOk b' s.
Proof.
  intros Hle [Ha Hb]. split; [|done].
  intros g ms Hms. destruct (Ha g ms Hms) as (? & ? & ?). split; [lia|done].
Qed.

(** The group search keeps the groups in order and the positions that
    have a group. *)
Lemma groupSearch_groups (b k gid n fuel : nat) (queue : list nat)
    (s s' : Sentence) :
  groupsOk b s → is_Some (groups s !! gid) → groupedBelow k s →
  groupSearch fuel gid n queue s = Some s' →
  groupsOk b s' ∧ groupedBelow k s'.
Proof.
  intros Hok Hgid Hlow Hrun.
  pose proof (groupSearch_invariant
                (λ s, groupsOk b s ∧ is_Some (groups s !! gid)
                      ∧ groupedBelow k s) gid) as Hinv.
  destruct (Hinv) with (n := n) (fuel := fuel) (queue := queue) (s := s)
                       (s' := s') as (? & _ & ?); try done.
  - intros s1 next x (Hok1 & Hgid1 & Hlow1) Hx Hnone.
    split; [by eapply groupsOk_assign|]. split.
    + simpl. destruct Hgid1 as [ms Hms]. rewrite lookup_alter_eq, Hms. eauto.
    + apply (groupedBelow_upd k s1 (set_groupId (Some gid)) next);
        [done|exact Hlow1].
  - intros s1 i x (Hok1 & Hgid1 & Hlow1) Hx.
    split; [by apply groupsOk_upd|]. split; [done|].
    by apply groupedBelow_upd.
Qed.

Lemma initTransform_groups (sentIndex n k gc c : nat) (s : Sentence)
    (st' : Sentence * nat * nat) :
  groupsOk gc s → groupedBelow k s →
  length (transformations s) = n → k < n →
  initTransform sentIndex n (s, gc, c) k = Some st' →
  groupsOk st'.1.2 st'.1.1
  ∧ groupedBelow (S k) st'.1.1
  ∧ length (transformations st'.1.1) = n.
Proof.
  intros Hok Hlow Hlen Hk Hrun.
  split; [|split];
    [| |by rewrite (initTransform_length _ _ _ _ _ Hrun)].
  all: revert Hrun; unfold initTransform.
  all: set (F := λ t : Transform,
                   match status _ with None => _ | Some _ => _ end).
  all: set (s1 := updTransform F k s).
  all: assert (HF : ∀ t, groupId (F t) = groupId t)
         by (intros t; unfold F; simpl; by destruct (status t)).
  all: destruct (lookup_lt_is_Some_2 (transformations s) k) as [y Hy];
         [lia|].
  all: assert (Hl1 : transformations s1 !! k = Some (F y))
         by (simpl; by rewrite list_lookup_alter_eq, Hy).
  all: rewrite Hl1; cbn -[groupSearch].
  all: destruct (updateActiveTokens s1 (F y)) as [s2|] eqn:Hs2;
         cbn -[groupSearch]; [|done].
  all: destruct (updateActiveTokens_frame _ _ _ Hs2) as [Ht2 Hg2].
  all: assert (Hok2 : groupsOk gc s2)
         by (apply (groupsOk_ext gc s1);
             [done|intros j g; by rewrite Ht2|by apply groupsOk_upd]).
  all: assert (Hlow2 : groupedBelow k s2)
         by (intros j t Ht Hj; rewrite Ht2 in Ht;
             eapply (groupedBelow_upd k s F k); [|exact Hlow|exact Ht|done];
             intros t0; by rewrite HF).
  all: assert (Hk2 : transformations s2 !! k = Some (F y))
         by (by rewrite Ht2).
  all: destruct (groupId (F y)) as [g0|] eqn:Hg0.
  - by intros [= <-].
  - set (s3 := set_groups (<[gc := []]> (groups s2)) s2).
    destruct (groupSearch _ _ _ _ _) as [s4|] eqn:Hs4; cbn -[groupSearch];
      [|done].
    intros [= <-]. simpl.
    eapply (groupSearch_groups (S gc) k gc); [| | |exact Hs4].
    + by apply groupsOk_fresh.
    + simpl. rewrite lookup_insert_eq. eauto.
    + exact Hlow2.
  - intros [= <-]. simpl. intros j t Ht Hj.
    destruct (decide (j = k)) as [->|Hne]; [congruence|].
    eapply Hlow2; [exact Ht|lia].
  - set (s3 := set_groups (<[gc := []]> (groups s2)) s2).
    destruct (groupSearch _ _ _ _ _) as [s4|] eqn:Hs4; cbn -[groupSearch];
      [|done].
    intros [= <-]. simpl.
    destruct (groupSearch_groups (S gc) k gc n (S (n * n)) [k] s3 s4)
      as [_ Hlow4];
      [by apply groupsOk_fresh
      |simpl; rewrite lookup_insert_eq; eauto|exact Hlow2|exact Hs4|].
    destruct (groupSearch_spec gc n (S (n * n)) [k] s3)
      as (s4' & Hrun' & _ & _ & _ & Hgrouped).
    { simpl. rewrite Ht2. simpl. by rewrite length_alter. }
    { by constructor. }
    { pose proof (count_le_length
        (λ t, bool_decide (groupId t = None)) (transformations s3)) as Hu.
      assert (Hl3 : length (transformations s3) = n)
        by (simpl; rewrite Ht2; simpl; by rewrite length_alter).
      rewrite Hl3 in Hu. unfold ungrouped.
      change (transformations s3) with (transformations s2) in Hu |- *.
      simpl length. nia. }
    { simpl. rewrite lookup_insert_eq. eauto. }
    assert (s4' = s4) as -> by congruence.
    intros j t Ht Hj.
    destruct (decide (j = k)) as [->|Hne].
    + destruct (Hgrouped k) as (y' & Hy' & Hyg); [by left|]. congruence.
    + eapply Hlow4; [exact Ht|lia].
Qed.

Lemma setIsAvailable_groupId (ms : list nat) (s : Sentence) (j : nat)
    (g : option nat) :
  (∃ t, transformations (setIsAvailable ms s) !! j = Some t ∧ groupId t = g)
  ↔ (∃ t, transformations s !! j = Some t ∧ groupId t = g).
Proof.
  split.
  - intros (t' & Ht' & Hg).
    destruct (lookup_lt_is_Some_2 (transformations s) j) as [t Ht].
    { rewrite <- (setIsAvailable_length ms s). by eapply lookup_lt_Some. }
    destruct (setIsAvailable_onlyFlag ms s j t Ht) as (y & Hy & Hyt & _).
    exists t. split; [done|].
    assert (y = t') as -> by congruence. rewrite Hyt in Hg. done.
  - intros (t & Ht & Hg).
    destruct (setIsAvailable_onlyFlag ms s j t Ht) as (y & Hy & Hyt & _).
    exists y. split; [done|]. rewrite Hyt. done.
Qed.

Lemma initSentence_groups (sentIndex c : nat) (s s' : Sentence) (c' : nat) :
  (∀ j t, transformations s !! j = Some t → groupId t = None) →
  initSentence sentIndex c s = Some (s', c') →
  ∃ b, groupsOk b s' ∧ groupedBelow (length (transformations s')) s'.
Proof.
  intros Hnone. unfold initSentence.
  set (s0 := set_groups ∅ _).
  change (transformations s0) with (transformations s).
  set (n := length (transformations s)).
  destruct (forEachM _ _ _) as [[[s1 gc1] c1]|] eqn:Hrun; simpl; [|done].
  intros [= <- <-].
  pose proof (forEachM_seq_inv
                (λ k (st : Sentence * nat * nat),
                   groupsOk st.1.2 st.1.1 ∧ groupedBelow k st.1.1
                   ∧ length (transformations st.1.1) = n)
                (initTransform sentIndex n) n 0 (s0, 0, c) (s1, gc1, c1))
    as Hinv.
  destruct Hinv as (Hok & Hlow & Hlen); [| |exact Hrun|].
  - simpl. split; [|split; [|done]].
    + split; [intros g ms Hms; unfold s0 in Hms; simpl in Hms;
              by rewrite lookup_empty in Hms|].
      intros j t g Ht Hg. rewrite (Hnone j t Ht) in Hg. done.
    + intros j t _ Hj. lia.
  - intros k [[s2 gc2] c2] st3 Hk (Hok & Hlow & Hlen) Hstep.
    simpl in Hok, Hlow, Hlen.
    apply (initTransform_groups sentIndex n k gc2 c2 s2 st3 Hok Hlow Hlen);
      [lia|exact Hstep].
  - simpl in Hok, Hlow, Hlen. exists gc1. split.
    + apply (groupsOk_ext gc1 s1);
        [|intros j g; apply (setIsAvailable_groupId _ _ j (Some g))|done].
      by destruct (setIsAvailable_frame (seq 0 n) s1) as (_ & ? & _).
    + rewrite setIsAvailable_length, Hlen.
      intros j t Ht Hj Hg.
      destruct (proj1 (setIsAvailable_groupId (seq 0 n) s1 j None))
        as (t0 & Ht0 & Hg0); [eauto|].
      by eapply Hlow.
Qed.

Lemma initSentences_groups (ss : list Sentence) :
  (∀ k s j t, ss !! k = Some s → transformations s !! j = Some t →
     groupId t = None) →
  ∀ sentIndex c ss',
    initSentences sentIndex c ss = Some ss' →
    ∀ k s', ss' !! k = Some s' →
      ∃ b, groupsOk b s' ∧ groupedBelow (length (transformations s')) s'.
Proof.
  induction ss as [|s0 rest IH]; intros Hnone sentIndex c ss'; simpl.
  - by intros [= <-] k s'.
  - destruct (initSentence sentIndex c s0) as [[s0' c0']|] eqn:Hs0;
      simpl; [|done].
    destruct (initSentences (S sentIndex) c0' rest) as [rest'|] eqn:Hrest;
      simpl; [|done].
    intros [= <-] [|k] s' Hk; simpl in Hk.
    + injection Hk as <-.
      eapply initSentence_groups; [|exact Hs0].
      intros j t. apply (Hnone 0 s0). done.
    + eapply (IH (λ k s, Hnone (S k) s)); [exact Hrest|exact Hk].
Qed.

(** X22. On a result whose transformations are not yet grouped,
    [setMetaData] cuts the transformations of every sentence into groups:
    every transformation gets a group id, the group of that id exists and
    contains the position of the transformation, and every group lists,
    without repetition, exactly the positions of the transformations that
    carry its id.  So [getOverlappingGroup(sentence, transform)] is
    defined and contains the transformation itself. *)
Theorem setMetaData_groups_partition (d d' : Data) (ss ss' : list Sentence) :
  rulesApplied d = Some ss →
  (∀ k s j t, ss !! k = Some s → transformations s !! j = Some t →
     groupId t = None) →
  setMetaData d = Some d' →
  rulesApplied d' = Some ss' →
  ∀ k s', ss' !! k = Some s' →
    (∀ j t, transformations s' !! j = Some t →
       ∃ ms, getOverlappingGroup s' t = Some ms ∧ j ∈ ms)
    ∧ (∀ g ms, groups s' !! g = Some ms →
         NoDup ms
         ∧ ∀ j, j ∈ ms ↔ ∃ t, transformations s' !! j = Some t
                              ∧ groupId t = Some g).
Proof.
  intros Hss Hnone. unfold setMetaData. rewrite Hss.
  destruct (initSentences 0 0 ss) as [ss1|] eqn:Hrun; simpl; [|done].
  intros [= <-]. simpl. intros [= <-] k s' Hk.
  destruct (initSentences_groups ss Hnone 0 0 ss1 Hrun k s' Hk)
    as (b & [Ha Hb] & Hlow).
  split.
  - intros j t Ht.
    destruct (groupId t) as [g|] eqn:Hg; cycle 1.
    { exfalso. eapply Hlow; [exact Ht| |exact Hg]. by eapply lookup_lt_Some. }
    destruct (Hb j t g Ht Hg) as [ms Hms].
    exists ms. unfold getOverlappingGroup. rewrite Hg. simpl.
    split; [done|].
    destruct (Ha g ms Hms) as (_ & _ & Hin). apply Hin. eauto.
  - intros g ms Hms. destruct (Ha g ms Hms) as (_ & ? & ?). done.
Qed.

Lemma setMetaData_groups_partition_witness :
  (∀ j t,
     transformations
       (default hzve_sentence (default [] (rulesApplied sample_d0) !! 0))
       !! j = Some t →
     ∃ ms,
       getOverlappingGroup
         (default hzve_sentence (default [] (rulesApplied sample_d0) !! 0)) t
       = Some ms
       ∧ j ∈ ms)
  ∧ (∀ g ms,
       groups
         (default hzve_sentence (default [] (rulesApplied sample_d0) !! 0))
         !! g = Some ms →
       NoDup ms
       ∧ ∀ j, j ∈ ms ↔
           ∃ t, transformations
                  (default hzve_sentence
                     (default [] (rulesApplied sample_d0) !! 0)) !! j
                = Some t
                ∧ groupId t = Some g).
Proof.
  apply (setMetaData_groups_partition sample_raw sample_d0
           [hzve_sentence; remark_sentence]
           (default [] (rulesApplied sample_d0))) with (k := 0).
  - reflexivity.
  - intros [|[|k]] s j t Hs Ht; [| |done].
    + injection Hs as <-.
      destruct j as [|[|[|j]]]; [| | |done]; by injection Ht as <-.
    + injection Hs as <-.
      destruct j as [|[|j]]; [| |done]; by injection Ht as <-.
  - vm_compute. reflexivity.
  - reflexivity.
  - reflexivity.
Defined.

(** ** When [setMetaData] throws *)

Lemma initTransform_total (sentIndex n : nat) (s : Sentence) (gc c k : nat)
    (y : Transform) :
  length (transformations s) = n →
  transformations s !! k = Some y →
  (hasReplacement y && isAccepted y = true → tokensAffected y ≠ []) →
  is_Some (initTransform sentIndex n (s, gc, c) k).
Proof.
  intros Hlen Hy Hcond. unfold initTransform.
  set (F := λ t : Transform, match status _ with None => _ | Some _ => _ end).
  set (s1 := updTransform F k s).
  assert (Hl1 : transformations s1 !! k = Some (F y))
    by (simpl; by rewrite list_lookup_alter_eq, Hy).
  rewrite Hl1. cbn -[groupSearch].
  assert (HF : hasReplacement (F y) = hasReplacement y
               ∧ isAccepted (F y) = isAccepted y
               ∧ tokensAffected (F y) = tokensAffected y).
  { unfold F, isAccepted. simpl.
    destruct (status y) eqn:Hsy; simpl; by rewrite ?Hsy. }
  destruct HF as (Hrep & Hacc & Haff).
  assert (Hupd : is_Some (updateActiveTokens s1 (F y))).
  { unfold updateActiveTokens. rewrite Hrep, Hacc, Haff.
    destruct (hasReplacement y && isAccepted y) eqn:Hc; [|eauto].
    destruct (replaceTokens_total (activeTokens s1) (tokensAffected y)
                (tokensAdded (F y)) (Hcond eq_refl)) as [toks ->].
    simpl. eauto. }
  destruct Hupd as [s2 Hs2]. rewrite Hs2. cbn -[groupSearch].
  destruct (updateActiveTokens_frame _ _ _ Hs2) as [Ht2 _].
  destruct (groupId (F y)); [eauto|].
  set (s3 := set_groups (<[gc := []]> (groups s2)) s2).
  assert (Hl3 : length (transformations s3) = n)
    by (simpl; rewrite Ht2; simpl; by rewrite length_alter).
  destruct (groupSearch_spec gc n (S (n * n)) [k] s3)
    as (s4 & Hrun & _); [done| | | |].
  - constructor; [|done]. rewrite <- Hlen. by eapply lookup_lt_Some.
  - pose proof (count_le_length
      (λ t, bool_decide (groupId t = None)) (transformations s3)) as Hu.
    rewrite Hl3 in Hu. unfold ungrouped. simpl length. nia.
  - simpl. rewrite lookup_insert_eq. eauto.
  - rewrite Hrun. cbn. eauto.
Qed.

Lemma initSentence_total (sentIndex c : nat) (s : Sentence) :
  (∀ j t, transformations s !! j = Some t →
     hasReplacement t && isAccepted t = true → tokensAffected t ≠ []) →
  is_Some (initSentence sentIndex c s).
Proof.
  intros Hcond. unfold initSentence.
  set (s0 := set_groups ∅ _).
  change (transformations s0) with (transformations s).
  set (n := length (transformations s)).
  set (l0 := transformations s). set (o := originalSentence s).
  destruct (forEachM_seq_total
              (λ k (st : Sentence * nat * nat),
                 ∃ A, sentenceState sentIndex c l0 o k A st.1.1
                      ∧ replayTokens (take k l0) o = Some A
                      ∧ st.2 = c + k)
              (initTransform sentIndex n) n 0 (s0, 0, c))
    as ([[s1 gc1] c1] & Hrun & _).
  - exists o. simpl. split; [|split; [done|lia]].
    split; [done|]. split; [done|]. split; [done|]. split; [done|].
    intros j x Hx. exists x. split; [done|].
    unfold visitedAs. rewrite bool_decide_eq_false_2 by lia.
    by repeat split.
  - intros k [[s2 gc2] c2] Hk (A & Hstate & Hreplay & Hc).
    simpl in Hstate, Hc. subst c2.
    destruct (lookup_lt_is_Some_2 l0 k) as [x Hx];
      [unfold n in Hk; unfold l0; lia|].
    pose proof Hstate as (_ & _ & _ & Hlen & Hall).
    destruct (Hall k x Hx) as (y & Hy & Hv).
    unfold visitedAs in Hv. rewrite bool_decide_eq_false_2 in Hv by lia.
    destruct Hv as (Haff & _ & Hrep & _ & Hst).
    destruct (initTransform_total sentIndex n s2 gc2 (c + k) k y)
      as [st3 Hstep]; [done|done| |].
    { unfold isAccepted. rewrite Hrep, Hst, Haff. apply (Hcond k x Hx). }
    exists st3. split; [done|].
    apply (initTransform_state sentIndex c l0 o k A n s2 gc2 st3 Hstate
             Hreplay); [|exact Hstep]. unfold n in Hk. unfold l0. lia.
  - rewrite Hrun. simpl. eauto.
Qed.

Lemma initSentences_total (ss : list Sentence) :
  (∀ k s j t, ss !! k = Some s → transformations s !! j = Some t →
     hasReplacement t && isAccepted t = true → tokensAffected t ≠ []) →
  ∀ sentIndex c, is_Some (initSentences sentIndex c ss).
Proof.
  induction ss as [|s0 rest IH]; intros Hcond sentIndex c; simpl; [eauto|].
  destruct (initSentence_total sentIndex c s0) as [[s0' c0'] ->].
  { intros j t. apply (Hcond 0 s0). done. }
  simpl.
  destruct (IH (λ k s, Hcond (S k) s) (S sentIndex) c0') as [rest' ->].
  simpl. eauto.
Qed.

Lemma replayTokens_throws (l : list Transform) (j : nat) (t : Transform) :
  l !! j = Some t →
  hasReplacement t && isAccepted t = true →
  tokensAffected t = [] →
  ∀ A, replayTokens l A = None.
Proof.
  unfold replayTokens. revert j.
  induction l as [|x l IH]; intros [|j] Hj Hc Hnil A; simpl in *; try done.
  - injection Hj as ->.
    assert (Hstep : replayStep A t = None)
      by (unfold replayStep; by rewrite Hc, Hnil).
    by rewrite Hstep.
  - destruct (replayStep A x); simpl; [|done]. by eapply IH.
Qed.

(** X23. [setMetaData] throws exactly on the results that hold an
    accepted transformation with a replacement and no affected token (the
    replay reads [affected[0].id]): it returns normally when every
    accepted transformation with a replacement affects at least one token,
    whatever groups and statuses the result already carries, and it
    returns the result untouched when there is no [rulesApplied]. *)
Theorem setMetaData_throws_only_on_empty_run (d : Data) :
  (rulesApplied d = None → setMetaData d = Some d)
  ∧ (∀ ss,
       rulesApplied d = Some ss →
       (∀ k s j t, ss !! k = Some s → transformations s !! j = Some t →
          hasReplacement t && isAccepted t = true → tokensAffected t ≠ []) →
       is_Some (setMetaData d))
  ∧ (∀ ss k s j t,
       rulesApplied d = Some ss →
       ss !! k = Some s → transformations s !! j = Some t →
       hasReplacement t && isAccepted t = true → tokensAffected t = [] →
       setMetaData d = None).
Proof.
  unfold setMetaData. split; [by intros ->|]. split.
  - intros ss -> Hcond.
    destruct (initSentences_total ss Hcond 0 0) as [ss' ->]. simpl. eauto.
  - intros ss k s j t -> Hs Ht Hc Hnil.
    destruct (initSentences 0 0 ss) as [ss'|] eqn:Hrun; [|done].
    exfalso.
    destruct (initSentences_initialized ss 0 0 ss' Hrun) as [_ Hall].
    destruct (Hall k s Hs) as (s' & _ & _ & _ & Hrep & _).
    by rewrite (replayTokens_throws _ j t Ht Hc Hnil) in Hrep.
Qed.

Lemma setMetaData_throws_only_on_empty_run_witness :
  setMetaData
    (mkData
       (Some [mkSentence [tokA] []
                [mkTransform [] [tokX] true false
                   (Some TRANSFORM_STATUS_ACCEPTED) false None 0 0 0]
                ∅ 0])
       false)
  = None.
Proof.
  eapply (proj2 (proj2 (setMetaData_throws_only_on_empty_run _)) _ 0 _ 0 _);
    reflexivity.
Defined.

(** ** [editor.getOverlappingTransforms] *)

Lemma filterM_spec {A} (p : A → option bool) (l : list A) :
  (∀ x, x ∈ l → is_Some (p x)) →
  ∃ res, filterM p l = Some res
         ∧ ∀ x, x ∈ res ↔ x ∈ l ∧ p x = Some true.
Proof.
  induction l as [|a l IH]; intros Hall; simpl.
  - exists []. split; [done|]. intros x. split; [|by intros [? _]].
    intros Hx. by apply elem_of_nil in Hx.
  - destruct (Hall a) as [b Hb]; [left|]. rewrite Hb. simpl.
    destruct IH as (res & -> & Hres); [intros x Hx; apply Hall; by right|].
    simpl. eexists. split; [done|]. intros x.
    destruct b.
    + rewrite !elem_of_cons, Hres. split.
      * intros [->|[? ?]]; [split; [by left|done]|split; [by right|done]].
      * intros [[->|?] ?]; [by left|by right].
    + rewrite elem_of_cons, Hres. split.
      * intros [? ?]. split; [by right|done].
      * intros [[->|?] ?]; [congruence|done].
Qed.

(** X24. [editor.getOverlappingTransforms(t)], for a transformation
    stored where its indices say, whose group exists, contains it and
    lists positions of the sentence: the call does not throw, the result
    contains the transformation itself, and it consists of exactly the
    members of the group that have the same [sentenceIndex] and the same
    affected token ids in the same order. *)
Theorem getOverlappingTransforms_spec (e : Editor) (ss : list Sentence)
    (k j : nat) (s : Sentence) (t : Transform) (ms : list nat) :
  rulesApplied (data e) = Some ss →
  ss !! k = Some s →
  transformations s !! j = Some t →
  sentenceIndex t = k →
  getOverlappingGroup s t = Some ms →
  j ∈ ms →
  (∀ i, i ∈ ms → is_Some (transformations s !! i)) →
  ∃ res,
    getOverlappingTransforms e (k, j) = Some res
    ∧ j ∈ res
    ∧ ∀ i, i ∈ res ↔
        i ∈ ms
        ∧ ∃ u, transformations s !! i = Some u
               ∧ sentenceIndex u = k
               ∧ token_id <$> tokensAffected u
                 = token_id <$> tokensAffected t.
Proof.
  intros Hss Hs Ht Hsi Hms Hj Hin.
  unfold getOverlappingTransforms. rewrite Hss. simpl.
  unfold deref. simpl. rewrite Hs. simpl. rewrite Ht. simpl.
  rewrite Hsi, Hs. simpl. rewrite Hms. simpl.
  set (p := λ i, u ← transformations s !! i; affectsSameTokens u t).
  assert (Hp : ∀ i u, transformations s !! i = Some u →
            p i = Some (bool_decide
                          (sentenceIndex u = k
                           ∧ token_id <$> tokensAffected u
                             = token_id <$> tokensAffected t))).
  { intros i u Hu. unfold p. rewrite Hu. simpl.
    by rewrite affectsSameTokens_value, Hsi. }
  destruct (filterM_spec p ms) as (res & Hres & Hmem).
  { intros i Hi. destruct (Hin i Hi) as [u Hu]. rewrite (Hp i u Hu). eauto. }
  exists res. split; [exact Hres|]. split.
  - apply Hmem. split; [done|]. rewrite (Hp j t Ht). f_equal.
    by apply bool_decide_eq_true_2.
  - intros i. rewrite Hmem. split.
    + intros [Hi Hpi]. split; [done|]. destruct (Hin i Hi) as [u Hu].
      exists u. split; [done|]. rewrite (Hp i u Hu) in Hpi.
      injection Hpi as Hpi. by apply bool_decide_eq_true in Hpi.
    + intros [Hi (u & Hu & Hsame)]. split; [done|].
      rewrite (Hp i u Hu). f_equal. by apply bool_decide_eq_true_2.
Qed.

Lemma getOverlappingTransforms_spec_witness :
  ∃ res,
    getOverlappingTransforms sample_e0 (0, 0) = Some res
    ∧ 0 ∈ res.
Proof.
  destruct (getOverlappingTransforms_spec sample_e0
              (default [] (rulesApplied sample_d0)) 0 0
              (default hzve_sentence (default [] (rulesApplied sample_d0) !! 0))
              (default (received [] [] false false)
                 (transformations
                    (default hzve_sentence
                       (default [] (rulesApplied sample_d0) !! 0)) !! 0))
              [0; 1])
    as (res & Hres & Hin & _); try reflexivity.
  - apply list_elem_of_here.
  - intros i Hi. apply elem_of_cons in Hi as [-> | Hi].
    + vm_compute. eauto.
    + apply list_elem_of_singleton in Hi as ->. vm_compute. eauto.
  - by exists res.
Defined.

(** ** [canUndoLastTransform] and [undoLastTransform] *)

(** X25. [editor.canUndoLastTransform()] predicts
    [editor.undoLastTransform()]: when it answers false the undo is
    refused and the editor state stays as it is, when it answers true an
    undo that returns reports success, and when it throws so does the
    undo. *)
Theorem canUndoLastTransform_predicts (persist : bool) (e : Editor) :
  (canUndoLastTransform e = Some false →
   undoLastTransform persist e = Some (false, e))
  ∧ (canUndoLastTransform e = Some true →
     ∀ b e', undoLastTransform persist e = Some (b, e') → b = true)
  ∧ (canUndoLastTransform e = None → undoLastTransform persist e = None).
Proof.
  unfold canUndoLastTransform, undoLastTransform.
  case_bool_decide as Hpos; [|by repeat split].
  unfold resetCorrection.
  destruct (rulesApplied (data e)) as [ss|] eqn:Hss; simpl.
  - destruct (transformStack e !! _) as [r|]; simpl; [|by repeat split].
    destruct (deref ss r) as [t|]; simpl; [|by repeat split].
    destruct (canUndoTransform _ t) as [[|]|]; simpl.
    + split; [done|]. split; [|done]. intros _ b e'.
      destruct (undoTransform _ _ _); simpl; [|done].
      destruct (if persist then _ else _); simpl; [|done].
      by intros [= <- _].
    + by repeat split.
    + by repeat split.
  - split; [done|]. split; [done|]. intros _.
    by destruct (transformStack e !! _) as [r|].
Qed.

Lemma canUndoLastTransform_predicts_witness :
  undoLastTransform true sample_e0 = Some (false, sample_e0).
Proof.
  apply (proj1 (canUndoLastTransform_predicts true sample_e0)).
  vm_compute. reflexivity.
Defined.

(** ** Reset after an operation that did not splice *)





(** ** Groups hold chains of overlaps *)

Lemma transformsOverlap_runs (t1 t2 u1 u2 : Transform) (inOrder : bool) :
  tokensAffected u1 = tokensAffected t1 →
  tokensAdded u1 = tokensAdded t1 →
  tokensAffected u2 = tokensAffected t2 →
  tokensAdded u2 = tokensAdded t2 →
  transformsOverlap u1 u2 inOrder = transformsOverlap t1 t2 inOrder.
Proof. unfold transformsOverlap. by intros -> -> -> ->. Qed.

Lemma sameRuns_upd (l0 : list Transform) (s : Sentence)
    (f : Transform → Transform) (i : nat) :
  (∀ t, tokensAffected (f t) = tokensAffected t
        ∧ tokensAdded (f t) = tokensAdded t) →
  sameRuns l0 s → sameRuns l0 (updTransform f i s).
Proof.
  intros Hf Hsame j y Hy. simpl in Hy.
  destruct (decide (j = i)) as [->|Hne].
  - rewrite list_lookup_alter_eq in Hy.
    destruct (transformations s !! i) as [y0|] eqn:Hy0; simpl in Hy; [|done].
    injection Hy as <-. destruct (Hsame i y0 Hy0) as (x & Hx & ? & ?).
    exists x. destruct (Hf y0) as [-> ->]. done.
  - rewrite list_lookup_alter_ne in Hy by done. by apply Hsame.
Qed.

(** The forward scan behind the member at position [next]. *)
Lemma scan_linked (l0 : list Transform) (gid start next : nat)
    (nextInGroup xn : Transform) (l : list nat) :
  l0 !! next = Some xn →
  tokensAffected nextInGroup = tokensAffected xn →
  tokensAdded nextInGroup = tokensAdded xn →
  linked l0 start next →
  Forall (λ i, next < i) l →
  ∀ s q s' q',
    sameRuns l0 s → groupLinked l0 gid start s → queueLinked l0 start s q →
    forEachM (scanStep nextInGroup) l (s, q) = Some (s', q') →
    sameRuns l0 s' ∧ groupLinked l0 gid start s'
    ∧ queueLinked l0 start s' q'.
Proof.
  intros Hxn Haff Hadd Hnext Hl.
  induction Hl as [|i l Hi _ IH]; intros s q s' q' Hsame Hgl Hql; simpl.
  - by intros [= <- <-].
  - unfold scanStep at 1.
    destruct (transformations s !! i) as [y|] eqn:Hy; simpl; [|done].
    set (s1 := updTransform (set_indexInSentence i) i s).
    assert (Hsame1 : sameRuns l0 s1)
      by (apply (sameRuns_upd l0 s (set_indexInSentence i) i);
          [done|exact Hsame]).
    assert (Hgl1 : groupLinked l0 gid start s1).
    { intros j t Ht Hg. simpl in Ht.
      destruct (proj1 (alter_groupId (set_indexInSentence i) i
                         (transformations s) j (Some gid) (λ _, eq_refl)))
        as (t0 & Ht0 & Hg0); [eauto|]. by eapply Hgl. }
    assert (Hy1 : transformations s1 !! i = Some (set_indexInSentence i y))
      by (simpl; by rewrite list_lookup_alter_eq, Hy).
    assert (Hql1 : queueLinked l0 start s1 q).
    { intros p Hp. destruct (Hql p Hp) as (Hlp & t & Ht & Hidx).
      split; [done|]. destruct (decide (p = i)) as [->|Hne].
      - eexists. split; [exact Hy1|done].
      - exists t. simpl. by rewrite list_lookup_alter_ne. }
    destruct (_ && _) eqn:Htest; intros Hrun;
      eapply IH; try exact Hrun; try done.
    intros p Hp. apply elem_of_app in Hp as [Hp|Hp]; [by apply Hql1|].
    apply list_elem_of_singleton in Hp as ->.
    split; [|eexists; split; [exact Hy1|done]].
    apply andb_true_iff in Htest as [_ Hov].
    destruct (Hsame i y Hy) as (xi & Hxi & Haffi & Haddi).
    apply (linked_step l0 start next i xn xi Hnext Hxn Hxi Hi).
    rewrite <- (transformsOverlap_runs xn xi nextInGroup
                  (set_indexInSentence i y) true Haff Hadd Haffi Haddi).
    exact Hov.
Qed.

(** The group search, with the chains from [start]. *)
Lemma search_linked (l0 : list Transform) (gid start n : nat) (fuel : nat) :
  ∀ queue s s',
    sameRuns l0 s → groupLinked l0 gid start s →
    queueLinked l0 start s queue →
    groupSearch fuel gid n queue s = Some s' →
    sameRuns l0 s' ∧ groupLinked l0 gid start s'.
Proof.
  induction fuel as [|fuel IH]; intros [|next queue] s s' Hsame Hgl Hql;
    simpl; try done; try by intros [= <-].
  destruct (transformations s !! next) as [x|] eqn:Hx; simpl; [|done].
  destruct (Hql next) as (Hlnext & x' & Hx' & Hidx); [left|].
  assert (x' = x) as -> by congruence.
  assert (Hql' : queueLinked l0 start s queue)
    by (intros q Hq; apply Hql; by right).
  destruct (groupId x) eqn:Hg.
  - by apply IH.
  - set (s1 := set_groups _ (updTransform (set_groupId (Some gid)) next s)).
    destruct (forEachM _ _ _) as [[s2 q2]|] eqn:Hscan; simpl; [|done].
    destruct (Hsame next x Hx) as (xn & Hxn & Haff & Hadd).
    assert (Hsame1 : sameRuns l0 s1)
      by (apply (sameRuns_upd l0 s (set_groupId (Some gid)) next);
          [done|exact Hsame]).
    assert (Hgl1 : groupLinked l0 gid start s1).
    { intros j t Ht Hgt. simpl in Ht.
      destruct (decide (j = next)) as [->|Hne]; [done|].
      rewrite list_lookup_alter_ne in Ht by done. by eapply Hgl. }
    assert (Hql1 : queueLinked l0 start s1 queue).
    { intros p Hp. destruct (Hql' p Hp) as (Hlp & t & Ht & Hti).
      split; [done|]. simpl.
      destruct (decide (p = next)) as [->|Hne].
      - rewrite list_lookup_alter_eq, Ht. simpl. eauto.
      - rewrite list_lookup_alter_ne by done. eauto. }
    destruct (scan_linked l0 gid start next (set_groupId (Some gid) x) xn
                (seq (indexInSentence x + 1) (n - (indexInSentence x + 1)))
                Hxn Haff Hadd Hlnext) with (s := s1) (q := queue)
                                          (s' := s2) (q' := q2)
      as (Hsame2 & Hgl2 & Hql2); try done.
    { apply Forall_forall. intros i Hi. apply elem_of_seq in Hi. lia. }
    by apply IH.
Qed.

Lemma groupsLinked_ext (l0 : list Transform) (s s' : Sentence) :
  groups s' = groups s →
  (∀ j g, (∃ t, transformations s' !! j = Some t ∧ groupId t = Some g)
          ↔ (∃ t, transformations s !! j = Some t ∧ groupId t = Some g)) →
  groupsLinked l0 s → groupsLinked l0 s'.
Proof.
  intros Hg Hsame Hl g ms Hms. rewrite Hg in Hms.
  destruct (Hl g ms Hms) as (start & Hfound & Hgl).
  exists start. split; [by apply Hsame|].
  intros j t Ht Hgt.
  destruct (proj1 (Hsame j g)) as (t0 & Ht0 & Hg0); [eauto|].
  by eapply Hgl.
Qed.

(** What the search for group [gid] leaves alone: the groups that exist
    and the members of the other groups. *)
Lemma groupSearch_others (gid n fuel : nat) (queue : list nat)
    (s0 s' : Sentence) :
  groupSearch fuel gid n queue s0 = Some s' →
  (∀ g, is_Some (groups s' !! g) → is_Some (groups s0 !! g))
  ∧ (∀ g j, g ≠ gid →
       (∃ t, transformations s' !! j = Some t ∧ groupId t = Some g)
       ↔ (∃ t, transformations s0 !! j = Some t ∧ groupId t = Some g)).
Proof.
  apply (groupSearch_invariant
           (λ s, (∀ g, is_Some (groups s !! g) → is_Some (groups s0 !! g))
                 ∧ (∀ g j, g ≠ gid →
                      (∃ t, transformations s !! j = Some t
                            ∧ groupId t = Some g)
                      ↔ (∃ t, transformations s0 !! j = Some t
                              ∧ groupId t = Some g))) gid).
  - intros s next x [Hdom Hoth] Hx Hnone. split.
    + intros g Hg. apply Hdom. simpl in Hg.
      destruct (decide (g = gid)) as [->|Hne].
      * rewrite lookup_alter_eq in Hg.
        destruct (groups s !! gid); [eauto|by destruct Hg].
      * by rewrite lookup_alter_ne in Hg.
    + intros g j Hne. rewrite <- (Hoth g j Hne). simpl.
      destruct (decide (j = next)) as [->|Hj].
      * rewrite list_lookup_alter_eq, Hx. simpl. split.
        -- intros (t & [= <-] & Hg). simpl in Hg. congruence.
        -- intros (t & [= <-] & Hg). congruence.
      * by rewrite list_lookup_alter_ne.
  - intros s i x [Hdom Hoth] Hx. split; [done|].
    intros g j Hne. rewrite <- (Hoth g j Hne). simpl.
    by apply alter_groupId.
  - split; [done|]. by intros g j _.
Qed.

Lemma initTransform_linked (l0 : list Transform) (sentIndex n k gc c : nat)
    (s : Sentence) (st' : Sentence * nat * nat) :
  groupsOk gc s → length (transformations s) = n → k < n →
  sameRuns l0 s → groupsLinked l0 s →
  initTransform sentIndex n (s, gc, c) k = Some st' →
  sameRuns l0 st'.1.1 ∧ groupsLinked l0 st'.1.1.
Proof.
  intros Hok Hlen Hk Hsame Hlinked. unfold initTransform.
  set (F := λ t : Transform, match status _ with None => _ | Some _ => _ end).
  set (s1 := updTransform F k s).
  assert (HF : ∀ t, groupId (F t) = groupId t
                    ∧ tokensAffected (F t) = tokensAffected t
                    ∧ tokensAdded (F t) = tokensAdded t
                    ∧ indexInSentence (F t) = k)
    by (intros t; unfold F; simpl; by destruct (status t)).
  destruct (lookup_lt_is_Some_2 (transformations s) k) as [y Hy]; [lia|].
  assert (Hl1 : transformations s1 !! k = Some (F y))
    by (simpl; by rewrite list_lookup_alter_eq, Hy).
  rewrite Hl1. cbn -[groupSearch].
  destruct (updateActiveTokens s1 (F y)) as [s2|] eqn:Hs2;
    cbn -[groupSearch]; [|done].
  destruct (updateActiveTokens_frame _ _ _ Hs2) as [Ht2 Hg2].
  assert (Hlook : ∀ j g,
            (∃ t, transformations s2 !! j = Some t ∧ groupId t = Some g)
            ↔ (∃ t, transformations s !! j = Some t ∧ groupId t = Some g)).
  { intros j g. rewrite Ht2. simpl. apply alter_groupId.
    intros t. by destruct (HF t). }
  assert (Hok2 : groupsOk gc s2) by (by apply (groupsOk_ext gc s)).
  assert (Hsame2 : sameRuns l0 s2).
  { intros j t Ht. rewrite Ht2 in Ht. revert j t Ht.
    apply (sameRuns_upd l0 s F k); [|exact Hsame].
    intros t. by destruct (HF t) as (_ & ? & ? & _). }
  assert (Hlinked2 : groupsLinked l0 s2)
    by (by apply (groupsLinked_ext l0 s)).
  assert (Hk2 : transformations s2 !! k = Some (F y)) by (by rewrite Ht2).
  destruct (groupId (F y)) as [g0|] eqn:Hg0.
  { by intros [= <-]. }
  set (s3 := set_groups (<[gc := []]> (groups s2)) s2).
  destruct (groupSearch _ _ _ _ _) as [s4|] eqn:Hs4; cbn -[groupSearch];
    [|done].
  intros [= <-]. simpl.
  assert (Hfresh : ∀ j t, transformations s2 !! j = Some t →
            groupId t ≠ Some gc).
  { intros j t Ht Hg. destruct Hok2 as [Ha Hb].
    destruct (Hb j t gc Ht Hg) as [ms Hms].
    destruct (Ha gc ms Hms) as (? & _). lia. }
  destruct (search_linked l0 gc k n (S (n * n)) [k] s3 s4) as [Hsame4 Hgl4];
    [exact Hsame2| | |exact Hs4|].
  { intros j t Ht Hg. by destruct (Hfresh j t Ht). }
  { intros q Hq. apply list_elem_of_singleton in Hq as ->.
    split; [constructor|]. exists (F y). split; [done|].
    by destruct (HF y) as (_ & _ & _ & ?). }
  split; [exact Hsame4|].
  destruct (groupSearch_others gc n _ _ s3 s4 Hs4) as [Hdom Hoth].
  destruct (groupSearch_spec gc n (S (n * n)) [k] s3)
    as (s4' & Hrun' & HF4 & _ & _ & Hgrouped).
  { simpl. rewrite Ht2. simpl. by rewrite length_alter. }
  { by constructor. }
  { pose proof (count_le_length
      (λ t, bool_decide (groupId t = None)) (transformations s3)) as Hu.
    assert (Hl3 : length (transformations s3) = n)
      by (simpl; rewrite Ht2; simpl; by rewrite length_alter).
    rewrite Hl3 in Hu. unfold ungrouped.
    change (transformations s3) with (transformations s2) in Hu |- *.
    simpl length. nia. }
  { simpl. rewrite lookup_insert_eq. eauto. }
  assert (s4' = s4) as -> by congruence.
  intros g ms Hms.
  destruct (decide (g = gc)) as [->|Hne].
  - exists k. split; [|exact Hgl4].
    destruct (Hgrouped k) as (y' & Hy' & Hyg); [by left|].
    exists y'. split; [done|].
    destruct (Forall2_lookup_r _ _ _ _ _ HF4 Hy')
      as (y3 & Hy3 & (_&_&_&_&_&Hgid)).
    assert (y3 = F y) as -> by (simpl in Hy3; congruence).
    destruct Hgid as [Hgid|[_ Hgid]]; [congruence|done].
  - destruct (Hdom g) as [ms3 Hms3]; [eauto|].
    simpl in Hms3. rewrite lookup_insert_ne in Hms3 by done.
    destruct (Hlinked2 g ms3 Hms3) as (start & Hfound & Hgl).
    exists start. split; [by apply (Hoth g start Hne)|].
    intros j t Ht Hgt.
    destruct (proj1 (Hoth g j Hne)) as (t0 & Ht0 & Hg0'); [eauto|].
    by eapply Hgl.
Qed.

Lemma initSentence_linked (sentIndex c : nat) (s s' : Sentence) (c' : nat) :
  (∀ j t, transformations s !! j = Some t → groupId t = None) →
  initSentence sentIndex c s = Some (s', c') →
  ∃ b, groupsOk b s' ∧ groupsLinked (transformations s) s'.
Proof.
  intros Hnone. unfold initSentence.
  set (s0 := set_groups ∅ _).
  change (transformations s0) with (transformations s).
  set (n := length (transformations s)).
  set (l0 := transformations s).
  destruct (forEachM _ _ _) as [[[s1 gc1] c1]|] eqn:Hrun; simpl; [|done].
  intros [= <- <-].
  pose proof (forEachM_seq_inv
                (λ k (st : Sentence * nat * nat),
                   (groupsOk st.1.2 st.1.1 ∧ groupedBelow k st.1.1
                    ∧ length (transformations st.1.1) = n)
                   ∧ sameRuns l0 st.1.1 ∧ groupsLinked l0 st.1.1)
                (initTransform sentIndex n) n 0 (s0, 0, c) (s1, gc1, c1))
    as Hinv.
  destruct Hinv as ((Hok & Hlow & Hlen) & Hsame & Hlinked); [| |exact Hrun|].
  - simpl. split; [split; [|split; [|done]]|split].
    + split; [intros g ms Hms; unfold s0 in Hms; simpl in Hms;
              by rewrite lookup_empty in Hms|].
      intros j t g Ht Hg. rewrite (Hnone j t Ht) in Hg. done.
    + intros j t _ Hj. lia.
    + intros j y Hy. exists y. done.
    + intros g ms Hms. unfold s0 in Hms. simpl in Hms.
      by rewrite lookup_empty in Hms.
  - intros k [[s2 gc2] c2] st3 Hk ((Hok & Hlow & Hlen) & Hsame & Hlinked)
      Hstep.
    simpl in Hok, Hlow, Hlen, Hsame, Hlinked. split.
    + apply (initTransform_groups sentIndex n k gc2 c2 s2 st3 Hok Hlow Hlen);
        [lia|exact Hstep].
    + apply (initTransform_linked l0 sentIndex n k gc2 c2 s2 st3 Hok Hlen);
        [lia|done|done|exact Hstep].
  - simpl in Hok, Hlinked. exists gc1.
    assert (Hg : groups (setIsAvailable (seq 0 n) s1) = groups s1)
      by (by destruct (setIsAvailable_frame (seq 0 n) s1) as (_ & ? & _)).
    split.
    + apply (groupsOk_ext gc1 s1);
        [done|intros j g; apply (setIsAvailable_groupId _ _ j (Some g))|done].
    + apply (groupsLinked_ext l0 s1);
        [done|intros j g; apply (setIsAvailable_groupId _ _ j (Some g))|done].
Qed.

Lemma initSentences_linked (ss : list Sentence) :
  (∀ k s j t, ss !! k = Some s → transformations s !! j = Some t →
     groupId t = None) →
  ∀ sentIndex c ss',
    initSentences sentIndex c ss = Some ss' →
    ∀ k s s', ss !! k = Some s → ss' !! k = Some s' →
      ∃ b, groupsOk b s' ∧ groupsLinked (transformations s) s'.
Proof.
  induction ss as [|s0 rest IH]; intros Hnone sentIndex c ss'; simpl.
  - by intros [= <-] k s s'.
  - destruct (initSentence sentIndex c s0) as [[s0' c0']|] eqn:Hs0;
      simpl; [|done].
    destruct (initSentences (S sentIndex) c0' rest) as [rest'|] eqn:Hrest;
      simpl; [|done].
    intros [= <-] [|k] s s' Hk Hk'; simpl in Hk, Hk'.
    + injection Hk as <-. injection Hk' as <-.
      eapply initSentence_linked; [|exact Hs0].
      intros j t. apply (Hnone 0 s0). done.
    + eapply (IH (λ k s, Hnone (S k) s)); [exact Hrest|exact Hk|exact Hk'].
Qed.

(** X27. On a result whose transformations are not yet grouped, every
    group [setMetaData] builds hangs together: it has a member from which
    every member is reached through a chain of transformations of the
    sentence, each overlapping a later one by the ordered test
    [transformsOverlap(t1, t2, true)].  No group holds a transformation
    unrelated to the rest of it. *)
Theorem setMetaData_groups_are_chains (d d' : Data) (ss ss' : list Sentence) :
  rulesApplied d = Some ss →
  (∀ k s j t, ss !! k = Some s → transformations s !! j = Some t →
     groupId t = None) →
  setMetaData d = Some d' →
  rulesApplied d' = Some ss' →
  ∀ k s s' g ms,
    ss !! k = Some s → ss' !! k = Some s' → groups s' !! g = Some ms →
    ∃ start,
      start ∈ ms
      ∧ ∀ j, j ∈ ms → linked (transformations s) start j.
Proof.
  intros Hss Hnone. unfold setMetaData. rewrite Hss.
  destruct (initSentences 0 0 ss) as [ss1|] eqn:Hrun; simpl; [|done].
  intros [= <-]. simpl. intros [= <-] k s s' g ms Hk Hk' Hms.
  destruct (initSentences_linked ss Hnone 0 0 ss1 Hrun k s s' Hk Hk')
    as (b & [Ha _] & Hlinked).
  destruct (Hlinked g ms Hms) as (start & Hfound & Hgl).
  destruct (Ha g ms Hms) as (_ & _ & Hin).
  exists start. split; [by apply Hin|].
  intros j Hj. apply Hin in Hj as (t & Ht & Hg). by eapply Hgl.
Qed.

Lemma setMetaData_groups_are_chains_witness :
  ∃ start,
    start ∈ [0; 1]
    ∧ ∀ j, j ∈ [0; 1] → linked (transformations hzve_sentence) start j.
Proof.
  apply (setMetaData_groups_are_chains sample_raw sample_d0
           [hzve_sentence; remark_sentence]
           (default [] (rulesApplied sample_d0)))
    with (k := 0)
         (s' := default hzve_sentence
                  (default [] (rulesApplied sample_d0) !! 0))
         (g := 0).
  - reflexivity.
  - intros [|[|k]] s j t Hs Ht; [| |done].
    + injection Hs as <-.
      destruct j as [|[|[|j]]]; [| | |done]; by injection Ht as <-.
    + injection Hs as <-.
      destruct j as [|[|j]]; [| |done]; by injection Ht as <-.
  - vm_compute. reflexivity.
  - reflexivity.
  - reflexivity.
  - reflexivity.
  - vm_compute. reflexivity.
Defined.

(** ** What no operation writes *)

Lemma statusAndFlagOnly_refl x : statusAndFlagOnly x x.
Proof. unfold statusAndFlagOnly. by destruct x. Qed.

Lemma statusAndFlagOnly_trans x y z :
  statusAndFlagOnly x y → statusAndFlagOnly y z → statusAndFlagOnly x z.
Proof.
  unfold statusAndFlagOnly. intros Hxy Hyz. rewrite Hyz, Hxy.
  by destruct x.
Qed.

Lemma keepsStatic_refl s : keepsStatic s s.
Proof.
  repeat split. apply Forall2_refl_list, statusAndFlagOnly_refl.
Qed.

Lemma keepsStatic_trans s1 s2 s3 :
  keepsStatic s1 s2 → keepsStatic s2 s3 → keepsStatic s1 s3.
Proof.
  intros (?&?&?&H12) (?&?&?&H23). repeat split; try congruence.
  eapply Forall2_trans_list; [apply statusAndFlagOnly_trans|done..].
Qed.

Lemma keepsStatic_upd (s : Sentence) (f : Transform → Transform) (i : nat) :
  (∀ t, statusAndFlagOnly t (f t)) →
  keepsStatic s (updTransform f i s).
Proof.
  intros Hf. repeat split. simpl.
  apply Forall2_alter_r;
    [apply Forall2_refl_list, statusAndFlagOnly_refl|].
  intros x y _ _ Hxy.
  eapply statusAndFlagOnly_trans; [exact Hxy|apply Hf].
Qed.

Lemma keepsStatic_setIsAvailable (ms : list nat) (s : Sentence) :
  keepsStatic s (setIsAvailable ms s).
Proof.
  revert s. induction ms as [|m ms IH]; intros s; [apply keepsStatic_refl|].
  unfold setIsAvailable in *. simpl.
  eapply keepsStatic_trans; [|apply IH].
  apply keepsStatic_upd. intros t. unfold statusAndFlagOnly. by destruct t.
Qed.

Lemma stores_insert (ss : list Sentence) (i : nat) (s s' : Sentence) :
  ss !! i = Some s → keepsStatic s s' →
  Forall2 keepsStatic ss (<[i := s']> ss).
Proof.
  intros Hs Hk. apply Forall2_same_length_lookup_2;
    [by rewrite length_insert|].
  intros j a b Ha Hb. destruct (decide (j = i)) as [->|Hne].
  - rewrite list_lookup_insert_eq in Hb by (by eapply lookup_lt_Some).
    congruence.
  - rewrite list_lookup_insert_ne in Hb by done.
    assert (a = b) as -> by congruence. apply keepsStatic_refl.
Qed.

Lemma stores_alter (ss : list Sentence) (f : Transform → Transform)
    (i j : nat) :
  (∀ t, statusAndFlagOnly t (f t)) →
  Forall2 keepsStatic ss (alter (updTransform f j) i ss).
Proof.
  intros Hf. apply Forall2_alter_r;
    [apply Forall2_refl_list, keepsStatic_refl|].
  intros x y _ _ Hxy.
  eapply keepsStatic_trans; [exact Hxy|by apply keepsStatic_upd].
Qed.

Lemma stores_trans (ss1 ss2 ss3 : list Sentence) :
  Forall2 keepsStatic ss1 ss2 → Forall2 keepsStatic ss2 ss3 →
  Forall2 keepsStatic ss1 ss3.
Proof. apply Forall2_trans_list, keepsStatic_trans. Qed.

(** The splice of [makeTransform] and [undoTransform] with the refresh of
    the group. *)
Lemma refresh_block_static (si : nat) (ss ss1 : list Sentence)
    (t : Transform) (from to : list Token) :
  (sentence ← ss !! si;
   toks ← replaceTokens (activeTokens sentence) from to;
   updateTokenGroup si t (<[si := set_activeTokens toks sentence]> ss))
  = Some ss1 →
  Forall2 keepsStatic ss ss1.
Proof.
  destruct (ss !! si) as [s|] eqn:Hs; [|done]. intros Hblock.
  destruct (refresh_block_shape si ss ss1 s t from to Hs)
    as (toks & ms & _ & _ & ->); [by rewrite Hs|].
  apply (stores_insert ss si s); [done|].
  eapply keepsStatic_trans; [|apply keepsStatic_setIsAvailable].
  by repeat split; try apply Forall2_refl_list, statusAndFlagOnly_refl.
Qed.

Lemma perform_keepsStatic (persist : bool) (a : Action) (d d' : Data)
    (ss : list Sentence) (b : bool) :
  rulesApplied d = Some ss →
  perform persist d a = Some (b, d') →
  ∃ ss', rulesApplied d' = Some ss'
         ∧ hasMeta d' = hasMeta d
         ∧ Forall2 keepsStatic ss ss'.
Proof.
  intros Hss Hrun.
  assert (Hflag : ∀ v t, statusAndFlagOnly t (set_isAvailable v t))
    by (intros v t; unfold statusAndFlagOnly; by destruct t).
  assert (Hstat : ∀ v t, statusAndFlagOnly t (set_status v t))
    by (intros v t; unfold statusAndFlagOnly; by destruct t).
  destruct b; cycle 1.
  { apply perform_false in Hrun as ->. exists ss. split; [done|].
    split; [done|]. apply Forall2_refl_list, keepsStatic_refl. }
  destruct a as [r|r|r]; simpl in Hrun.
  - unfold acceptCorrection in Hrun. rewrite Hss in Hrun. simpl in Hrun.
    destruct (deref ss r) as [t|]; simpl in Hrun; [|done].
    destruct (isAvailable t); [|done].
    destruct (ss !! sentenceIndex t); simpl in Hrun; [|done].
    destruct (getTransformOffset ss t); simpl in Hrun; [|done].
    unfold makeTransform in Hrun.
    destruct (deref ss r) as [t'|]; simpl in Hrun; [|done].
    destruct (hasReplacement t').
    + destruct (ss !! sentenceIndex t ≫= _) as [ss1|] eqn:Hblock;
        simpl in Hrun; [|done].
      injection Hrun as <-. eexists. split; [done|]. split; [done|].
      eapply stores_trans; [by eapply refresh_block_static|].
      eapply stores_trans; by apply stores_alter.
    + simpl in Hrun. injection Hrun as <-.
      eexists. split; [done|]. split; [done|].
      eapply stores_trans; by apply stores_alter.
  - unfold rejectCorrection in Hrun. rewrite Hss in Hrun. simpl in Hrun.
    destruct (deref ss r) as [t|]; simpl in Hrun; [|done].
    destruct (isAvailable t); [|done].
    destruct (ss !! sentenceIndex t); simpl in Hrun; [|done].
    destruct (getTransformOffset ss t); simpl in Hrun; [|done].
    injection Hrun as <-. eexists. split; [done|]. split; [done|].
    apply stores_alter. intros t0. unfold statusAndFlagOnly. by destruct t0.
  - unfold resetCorrection in Hrun. rewrite Hss in Hrun. simpl in Hrun.
    destruct (deref ss r) as [t|]; simpl in Hrun; [|done].
    destruct (canUndoTransform _ t) as [[|]|]; simpl in Hrun; [|done|done].
    unfold undoTransform in Hrun.
    destruct (deref ss r) as [t'|]; simpl in Hrun; [|done].
    destruct (hasReplacement t').
    + destruct (ss !! sentenceIndex t ≫= _) as [ss1|] eqn:Hblock;
        simpl in Hrun; [|done].
      destruct (if persist then _ else _); simpl in Hrun; [|done].
      injection Hrun as <-. eexists. split; [done|]. split; [done|].
      eapply stores_trans; [by eapply refresh_block_static|].
      eapply stores_trans; by apply stores_alter.
    + simpl in Hrun.
      destruct (if persist then _ else _); simpl in Hrun; [|done].
      injection Hrun as <-. eexists. split; [done|]. split; [done|].
      eapply stores_trans; by apply stores_alter.
Qed.

Lemma editor_perform_data (persist : bool) (e e' : Editor)
    (a : EditorAction) (ok : bool) :
  editor_perform persist e a = Some (ok, e') →
  data e' = data e
  ∨ ∃ a', perform persist (data e) a' = Some (true, data e').
Proof.
  destruct a as [r|r|]; simpl.
  - unfold editor_acceptCorrection.
    destruct (acceptCorrection (data e) r) as [[[|] d1]|] eqn:Hacc; simpl;
      [|by intros [= _ <-]; left|done].
    intros [= _ <-]. right. by exists (Accept r).
  - unfold editor_rejectCorrection.
    destruct (rejectCorrection (data e) r) as [[[|] d1]|] eqn:Hacc; simpl;
      [|by intros [= _ <-]; left|done].
    intros [= _ <-]. right. by exists (Reject r).
  - unfold undoLastTransform.
    case_bool_decide; [|by intros [= _ <-]; left].
    destruct (transformStack e !! _) as [r|]; simpl; [|done].
    destruct (resetCorrection persist (data e) r) as [[[|] d1]|] eqn:Hacc;
      simpl; [|by intros [= _ <-]; left|done].
    intros [= _ <-]. right. by exists (Reset r).
Qed.

Lemma keepsStatic_originalText (ss ss' : list Sentence) :
  Forall2 keepsStatic ss ss' →
  map getOriginalSentenceText ss' = map getOriginalSentenceText ss.
Proof.
  induction 1 as [|s s' ss ss' (Ho & _) _ IH]; simpl; [done|].
  unfold getOriginalSentenceText at 1 3. by rewrite Ho, IH.
Qed.

(** X28. Through any sequence of editor calls (accept, reject, undo-last,
    successful or refused) the result keeps its sentences, their original
    tokens, groups and indices, and every transformation keeps everything
    but its status and its [isAvailable] flag: the content, the group id
    and the three indices.  In particular the original text of the job
    never changes, and [hasMeta] stays. *)
Theorem editor_session_keeps_static (persist : bool)
    (l : list EditorAction) (e e' : Editor) (ss : list Sentence) :
  rulesApplied (data e) = Some ss →
  editor_session persist e l = Some e' →
  ∃ ss',
    rulesApplied (data e') = Some ss'
    ∧ Forall2 keepsStatic ss ss'
    ∧ hasMeta (data e') = hasMeta (data e)
    ∧ getOriginalText (data e') = getOriginalText (data e).
Proof.
  assert (Hgen : ∀ e ss,
            rulesApplied (data e) = Some ss →
            editor_session persist e l = Some e' →
            ∃ ss', rulesApplied (data e') = Some ss'
                   ∧ Forall2 keepsStatic ss ss'
                   ∧ hasMeta (data e') = hasMeta (data e)).
  { clear. induction l as [|a l IH]; intros e ss Hss Hrun; simpl in Hrun.
    - injection Hrun as <-. exists ss. split; [done|].
      split; [apply Forall2_refl_list, keepsStatic_refl|done].
    - destruct (editor_perform persist e a) as [[ok e1]|] eqn:Hstep;
        [|done].
      destruct (editor_perform_data _ _ _ _ _ Hstep) as [Hd|[a' Hp]].
      + rewrite <- Hd in Hss.
        destruct (IH e1 ss Hss Hrun) as (ss' & ? & ? & ?).
        exists ss'. rewrite <- Hd. done.
      + destruct (perform_keepsStatic _ _ _ _ _ _ Hss Hp)
          as (ss1 & Hss1 & Hmeta & Hk1).
        destruct (IH e1 ss1 Hss1 Hrun) as (ss' & ? & Hk & ?).
        exists ss'. split; [done|].
        split; [by eapply stores_trans|congruence]. }
  intros Hss Hrun.
  destruct (Hgen e ss Hss Hrun) as (ss' & Hss' & Hk & Hmeta).
  exists ss'. split; [done|]. split; [done|]. split; [done|].
  unfold getOriginalText. rewrite Hss, Hss'. simpl.
  by rewrite (keepsStatic_originalText ss ss' Hk).
Qed.

Lemma editor_session_keeps_static_witness :
  ∃ ss',
    rulesApplied (data sample_e1) = Some ss'
    ∧ Forall2 keepsStatic (default [] (rulesApplied sample_d0)) ss'
    ∧ hasMeta (data sample_e1) = hasMeta (data sample_e0)
    ∧ getOriginalText (data sample_e1) = getOriginalText (data sample_e0).
Proof.
  apply (editor_session_keeps_static true
           [EAccept (0, 0); EReject (0, 0); EUndoLast] sample_e0 sample_e1).
  - reflexivity.
  - vm_compute. reflexivity.
Defined.

(** ** [applyAll] on every initialized result *)

Lemma freshFrom_lookup ρ (ss : list Sentence) :
  ∀ i k s ti t,
    freshFrom ρ i ss = true →
    ss !! k = Some s → transformations s !! ti = Some t →
    freshIdsb (ρ (i + k)) t = true.
Proof.
  induction ss as [|x ss IH]; intros i [|k] s ti t; simpl; try done.
  - intros [H _]%andb_true_iff [= ->] Ht. rewrite Nat.add_0_r.
    rewrite forallb_forall in H. apply H, list_elem_of_In.
    apply list_elem_of_lookup. eauto.
  - intros [_ H]%andb_true_iff Hs Ht.
    replace (i + S k) with (S i + k) by lia. by eapply IH.
Qed.

Lemma store_bounded_from (ρ : nat → nat → nat) (ss : list Sentence) :
  ∀ i, ∃ K M, ∀ k s t, ss !! k = Some s → t ∈ transformations s →
    length (tokensAdded t) < K
    ∧ ∀ b, b ∈ tokensAdded t → ρ (i + k) (token_id b) ≤ M.
Proof.
  induction ss as [|x ss IH]; intros i; [by exists 0, 0|].
  destruct (IH (S i)) as (K & M & HKM).
  destruct (added_bounded (ρ i) (transformations x)) as (Kx & Mx & Hx).
  exists (max Kx K), (max Mx M). intros [|k] s t; simpl.
  - intros [= ->] Ht. rewrite Nat.add_0_r.
    destruct (Hx t Ht) as [? Hb]. split; [lia|].
    intros b Hb'. specialize (Hb b Hb'). lia.
  - intros Hs Ht. replace (i + S k) with (S i + k) by lia.
    destruct (HKM k s t Hs Ht) as [? Hb]. split; [lia|].
    intros b Hb'. specialize (Hb b Hb'). lia.
Qed.

Lemma weightFrom_insert K M ρ (ss : list Sentence) :
  ∀ i k s s',
    ss !! k = Some s →
    weightFrom K M ρ i (<[k := s']> ss)
    + streamWeight K M (ρ (i + k)) (activeTokens s)
    = weightFrom K M ρ i ss
      + streamWeight K M (ρ (i + k)) (activeTokens s').
Proof.
  induction ss as [|x ss IH]; intros i [|k] s s'; simpl; try done.
  - intros [= ->]. rewrite Nat.add_0_r. lia.
  - intros Hs. replace (i + S k) with (S i + k) by lia.
    specialize (IH (S i) k s s' Hs). lia.
Qed.

(** [setMetaData] on a result with fresh ids, when it returns, leaves a
    ranked store. *)
Lemma setMetaData_ranked ρ (d d' : Data) (ss : list Sentence) :
  rulesApplied d = Some ss →
  freshInput ρ ss = true →
  setMetaData d = Some d' →
  ∃ ss' K M,
    rulesApplied d' = Some ss'
    ∧ hasMeta d' = true
    ∧ rankedStore K M ρ ss'.
Proof.
  intros Hss Hfresh. unfold setMetaData. rewrite Hss. simpl.
  destruct (initSentences 0 0 ss) as [ss'|] eqn:Hrun; simpl; [|done].
  intros [= <-].
  destruct (initSentences_initialized ss 0 0 ss' Hrun) as (Hlen & Hall).
  destruct (store_bounded_from ρ ss 0) as (K & M & HKM).
  exists ss', K, M. split; [done|]. split; [done|].
  intros si s' ti t' Hs' Ht'.
  assert (Hlt : si < length ss)
    by (rewrite <- Hlen; by eapply lookup_lt_Some).
  destruct (lookup_lt_is_Some_2 ss si Hlt) as [s Hs].
  destruct (Hall si s Hs) as (s'' & Hs'' & _ & _ & _ & Hlen' & Htr).
  assert (s'' = s') by congruence. subst s''.
  assert (Hlt' : ti < length (transformations s))
    by (rewrite <- Hlen'; by eapply lookup_lt_Some).
  destruct (lookup_lt_is_Some_2 _ ti Hlt') as [t Ht].
  destruct (Htr ti t Ht) as (y & Hy & Haff & Hadd & Hrep & _ & _ & Hsi & _).
  assert (y = t') by congruence. subst y.
  split; [done|]. rewrite Haff, Hadd, Hrep. intros Hr.
  assert (Ht_in : t ∈ transformations s)
    by (apply list_elem_of_lookup; eauto).
  destruct (HKM si s t Hs Ht_in) as [HK HM].
  split; [done|]. intros b Hb. split; [by apply HM|].
  intros a Ha.
  exact (freshIdsb_spec (ρ si) t
           (freshFrom_lookup ρ ss 0 si s ti t Hfresh Hs Ht) Hr a b Ha Hb).
Qed.

(** Operations write status, flag and stream only, so a ranked store stays
    ranked. *)
Lemma keepsStatic_ranked K M ρ (ss ss' : list Sentence) :
  rankedStore K M ρ ss →
  Forall2 keepsStatic ss ss' →
  rankedStore K M ρ ss'.
Proof.
  intros Hr HF si s' ti t' Hs' Ht'.
  destruct (Forall2_lookup_r _ _ _ _ _ HF Hs') as (s & Hs & _ & _ & _ & HT).
  destruct (Forall2_lookup_r _ _ _ _ _ HT Ht') as (t & Ht & Hst).
  specialize (Hr si s ti t Hs Ht).
  unfold statusAndFlagOnly in Hst. rewrite Hst. by destruct t.
Qed.

Lemma operations_ranked K M ρ (persist : bool) (ops : list Action) :
  ∀ d d1 ss,
    rulesApplied d = Some ss →
    rankedStore K M ρ ss →
    operations persist d ops = Some d1 →
    ∃ ss1, rulesApplied d1 = Some ss1
           ∧ rankedStore K M ρ ss1
           ∧ hasMeta d1 = hasMeta d.
Proof.
  induction ops as [|a ops IH]; intros d d1 ss Hss Hr; simpl.
  - intros [= <-]. eauto.
  - destruct (perform persist d a) as [[b d0]|] eqn:Hstep; [|done].
    destruct (perform_keepsStatic persist a d d0 ss b Hss Hstep)
      as (ss0 & Hss0 & Hmeta & HF).
    intros Hrest.
    destruct (IH d0 d1 ss0 Hss0 (keepsStatic_ranked K M ρ _ _ Hr HF) Hrest)
      as (ss1 & Hss1 & Hr1 & Hmeta1).
    exists ss1. split; [done|]. split; [done|]. congruence.
Qed.

Lemma operations_ready K M ρ (persist : bool) (ops : list Action) :
  ∀ d d1 ss,
    rulesApplied d = Some ss →
    wfStore K M ρ ss →
    operations persist d ops = Some d1 →
    ∃ ss1, rulesApplied d1 = Some ss1
           ∧ wfStore K M ρ ss1
           ∧ hasMeta d1 = hasMeta d.
Proof.
  induction ops as [|a ops IH]; intros d d1 ss Hss Hwf; simpl.
  - intros [= <-]. eauto.
  - destruct (perform persist d a) as [[b d0]|] eqn:Hstep; [|done].
    destruct (perform_keepsStatic persist a d d0 ss b Hss Hstep)
      as (ss0' & Hss0' & Hmeta & _).
    destruct (perform_ready K M ρ persist a d d0 ss b Hwf Hss Hstep)
      as (ss0 & Hss0 & Hwf0).
    intros Hrest.
    destruct (IH d0 d1 ss0 Hss0 Hwf0 Hrest) as (ss1 & Hss1 & Hwf1 & Hmeta1).
    exists ss1. split; [done|]. split; [done|]. congruence.
Qed.

(** The editor as [interactiveEditor] builds it on a result that has its
    metadata. *)
Lemma interactiveEditor_initial (d : Data) (ignoreNoReplacement : bool)
    (ss : list Sentence) :
  hasMeta d = true →
  rulesApplied d = Some ss →
  ∃ e, interactiveEditor d ignoreNoReplacement = Some e
       ∧ data e = d
       ∧ transStackSize e = length (transformStack e)
       ∧ updateAvailableCache e = e.
Proof.
  intros Hmeta Hss.
  unfold interactiveEditor, ensureMetaData. rewrite Hmeta. simpl.
  rewrite Hss. eexists. split; [done|]. by repeat split.
Qed.

Lemma editor_session_ranked K M ρ (persist : bool) (l : list EditorAction) :
  ∀ e e1 ss,
    rulesApplied (data e) = Some ss →
    rankedStore K M ρ ss →
    transStackSize e = length (transformStack e) →
    updateAvailableCache e = e →
    editor_session persist e l = Some e1 →
    ∃ ss1, rulesApplied (data e1) = Some ss1
           ∧ rankedStore K M ρ ss1
           ∧ transStackSize e1 = length (transformStack e1)
           ∧ updateAvailableCache e1 = e1.
Proof.
  induction l as [|a l IH]; intros e e1 ss Hss Hr Hsize Hcache; simpl.
  - intros [= <-]. eauto.
  - destruct (editor_perform persist e a) as [[b e0]|] eqn:Hstep; [|done].
    destruct (editor_perform_keeps persist e e0 a b Hstep Hsize Hcache)
      as (Hsize0 & Hcache0 & _).
    destruct (editor_perform_data persist e e0 a b Hstep)
      as [Hd|[a' Hd]].
    + apply (IH e0 e1 ss); [by rewrite Hd|done..].
    + destruct (perform_keepsStatic persist a' _ _ ss true Hss Hd)
        as (ss0 & Hss0 & _ & HF).
      apply (IH e0 e1 ss0); [done| |done..].
      by eapply keepsStatic_ranked.
Qed.

(** The loop of [applyAll] ends on every ranked store: an accept that
    returns makes the streams lighter or leaves them and uses up a pending
    transformation; an accept that throws ends the loop at once. *)
Lemma applyAll_ends K M ρ (ignoreSuggestions : bool) (a b c : nat) :
  ∀ e ss,
    rulesApplied (data e) = Some ss →
    rankedStore K M ρ ss →
    transStackSize e = length (transformStack e) →
    updateAvailableCache e = e →
    weightFrom K M ρ 0 ss ≤ a →
    totalReplacing ss ≤ b →
    totalRemarks ss ≤ c →
    ∃ fuel, (applyAll fuel ignoreSuggestions e).1 ≠ OutOfFuel.
Proof.
  revert b c.
  induction a as [a IHa] using lt_wf_ind. intros b.
  induction b as [b IHb] using lt_wf_ind. intros c.
  induction c as [c IHc] using lt_wf_ind.
  intros e ss Hss Hr Hsize Hcache Ha Hb Hc.
  destruct (hasNextTransform ignoreSuggestions e) eqn:Hnext; cycle 1.
  { exists 1. simpl. by rewrite Hnext. }
  destruct (next_in_cache _ _ Hnext) as (r & Hnx & Hin).
  destruct (editor_acceptCorrection e r) as [[ok e1]|] eqn:Hstep; cycle 1.
  { exists 1. simpl. by rewrite Hnext, Hnx, Hstep. }
  destruct (accept_from_cache e r ok e1 Hcache Hin Hstep)
    as (-> & Hacc & _).
  destruct (editor_perform_keeps true e e1 (EAccept r) true Hstep
              Hsize Hcache) as (Hsize1 & Hcache1 & _).
  rewrite <- Hcache in Hin. simpl in Hin.
  apply filter_In in Hin as [_ Hoff]. rewrite Hss in Hoff.
  destruct (onRef_true _ _ _ Hoff) as (t & Ht & Hoffered).
  apply andb_true_iff in Hoffered as [Hav _].
  destruct r as [si ti]. unfold deref in Ht. simpl in Ht.
  destruct (ss !! si) as [s|] eqn:Hs; simpl in Ht; [|done].
  destruct (Hr si s ti t Hs Ht) as (Hsi & Hrank).
  destruct (perform_shape true (Accept (si, ti)) (data e) (data e1) ss
              si ti s t eq_refl Hss Hs Ht Hsi Hacc)
    as (ms & toks & Hcase & Hd1).
  simpl in Hcase, Hd1.
  destruct (perform_keepsStatic true (Accept (si, ti)) _ _ ss true Hss Hacc)
    as (ss1 & Hss1 & _ & HF).
  set (s' := updTransform _ ti (updTransform _ ti _)) in Hd1.
  assert (ss1 = <[si := s']> ss) by (rewrite Hd1 in Hss1; by injection Hss1).
  subst ss1.
  assert (Hr1 : rankedStore K M ρ (<[si := s']> ss))
    by (by eapply keepsStatic_ranked).
  assert (Hdec : sentenceDecreases K M (ρ si) s' s).
  { apply (accepted_decreases K M (ρ si) s ti t ms toks Ht Hav); [|done|].
    - intros Hrep Hnil. rewrite Hrep, Hnil in Hcase.
      destruct Hcase as [Hcase _]. by destruct (activeTokens s).
    - destruct (hasReplacement t); by destruct Hcase. }
  pose proof (weightFrom_insert K M ρ ss 0 si s s' Hs) as HA.
  pose proof (sum_list_with_insert pendingReplacing ss si s s' Hs) as HB.
  pose proof (sum_list_with_insert pendingRemarks ss si s s' Hs) as HC.
  change (0 + si) with si in HA.
  fold (totalReplacing ss) in HB. fold (totalRemarks ss) in HC.
  set (ss' := <[si := s']> ss) in *.
  fold (totalReplacing ss') in HB. fold (totalRemarks ss') in HC.
  assert (Hrec : ∃ fuel, (applyAll fuel ignoreSuggestions e1).1 ≠ OutOfFuel).
  { destruct Hdec as [Hlt|[Hact [Hlt|[Hle Hlt]]]].
    - apply (IHa (weightFrom K M ρ 0 ss') ltac:(lia) _ _ e1 ss' Hss1 Hr1
               Hsize1 Hcache1 (le_n _) (le_n _) (le_n _)).
    - rewrite Hact in HA.
      apply (IHb (totalReplacing ss') ltac:(lia) _ e1 ss' Hss1 Hr1
               Hsize1 Hcache1 ltac:(lia) (le_n _) (le_n _)).
    - rewrite Hact in HA.
      apply (IHc (totalRemarks ss') ltac:(lia) e1 ss' Hss1 Hr1
               Hsize1 Hcache1 ltac:(lia) ltac:(lia) (le_n _)). }
  destruct Hrec as [fuel Hrun].
  exists (S fuel). simpl. rewrite Hnext, Hnx, Hstep.
  by destruct (applyAll fuel ignoreSuggestions e1).
Qed.

(** C8. For every initialized document, [editor.applyAll(true)] ends after
    finitely many turns of its loop and never calls [acceptCorrection] on a
    transformation whose [isSuggestion] flag is set, whatever suggestions
    stay available at the end.  In three parts.
    Never a suggestion: in every run, from every editor state and for every
    bound on the number of turns, no call is on a suggestion.
    Finitely many turns: take any result that meets the invariant of the
    data model on ids (in each sentence the inserted ids are fresh: ranked
    by [ρ], sentence by sentence, strictly above the ids removed), once
    [setMetaData] has returned on it, in any state
    reached through accept, reject and reset calls, successful or refused;
    the editor is built, and from every state it reaches through its own
    accept, reject and undo-last calls the loop ends: it returns, or a call
    of [acceptCorrection] throws and ends it.
    Normal return: when the transformations arrive as the service sends
    them (ungrouped, each affecting at least one token, inserted ids ranked
    by one [ρ] strictly above the ids removed), [setMetaData] returns and,
    in all these states, the loop returns normally. *)
Theorem applyAll_skipping_suggestions :
  (∀ fuel e, calledNoSuggestion (data e) (applyAll fuel true e).2)
  ∧ (∀ (ρ : nat → nat → nat) d ss d' persist ops d1 ignoreNoReplacement,
       rulesApplied d = Some ss →
       freshInput ρ ss = true →
       setMetaData d = Some d' →
       operations persist d' ops = Some d1 →
       ∃ e,
         interactiveEditor d1 ignoreNoReplacement = Some e
         ∧ ∀ l e1,
             editor_session persist e l = Some e1 →
             ∃ fuel, (applyAll fuel true e1).1 ≠ OutOfFuel)
  ∧ (∀ (ρ : nat → nat) d ss,
       rulesApplied d = Some ss →
       wellReceived ρ ss = true →
       ∃ d',
         setMetaData d = Some d'
         ∧ ∀ persist ops d1 ignoreNoReplacement,
             operations persist d' ops = Some d1 →
             ∃ e,
               interactiveEditor d1 ignoreNoReplacement = Some e
               ∧ ∀ l e1,
                   editor_session persist e l = Some e1 →
                   ∃ fuel e' calls,
                     applyAll fuel true e1 = (Returned e', calls)).
Proof.
  split; [intros fuel e; apply applyAll_calls|]. split.
  - intros ρ d ss d' persist ops d1 b Hss Hfresh Hinit Hops.
    destruct (setMetaData_ranked ρ d d' ss Hss Hfresh Hinit)
      as (ss' & K & M & Hss' & Hmeta & Hr).
    destruct (operations_ranked K M ρ persist ops d' d1 ss' Hss' Hr Hops)
      as (ss1 & Hss1 & Hr1 & Hmeta1).
    rewrite Hmeta in Hmeta1.
    destruct (interactiveEditor_initial d1 b ss1 Hmeta1 Hss1)
      as (e & He & Hd & Hsize & Hcache).
    exists e. split; [done|]. intros l e1 Hses.
    rewrite <- Hd in Hss1.
    destruct (editor_session_ranked K M ρ persist l e e1 ss1 Hss1 Hr1
                Hsize Hcache Hses) as (ss2 & Hss2 & Hr2 & Hsize2 & Hcache2).
    exact (applyAll_ends K M ρ true _ _ _ e1 ss2 Hss2 Hr2 Hsize2 Hcache2
             (le_n _) (le_n _) (le_n _)).
  - intros ρ d ss Hss Hrecv.
    destruct (setMetaData_wellFormed ρ d ss Hss Hrecv)
      as (d' & ss' & K & M & Hinit & Hss' & Hmeta & Hwf).
    exists d'. split; [done|]. intros persist ops d1 b Hops.
    destruct (operations_ready K M ρ persist ops d' d1 ss' Hss' Hwf Hops)
      as (ss1 & Hss1 & Hwf1 & Hmeta1).
    rewrite Hmeta in Hmeta1.
    destruct (interactiveEditor_initial d1 b ss1 Hmeta1 Hss1)
      as (e & He & Hd & Hsize & Hcache).
    exists e. split; [done|]. intros l e1 Hses.
    assert (Hready : editorReady K M ρ e ss1).
    { split; [by rewrite Hd|]. split; [done|].
      pose proof (f_equal allAvailableTransforms Hcache) as Hc.
      simpl in Hc. rewrite <- Hc. by rewrite Hd, Hss1. }
    destruct (editor_session_ready K M ρ persist l e e1 ss1 Hready Hses)
      as [ss2 Hready2].
    destruct (applyAll_skipping_stops K M ρ _ _ _ e1 ss2 Hready2
                (le_n _) (le_n _) (le_n _)) as (fuel & e' & calls & Hrun & _).
    by exists fuel, e', calls.
Qed.

Lemma applyAll_skipping_suggestions_witness :
  calledNoSuggestion (data sample_e0) (applyAll 5 true sample_e0).2
  ∧ (∃ e,
       interactiveEditor sample_d1 false = Some e
       ∧ ∀ l e1,
           editor_session true e l = Some e1 →
           ∃ fuel, (applyAll fuel true e1).1 ≠ OutOfFuel)
  ∧ (∃ d',
       setMetaData sample_raw = Some d'
       ∧ ∀ persist ops d1 ignoreNoReplacement,
           operations persist d' ops = Some d1 →
           ∃ e,
             interactiveEditor d1 ignoreNoReplacement = Some e
             ∧ ∀ l e1,
                 editor_session persist e l = Some e1 →
                 ∃ fuel e' calls,
                   applyAll fuel true e1 = (Returned e', calls)).
Proof.
  destruct applyAll_skipping_suggestions as (Hcalls & Hends & Hreturns).
  split; [apply Hcalls|]. split.
  - apply (Hends (λ _ n, n) sample_raw [hzve_sentence; remark_sentence]
             sample_d0 true [Accept (0, 0)] sample_d1 false);
      vm_compute; reflexivity.
  - apply (Hreturns (λ n, n) sample_raw [hzve_sentence; remark_sentence]
             eq_refl eq_refl).
Defined.
